(** * PokemonSwap: escrow swaps of PokemonCard tokens

    A shallow embedding of [contracts/PokemonSwap.sol] (the swap coordinator)
    and of the [PokemonCard] token contract it drives, with the properties of
    the swap life cycle proved over it.

    Solidity's [uint256] and [address] values are natural numbers ([N]); the
    arithmetic of Solidity 0.8 is checked, so an increment past [2^256 - 1]
    reverts instead of wrapping.  A [mapping] is a finite map whose missing
    keys read as the all-zero value.  A call either returns, with the new
    state, or reverts, and a reverted call leaves no trace.

    The base contracts both contracts inherit from (ERC721, Pausable, Ownable,
    ReentrancyGuard) are imported and not part of the repository; what they
    contribute is modelled after the specification's asset registry and
    administrative switch, and marked as such.

    The web client (the hooks [useSwaps] and [useTokens], and
    [lib/contracts]) is embedded over the same worlds.  The events it queries
    are the facts of the log; a JavaScript [number] read from an integer is
    the nearest double; a [Map] is the list of its entries in insertion
    order.  The provider is taken to answer every query, and the queried
    blocks to hold the whole log. *)

From stdpp Require Import gmap list strings.

Open Scope N_scope.

Abbreviation address := N (only parsing).

(** [address(0)]: the value of an unset [address] slot.  No call ever has it
    as [msg.sender]. *)
Definition zeroAddress : address := 0.

Definition MAX_UINT256 : N := 2 ^ 256 - 1.

(** ** Failures *)

(** The failure kinds, one per [require] of the source, plus those of the
    registry and of the inherited modifiers. *)
Inductive error : Type :=
  | SystemPaused          (* whenNotPaused *)
  | ReentrantCall         (* nonReentrant *)
  | NotAdministrator      (* onlyOwner *)
  | IdenticalAssets       (* createSwap: "Cannot swap the same token" *)
  | NotOwner              (* createSwap: "Not the owner of tokenA" *)
  | CounterpartyMismatch  (* createSwap: "TokenB not owned by specified owner" *)
  | NotApprovedA          (* createSwap: "Contract not approved for tokenA" *)
  | SwapNotPending        (* acceptSwap, cancelSwap: "Swap already executed" *)
  | NotCounterparty       (* acceptSwap: "Not the tokenB owner" *)
  | NotApprovedB          (* acceptSwap: "Contract not approved for tokenB" *)
  | NotProposer           (* cancelSwap: "Not the tokenA owner" *)
  | UnknownAsset          (* registry: asset never created *)
  | NotHolder             (* registry: [from] is not the current holder *)
  | NotAuthorized         (* registry: caller is neither holder nor operator *)
  | ZeroReceiver          (* registry: a card is minted to the zero account *)
  | AlreadyMinted         (* registry: the identifier of a new card is in use *)
  | NotReceiver           (* registry: the receiver of a safe mint does not take it *)
  | ArithmeticOverflow.   (* checked [++] on a [uint256] *)

#[global] Instance error_eq_dec : EqDecision error.
Proof. solve_decision. Defined.

(** The text a failure is reported with: the literal of the [require] where
    the source has one. *)
Definition reason (e : error) : string :=
  match e with
  | SystemPaused => "Pausable: paused"
  | ReentrantCall => "ReentrancyGuard: reentrant call"
  | NotAdministrator => "Ownable: caller is not the owner"
  | IdenticalAssets => "Cannot swap the same token"
  | NotOwner => "Not the owner of tokenA"
  | CounterpartyMismatch => "TokenB not owned by specified owner"
  | NotApprovedA => "Contract not approved for tokenA"
  | SwapNotPending => "Swap already executed"
  | NotCounterparty => "Not the tokenB owner"
  | NotApprovedB => "Contract not approved for tokenB"
  | NotProposer => "Not the tokenA owner"
  | UnknownAsset => "UnknownAsset"
  | NotHolder => "NotHolder"
  | NotAuthorized => "NotAuthorized"
  | ZeroReceiver => "ERC721: mint to the zero address"
  | AlreadyMinted => "ERC721: token already minted"
  | NotReceiver => "ERC721: transfer to non ERC721Receiver implementer"
  | ArithmeticOverflow => "Panic(0x11)"
  end.

(** The failures that report a problem with who holds an asset. *)
Definition ownership_error (e : error) : bool :=
  match e with
  | NotOwner | NotHolder => true
  | _ => false
  end.

Inductive result (A : Type) : Type :=
  | Success (a : A)
  | Revert (e : error).
Arguments Success {A} a.
Arguments Revert {A} e.

(** ** Data model *)

(** An asset of the registry (a PokemonCard token). *)
Record Asset : Type := mkAsset {
  holder : address;
  operator : option address;
  metadata : string
}.

(** The state of the [PokemonCard] contract. *)
Record Registry : Type := mkRegistry {
  assets : gmap N Asset;
  _nextTokenId : N;
  creationPaused : bool;
  registryAdmin : address
}.

(** [struct Swap] of PokemonSwap.sol. *)
Record Swap : Type := mkSwap {
  tokenAOwner : address;
  tokenA : N;
  tokenBOwner : address;
  tokenB : N;
  executed : bool
}.

(** What an unset slot of [mapping(uint256 => Swap)] reads as. *)
Definition zeroSwap : Swap := mkSwap zeroAddress 0 zeroAddress 0 false.

(** The facts (events) both contracts emit. *)
Inductive Fact : Type :=
  | AssetCreated (id : N) (holder : address) (metadataRef : string)
  | AssetTransferred (id : N) (from to : address)
  | SwapCreated (swapId : N) (tokenAOwner : address) (tokenA : N)
                (tokenBOwner : address) (tokenB : N)
  | SwapExecuted (swapId : N) (tokenAOwner tokenBOwner : address)
  | SwapCancelled (swapId : N) (tokenAOwner : address).

(** The whole ledger the two contracts live on: the registry, the storage of
    PokemonSwap ([swaps], [nextSwapId], the pause flag and owner it inherits,
    the lock of its reentrancy guard) and the ordered log of emitted facts. *)
Record World : Type := mkWorld {
  pokemonCard : Registry;
  swaps : gmap N Swap;
  nextSwapId : N;
  paused : bool;
  owner : address;
  entered : bool;
  facts : list Fact
}.

Definition set_pokemonCard (r : Registry) (w : World) : World :=
  mkWorld r (swaps w) (nextSwapId w) (paused w) (owner w) (entered w) (facts w).
Definition set_swaps (m : gmap N Swap) (w : World) : World :=
  mkWorld (pokemonCard w) m (nextSwapId w) (paused w) (owner w) (entered w) (facts w).
Definition set_nextSwapId (n : N) (w : World) : World :=
  mkWorld (pokemonCard w) (swaps w) n (paused w) (owner w) (entered w) (facts w).
Definition set_paused (b : bool) (w : World) : World :=
  mkWorld (pokemonCard w) (swaps w) (nextSwapId w) b (owner w) (entered w) (facts w).
Definition set_entered (b : bool) (w : World) : World :=
  mkWorld (pokemonCard w) (swaps w) (nextSwapId w) (paused w) (owner w) b (facts w).
Definition set_facts (l : list Fact) (w : World) : World :=
  mkWorld (pokemonCard w) (swaps w) (nextSwapId w) (paused w) (owner w) (entered w) l.

Definition set_assets (m : gmap N Asset) (r : Registry) : Registry :=
  mkRegistry m (_nextTokenId r) (creationPaused r) (registryAdmin r).
Definition set_nextTokenId (n : N) (r : Registry) : Registry :=
  mkRegistry (assets r) n (creationPaused r) (registryAdmin r).
Definition set_creationPaused (b : bool) (r : Registry) : Registry :=
  mkRegistry (assets r) (_nextTokenId r) b (registryAdmin r).

(** ** Calls as state transformers that may revert *)

Definition M (A : Type) : Type := World → result (A * World).

#[global] Instance M_ret : MRet M := λ A a w, Success (a, w).
#[global] Instance M_bind : MBind M := λ A B f m w,
  match m w with
  | Success (a, w') => f a w'
  | Revert e => Revert e
  end.

Definition gets {A : Type} (f : World → A) : M A := λ w, Success (f w, w).
Definition modify (f : World → World) : M unit := λ w, Success (tt, f w).
Definition revert {A : Type} (e : error) : M A := λ _, Revert e.

(** [require(cond, reason)] *)
Definition require (cond : bool) (e : error) : M unit :=
  if cond then mret tt else revert e.

(** [emit] *)
Definition emit (f : Fact) : M unit := modify (λ w, set_facts (facts w ++ [f]) w).

(** ** The asset registry (PokemonCard) *)

Definition asset (tokenId : N) (w : World) : option Asset :=
  assets (pokemonCard w) !! tokenId.

(** The registry's [currentHolder] as a query: none for an unknown asset. *)
Definition currentHolder (tokenId : N) (w : World) : option address :=
  holder <$> asset tokenId w.

Definition set_asset (tokenId : N) (a : Asset) (w : World) : World :=
  set_pokemonCard (set_assets (<[tokenId := a]> (assets (pokemonCard w))) (pokemonCard w)) w.

(** Modelled from the spec: [ownerOf] is inherited from the imported ERC721
    base contract, which is not in the repository.  Registry operation
    [currentHolder]: fails with [UnknownAsset] if the id was never created. *)
Definition ownerOf (tokenId : N) : M address := λ w,
  match asset tokenId w with
  | Some a => Success (holder a, w)
  | None => Revert UnknownAsset
  end.

(** Modelled from the spec: [getApproved] of the imported ERC721 base.
    Registry operation [authorizedOperator]: an account or none. *)
Definition getApproved (tokenId : N) : M (option address) :=
  gets (λ w, asset tokenId w ≫= operator).

(** Modelled from the spec: [approve] of the imported ERC721 base.  Registry
    operation [setOperator]: fails with [NotHolder] unless the caller is the
    current holder. *)
Definition approve (sender : address) (to : address) (tokenId : N) : M unit :=
  h ← ownerOf tokenId;
  require (bool_decide (sender = h)) NotHolder;;
  a ← gets (λ w, default (mkAsset h None "") (asset tokenId w));
  modify (set_asset tokenId (mkAsset (holder a) (Some to) (metadata a))).

(** Modelled from the spec: [transferFrom] of the imported ERC721 base.
    Registry operation [transfer]: fails with [NotHolder] unless [from] is the
    current holder, with [NotAuthorized] unless the caller is [from] or the
    authorized operator; on success the holder becomes [to], the operator is
    cleared and a transfer fact is emitted. *)
Definition transferFrom (sender : address) (from to : address) (tokenId : N) : M unit :=
  h ← ownerOf tokenId;
  require (bool_decide (from = h)) NotHolder;;
  op ← getApproved tokenId;
  require (bool_decide (sender = from) || bool_decide (op = Some sender)) NotAuthorized;;
  a ← gets (λ w, default (mkAsset h None "") (asset tokenId w));
  modify (set_asset tokenId (mkAsset to None (metadata a)));;
  emit (AssetTransferred tokenId from to).

(** Modelled from the spec: [whenNotPaused] of the imported Pausable, on the
    functions of PokemonCard.  Creation fails with [SystemPaused] if it is
    paused. *)
Definition cardWhenNotPaused {A : Type} (body : M A) : M A :=
  p ← gets (λ w, creationPaused (pokemonCard w));
  require (negb p) SystemPaused;;
  body.

(** Modelled from the spec: [_safeMint] of the imported ERC721 base.  Registry
    operation [create]: the new asset's holder is the given owner, it has no
    operator.  The base contract refuses the zero account as owner and an
    identifier that is in use and, as the comment in [mint] says, checks for
    ERC721Receiver: [accepted] is the answer of the receiver, which undoes
    the creation when it is no. *)
Definition _safeMint (accepted : bool) (to : address) (tokenId : N) : M unit :=
  require (bool_decide (to ≠ zeroAddress)) ZeroReceiver;;
  known ← gets (asset tokenId);
  require (bool_decide (known = None)) AlreadyMinted;;
  modify (set_asset tokenId (mkAsset to None ""));;
  require accepted NotReceiver.

(** Modelled from the spec: [_setTokenURI] of the imported ERC721URIStorage:
    attaches the metadata reference to the asset. *)
Definition _setTokenURI (tokenId : N) (uri : string) : M unit :=
  a ← gets (λ w, default (mkAsset zeroAddress None "") (asset tokenId w));
  modify (set_asset tokenId (mkAsset (holder a) (operator a) uri)).

(** [_nextTokenId++] *)
Definition incrementNextTokenId : M unit :=
  n ← gets (λ w, _nextTokenId (pokemonCard w));
  require (bool_decide (n < MAX_UINT256)) ArithmeticOverflow;;
  modify (λ w, set_pokemonCard (set_nextTokenId (n + 1) (pokemonCard w)) w).

(** [PokemonCard.mint]; the creation fact of the registry's [create] closes
    the call.  [accepted] is what the ERC721Receiver check of [_safeMint]
    finds for [to]. *)
Definition mint (accepted : bool) (to : address) (uri : string) : M unit :=
  cardWhenNotPaused (
    id ← gets (λ w, _nextTokenId (pokemonCard w));
    _safeMint accepted to id;;
    _setTokenURI id uri;;
    incrementNextTokenId;;
    emit (AssetCreated id to uri)).

(** Modelled from the spec: [onlyOwner] of the imported Ownable, on the
    functions of PokemonCard. *)
Definition cardOnlyOwner {A : Type} (sender : address) (body : M A) : M A :=
  o ← gets (λ w, registryAdmin (pokemonCard w));
  require (bool_decide (o = sender)) NotAdministrator;;
  body.

(** [PokemonCard.pause] and [PokemonCard.unpause]: the registry supports
    pausing the creation of new assets. *)
Definition cardPause (sender : address) : M unit :=
  cardOnlyOwner sender
    (modify (λ w, set_pokemonCard (set_creationPaused true (pokemonCard w)) w)).

Definition cardUnpause (sender : address) : M unit :=
  cardOnlyOwner sender
    (modify (λ w, set_pokemonCard (set_creationPaused false (pokemonCard w)) w)).

(** The world a successful transfer of [tokenId] to [to] leaves. *)
Definition transferred (from to : address) (tokenId : N) (a : Asset) (w : World) : World :=
  set_facts (facts w ++ [AssetTransferred tokenId from to])
    (set_asset tokenId (mkAsset to None (metadata a)) w).

(** ** The swap coordinator (PokemonSwap) *)

(** Modelled from the spec: [whenNotPaused] is inherited from the imported
    Pausable, which is not in the repository.  When paused, the swap
    operations all fail with [SystemPaused]. *)
Definition whenNotPaused {A : Type} (body : M A) : M A :=
  p ← gets paused;
  require (negb p) SystemPaused;;
  body.

(** Modelled from the spec: [nonReentrant] is inherited from the imported
    ReentrancyGuard, which is not in the repository; the README names it as
    the contract's safeguard against reentrancy.  The lock is taken before the
    body runs and released after it; a call that finds the lock taken is
    refused. *)
Definition nonReentrant {A : Type} (body : M A) : M A :=
  e ← gets entered;
  require (negb e) ReentrantCall;;
  modify (set_entered true);;
  a ← body;
  modify (set_entered false);;
  mret a.

(** Modelled from the spec: [onlyOwner] is inherited from the imported
    Ownable, which is not in the repository.  The administrative operations
    are restricted to a single designated administrator account, the
    deployer. *)
Definition onlyOwner {A : Type} (sender : address) (body : M A) : M A :=
  o ← gets owner;
  require (bool_decide (o = sender)) NotAdministrator;;
  body.

(** Reading a field through [Swap storage swap = swaps[swapId]]: the storage
    pointer is dereferenced at the moment of each access. *)
Definition swapAt (swapId : N) (w : World) : Swap :=
  default zeroSwap (swaps w !! swapId).

Definition read {A : Type} (swapId : N) (field : Swap → A) : M A :=
  gets (λ w, field (swapAt swapId w)).

(** [swapId = nextSwapId++] *)
Definition postIncrementNextSwapId : M N :=
  n ← gets nextSwapId;
  require (bool_decide (n < MAX_UINT256)) ArithmeticOverflow;;
  modify (set_nextSwapId (n + 1));;
  mret n.

(** [swap.executed = true] *)
Definition markExecuted (swapId : N) : M unit :=
  modify (λ w,
    let s := swapAt swapId w in
    set_swaps (<[swapId := mkSwap (tokenAOwner s) (tokenA s) (tokenBOwner s) (tokenB s) true]>
                 (swaps w)) w).

Section Coordinator.

(** [address(this)]: the account of the deployed PokemonSwap contract, which
    is the caller of every registry operation the coordinator performs. *)
Variable this : address.

(** [createSwap(tokenA, tokenBOwner, tokenB)] called by [sender]. *)
Definition createSwapBody (sender : address) (tokA : N) (tokBOwner : address) (tokB : N) : M N :=
  require (bool_decide (tokA ≠ tokB)) IdenticalAssets;;
  oA ← ownerOf tokA;
  require (bool_decide (oA = sender)) NotOwner;;
  oB ← ownerOf tokB;
  require (bool_decide (oB = tokBOwner)) CounterpartyMismatch;;
  apA ← getApproved tokA;
  require (bool_decide (apA = Some this)) NotApprovedA;;
  swapId ← postIncrementNextSwapId;
  modify (λ w, set_swaps (<[swapId := mkSwap sender tokA tokBOwner tokB false]> (swaps w)) w);;
  transferFrom this sender this tokA;;
  emit (SwapCreated swapId sender tokA tokBOwner tokB);;
  mret swapId.

Definition createSwap (sender : address) (tokA : N) (tokBOwner : address) (tokB : N) : M N :=
  whenNotPaused (nonReentrant (createSwapBody sender tokA tokBOwner tokB)).

(** [acceptSwap(swapId)] called by [sender].  The registry is the contract
    the constructor stored in the immutable [pokemonCard], called through its
    interface: [pokemonCard_transferFrom from to tokenId] is what that
    contract does when the coordinator calls its [transferFrom]. *)
Definition acceptSwapBodyVia (pokemonCard_transferFrom : address → address → N → M unit)
    (sender : address) (swapId : N) : M unit :=
  ex ← read swapId executed;
  require (negb ex) SwapNotPending;;
  bo ← read swapId tokenBOwner;
  require (bool_decide (sender = bo)) NotCounterparty;;
  tb ← read swapId tokenB;
  apB ← getApproved tb;
  require (bool_decide (apB = Some this)) NotApprovedB;;
  bo ← read swapId tokenBOwner;
  tb ← read swapId tokenB;
  pokemonCard_transferFrom bo this tb;;
  bo ← read swapId tokenBOwner;
  ta ← read swapId tokenA;
  pokemonCard_transferFrom this bo ta;;
  ao ← read swapId tokenAOwner;
  tb ← read swapId tokenB;
  pokemonCard_transferFrom this ao tb;;
  markExecuted swapId;;
  ao ← read swapId tokenAOwner;
  bo ← read swapId tokenBOwner;
  emit (SwapExecuted swapId ao bo).

(** [acceptSwap] over the registry of the model, which the coordinator calls
    as [this]. *)
Definition acceptSwapBody (sender : address) (swapId : N) : M unit :=
  acceptSwapBodyVia (transferFrom this) sender swapId.

Definition acceptSwap (sender : address) (swapId : N) : M unit :=
  whenNotPaused (nonReentrant (acceptSwapBody sender swapId)).

(** [cancelSwap(swapId)] called by [sender].  The fact is emitted after
    [delete swaps[swapId]], and its owner field is read through the storage
    pointer at that moment. *)
Definition cancelSwapBodyVia (pokemonCard_transferFrom : address → address → N → M unit)
    (sender : address) (swapId : N) : M unit :=
  ex ← read swapId executed;
  require (negb ex) SwapNotPending;;
  ao ← read swapId tokenAOwner;
  require (bool_decide (sender = ao)) NotProposer;;
  ao ← read swapId tokenAOwner;
  ta ← read swapId tokenA;
  pokemonCard_transferFrom this ao ta;;
  modify (λ w, set_swaps (delete swapId (swaps w)) w);;
  ao ← read swapId tokenAOwner;
  emit (SwapCancelled swapId ao).

Definition cancelSwapBody (sender : address) (swapId : N) : M unit :=
  cancelSwapBodyVia (transferFrom this) sender swapId.

Definition cancelSwap (sender : address) (swapId : N) : M unit :=
  whenNotPaused (nonReentrant (cancelSwapBody sender swapId)).

(** Modelled from the spec: [_pause] and [_unpause] are inherited from the
    imported Pausable.  Administrative operations [pause()/unpause()],
    restricted to the administrator: they set and clear the pause flag. *)
Definition pause (sender : address) : M unit :=
  onlyOwner sender (modify (set_paused true)).

Definition unpause (sender : address) : M unit :=
  onlyOwner sender (modify (set_paused false)).

(** ** Transactions *)

(** Whether an account passes the ERC721Receiver check of a safe mint.  An
    externally owned account always does; a contract account does if it
    implements [onERC721Received].  The accounts of the model are externally
    owned, but for the coordinator itself, and PokemonSwap declares no
    [onERC721Received]. *)
Definition receives (to : address) : bool := bool_decide (to ≠ this).

(** The entry points of the two contracts. *)
Inductive Call : Type :=
  | CreateSwap (tokA : N) (tokBOwner : address) (tokB : N)
  | AcceptSwap (swapId : N)
  | CancelSwap (swapId : N)
  | Pause
  | Unpause
  | Mint (to : address) (uri : string)
  | Approve (to : address) (tokenId : N)
  | TransferFrom (from to : address) (tokenId : N)
  | CardPause
  | CardUnpause.

Definition run (sender : address) (c : Call) : M (option N) :=
  match c with
  | CreateSwap tokA tokBOwner tokB =>
      swapId ← createSwap sender tokA tokBOwner tokB; mret (Some swapId)
  | AcceptSwap swapId => acceptSwap sender swapId;; mret None
  | CancelSwap swapId => cancelSwap sender swapId;; mret None
  | Pause => pause sender;; mret None
  | Unpause => unpause sender;; mret None
  | Mint to uri => mint (receives to) to uri;; mret None
  | Approve to tokenId => approve sender to tokenId;; mret None
  | TransferFrom from to tokenId => transferFrom sender from to tokenId;; mret None
  | CardPause => cardPause sender;; mret None
  | CardUnpause => cardUnpause sender;; mret None
  end.

(** What the caller of a transaction observes. *)
Inductive Outcome : Type :=
  | Returned (v : option N)
  | Failed (e : error).

(** A transaction runs a call to completion; if the call reverts, every
    change it made, emitted facts included, is dropped. *)
Definition transact (sender : address) (c : Call) (w : World) : Outcome * World :=
  match run sender c w with
  | Success (v, w') => (Returned v, w')
  | Revert e => (Failed e, w)
  end.

Definition next (sender : address) (c : Call) (w : World) : World :=
  (transact sender c w).2.

(** The ledger right after PokemonSwap is deployed by [deployer] on top of a
    registry in state [r]: [nextSwapId = 1], no swap, not paused. *)
Definition deployed (r : Registry) (deployer : address) : World :=
  mkWorld r ∅ 1 false deployer false [].

(** The worlds a sequence of transactions leads to.  The sender of a
    transaction is never the zero account. *)
Inductive steps : World → World → Prop :=
  | steps_refl w : steps w w
  | steps_next w sender c w' :
      sender ≠ zeroAddress →
      steps (next sender c w) w' → steps w w'.

Definition reachable (w : World) : Prop :=
  ∃ r deployer, steps (deployed r deployer) w.

(** ** The worlds the swap operations leave *)

(** The world a successful [createSwap] leaves, [aA] being the offered asset
    as the registry held it. *)
Definition created (swapId : N) (sender : address) (tokA : N) (tokBOwner : address)
    (tokB : N) (aA : Asset) (w : World) : World :=
  let w1 := set_swaps (<[swapId := mkSwap sender tokA tokBOwner tokB false]> (swaps w))
              (set_nextSwapId (swapId + 1) (set_entered true w)) in
  let w2 := transferred sender this tokA aA w1 in
  set_entered false (set_facts (facts w2 ++ [SwapCreated swapId sender tokA tokBOwner tokB]) w2).

(** The world a successful [acceptSwap] on the swap [s] stored under [swapId]
    leaves, given the assets [aB], [aA] and [aB'] its three transfers found. *)
Definition accepted (swapId : N) (s : Swap) (aB aA aB' : Asset) (w : World) : World :=
  let w1 := transferred (tokenBOwner s) this (tokenB s) aB (set_entered true w) in
  let w2 := transferred this (tokenBOwner s) (tokenA s) aA w1 in
  let w3 := transferred this (tokenAOwner s) (tokenB s) aB' w2 in
  set_entered false
    (set_facts (facts w3 ++ [SwapExecuted swapId (tokenAOwner s) (tokenBOwner s)])
       (set_swaps
          (<[swapId := mkSwap (tokenAOwner s) (tokenA s) (tokenBOwner s) (tokenB s) true]>
             (swaps w)) w3)).

(** The world a successful [cancelSwap] on the swap [s] stored under [swapId]
    leaves. *)
Definition cancelled (swapId : N) (s : Swap) (aA : Asset) (w : World) : World :=
  let w1 := transferred this (tokenAOwner s) (tokenA s) aA (set_entered true w) in
  set_entered false
    (set_facts (facts w1 ++ [SwapCancelled swapId zeroAddress])
       (set_swaps (delete swapId (swaps w)) w1)).

(** A record held in storage after a record [s] is marked executed. *)
Definition executedSwap (s : Swap) : Swap :=
  mkSwap (tokenAOwner s) (tokenA s) (tokenBOwner s) (tokenB s) true.

(** ** Kinds of calls and of failures *)

(** The three swap operations. *)
Definition swap_call (c : Call) : bool :=
  match c with
  | CreateSwap _ _ _ | AcceptSwap _ | CancelSwap _ => true
  | _ => false
  end.

(** The calls that go to the registry alone. *)
Definition registry_call (c : Call) : bool :=
  match c with
  | Mint _ _ | Approve _ _ | TransferFrom _ _ _ | CardPause | CardUnpause => true
  | _ => false
  end.

(** What each entry point can fail with. *)
Definition failures (c : Call) : list error :=
  match c with
  | CreateSwap _ _ _ =>
      [SystemPaused; ReentrantCall; IdenticalAssets; UnknownAsset; NotOwner;
       CounterpartyMismatch; NotApprovedA; ArithmeticOverflow; NotHolder; NotAuthorized]
  | AcceptSwap _ =>
      [SystemPaused; ReentrantCall; SwapNotPending; NotCounterparty; NotApprovedB;
       UnknownAsset; NotHolder; NotAuthorized]
  | CancelSwap _ =>
      [SystemPaused; ReentrantCall; SwapNotPending; NotProposer;
       UnknownAsset; NotHolder; NotAuthorized]
  | Pause | Unpause | CardPause | CardUnpause => [NotAdministrator]
  | Mint _ _ => [SystemPaused; ZeroReceiver; AlreadyMinted; NotReceiver; ArithmeticOverflow]
  | Approve _ _ => [UnknownAsset; NotHolder]
  | TransferFrom _ _ _ => [UnknownAsset; NotHolder; NotAuthorized]
  end.

(** The preconditions of each entry point, in the order the call checks
    them, each with the failure the call is refused with when it does not
    hold.  Between transactions the lock of the reentrancy guard is free: the
    table has no line for it. *)
Definition preconditions (sender : address) (c : Call) (w : World) : list (bool * error) :=
  match c with
  | CreateSwap tokA tokBOwner tokB =>
      [ (negb (paused w), SystemPaused);
        (bool_decide (tokA ≠ tokB), IdenticalAssets);
        (bool_decide (is_Some (asset tokA w)), UnknownAsset);
        (bool_decide (currentHolder tokA w = Some sender), NotOwner);
        (bool_decide (is_Some (asset tokB w)), UnknownAsset);
        (bool_decide (currentHolder tokB w = Some tokBOwner), CounterpartyMismatch);
        (bool_decide (asset tokA w ≫= operator = Some this), NotApprovedA);
        (bool_decide (nextSwapId w < MAX_UINT256), ArithmeticOverflow) ]
  | AcceptSwap swapId =>
      let s := swapAt swapId w in
      [ (negb (paused w), SystemPaused);
        (negb (executed s), SwapNotPending);
        (bool_decide (sender = tokenBOwner s), NotCounterparty);
        (bool_decide (asset (tokenB s) w ≫= operator = Some this), NotApprovedB);
        (bool_decide (currentHolder (tokenB s) w = Some sender), NotHolder);
        (bool_decide (is_Some (asset (tokenA s) w)), UnknownAsset);
        (bool_decide (currentHolder (tokenA s) w = Some this), NotHolder) ]
  | CancelSwap swapId =>
      let s := swapAt swapId w in
      [ (negb (paused w), SystemPaused);
        (negb (executed s), SwapNotPending);
        (bool_decide (sender = tokenAOwner s), NotProposer);
        (bool_decide (is_Some (asset (tokenA s) w)), UnknownAsset);
        (bool_decide (currentHolder (tokenA s) w = Some this), NotHolder) ]
  | Pause | Unpause =>
      [ (bool_decide (owner w = sender), NotAdministrator) ]
  | Mint to uri =>
      [ (negb (creationPaused (pokemonCard w)), SystemPaused);
        (bool_decide (to ≠ zeroAddress), ZeroReceiver);
        (bool_decide (asset (_nextTokenId (pokemonCard w)) w = None), AlreadyMinted);
        (receives to, NotReceiver);
        (bool_decide (_nextTokenId (pokemonCard w) < MAX_UINT256), ArithmeticOverflow) ]
  | Approve to tokenId =>
      [ (bool_decide (is_Some (asset tokenId w)), UnknownAsset);
        (bool_decide (currentHolder tokenId w = Some sender), NotHolder) ]
  | TransferFrom from to tokenId =>
      [ (bool_decide (is_Some (asset tokenId w)), UnknownAsset);
        (bool_decide (currentHolder tokenId w = Some from), NotHolder);
        (bool_decide (sender = from) || bool_decide (asset tokenId w ≫= operator = Some sender),
         NotAuthorized) ]
  | CardPause | CardUnpause =>
      [ (bool_decide (registryAdmin (pokemonCard w) = sender), NotAdministrator) ]
  end.

(** The failure of the first check of a table that does not hold; none when
    all hold. *)
Fixpoint first_unmet (checks : list (bool * error)) : option error :=
  match checks with
  | [] => None
  | (holds, e) :: rest => if holds then first_unmet rest else Some e
  end.

Definition first_failure (sender : address) (c : Call) (w : World) : option error :=
  first_unmet (preconditions sender c w).

(** ** The coordinator's storage over a run *)

(** The four things a transaction can do to [swaps] and [nextSwapId]. *)
Inductive storage_step (sender : address) (w w' : World) : Prop :=
  | storage_same :
      swaps w' = swaps w → nextSwapId w' = nextSwapId w → storage_step sender w w'
  | storage_created tokA tokBOwner tokB :
      tokA ≠ tokB → nextSwapId w < MAX_UINT256 →
      swaps w' = <[nextSwapId w := mkSwap sender tokA tokBOwner tokB false]> (swaps w) →
      nextSwapId w' = nextSwapId w + 1 → storage_step sender w w'
  | storage_executed swapId s :
      swaps w !! swapId = Some s → executed s = false → tokenBOwner s = sender →
      swaps w' = <[swapId := executedSwap s]> (swaps w) →
      nextSwapId w' = nextSwapId w → storage_step sender w w'
  | storage_cancelled swapId s :
      swaps w !! swapId = Some s → executed s = false → tokenAOwner s = sender →
      swaps w' = delete swapId (swaps w) →
      nextSwapId w' = nextSwapId w → storage_step sender w w'.

(** Between transactions the lock is free, identifiers below [nextSwapId]
    and from 1 on are the only ones in use, and every stored swap is between
    two different assets and has a proposer. *)
Definition consistent (w : World) : Prop :=
  entered w = false ∧ 1 ≤ nextSwapId w ∧
  ∀ swapId s, swaps w !! swapId = Some s →
    1 ≤ swapId < nextSwapId w ∧ tokenA s ≠ tokenB s ∧ tokenAOwner s ≠ zeroAddress.

End Coordinator.

(** An identifier names no swap when it was never handed out, or when the
    swap it named was cancelled. *)
Inductive no_swap (this : address) (swapId : N) (w : World) : Prop :=
  | never_created :
      reachable this w → swapId = 0 ∨ nextSwapId w ≤ swapId → no_swap this swapId w
  | was_cancelled w0 sender w1 :
      reachable this w0 → sender ≠ zeroAddress →
      cancelSwap this sender swapId w0 = Success (tt, w1) →
      steps this w1 w → no_swap this swapId w.



(** ** Escrow *)

(** The worlds a sequence of transactions sent by outside accounts leads to:
    the coordinator itself sends none (it calls the registry only from within
    its own operations). *)
Inductive outside_steps (this : address) : World → World → Prop :=
  | outside_refl w : outside_steps this w w
  | outside_next w sender c w' :
      sender ≠ zeroAddress → sender ≠ this →
      outside_steps this (next this sender c w) w' → outside_steps this w w'.

(** Asset identifiers are handed out in sequence: every asset of the registry
    has an identifier below [_nextTokenId]. *)
Definition sequential (w : World) : Prop :=
  ∀ t a, asset t w = Some a → t < _nextTokenId (pokemonCard w).

(** An asset is in escrow when the coordinator holds it and nobody is its
    operator. *)
Definition in_escrow (this : address) (t : N) (w : World) : Prop :=
  ∃ a, asset t w = Some a ∧ holder a = this ∧ operator a = None.

(** Every Pending swap has its offered asset in escrow, and no two Pending
    swaps offer the same asset. *)
Definition escrow_sound (this : address) (w : World) : Prop :=
  sequential w ∧
  (∀ swapId s, swaps w !! swapId = Some s → executed s = false →
     in_escrow this (tokenA s) w) ∧
  (∀ id1 id2 s1 s2,
     swaps w !! id1 = Some s1 → swaps w !! id2 = Some s2 →
     executed s1 = false → executed s2 = false →
     tokenA s1 = tokenA s2 → id1 = id2).

(** The worlds the system is in while it serves outside accounts, from the
    deployment of the coordinator over a registry with sequential
    identifiers. *)
Definition in_service (this : address) (w : World) : Prop :=
  ∃ r deployer, sequential (deployed r deployer) ∧
                outside_steps this (deployed r deployer) w.

(** ** A run of the system *)

(** Alice and Bob each mint a card; Alice offers card 1 for Bob's card 2. *)
Module Scenario.

Definition coordinator : address := 1000.
Definition admin : address := 9.
Definition alice : address := 11.
Definition bob : address := 12.
Definition carol : address := 13.

Definition genesis : World := deployed (mkRegistry ∅ 1 false admin) admin.

Definition minted : World :=
  next coordinator bob (Mint bob "bulbasaur")
    (next coordinator alice (Mint alice "pikachu") genesis).

(** Alice has approved the coordinator for card 1. *)
Definition authorised : World := next coordinator alice (Approve coordinator 1) minted.

(** Swap 1 is pending, card 1 is in escrow. *)
Definition offered : World := next coordinator alice (CreateSwap 1 bob 2) authorised.

(** Bob has approved the coordinator for card 2. *)
Definition approved : World := next coordinator bob (Approve coordinator 2) offered.

(** Bob has accepted swap 1. *)
Definition settled : World := next coordinator bob (AcceptSwap 1) approved.

(** Alice has withdrawn swap 1 instead. *)
Definition withdrawn : World := next coordinator alice (CancelSwap 1) offered.

(** Bob has given card 2 to Carol after the offer was made. *)
Definition moved : World := next coordinator bob (TransferFrom bob carol 2) offered.

(** The administrator has paused the coordinator after the offer was made. *)
Definition halted : World := next coordinator admin Pause offered.

End Scenario.

(** ** The facts a call emits *)

(** The facts a successful call appends to the log, read off the [emit]s of
    the entry point and of the registry operations it performs. *)
Definition emitted (this sender : address) (c : Call) (w : World) : list Fact :=
  match c with
  | CreateSwap tokA tokBOwner tokB =>
      [ AssetTransferred tokA sender this;
        SwapCreated (nextSwapId w) sender tokA tokBOwner tokB ]
  | AcceptSwap swapId =>
      let s := swapAt swapId w in
      [ AssetTransferred (tokenB s) (tokenBOwner s) this;
        AssetTransferred (tokenA s) this (tokenBOwner s);
        AssetTransferred (tokenB s) this (tokenAOwner s);
        SwapExecuted swapId (tokenAOwner s) (tokenBOwner s) ]
  | CancelSwap swapId =>
      let s := swapAt swapId w in
      [ AssetTransferred (tokenA s) this (tokenAOwner s);
        SwapCancelled swapId zeroAddress ]
  | Mint to uri => [ AssetCreated (_nextTokenId (pokemonCard w)) to uri ]
  | TransferFrom from to tokenId => [ AssetTransferred tokenId from to ]
  | Pause | Unpause | Approve _ _ | CardPause | CardUnpause => []
  end.

(** ** The card registry, from its construction on *)

(** [PokemonCard.nextTokenId] *)
Definition nextTokenId : M N := gets (λ w, _nextTokenId (pokemonCard w)).

(** Modelled from the spec: [PokemonCard.tokenURI] forwards to the imported
    ERC721URIStorage, which is not in the repository.  It reads the metadata
    reference attached to the asset at creation, and fails for an identifier
    that was never created, as [ownerOf] does. *)
Definition tokenURI (tokenId : N) : M string := λ w,
  match asset tokenId w with
  | Some a => Success (metadata a, w)
  | None => Revert UnknownAsset
  end.

(** The registry as the constructor of PokemonCard leaves it: no card,
    [_nextTokenId = 1], not paused, owned by the account that deployed it. *)
Definition newRegistry (admin : address) : Registry := mkRegistry ∅ 1 false admin.

(** The worlds reached from the deployment of the coordinator over a newly
    constructed registry. *)
Definition launched (this : address) (w : World) : Prop :=
  ∃ admin deployer, steps this (deployed (newRegistry admin) deployer) w.

(** What a call other than [mint] does to one asset of the registry: nothing,
    or a change of its holder and operator. *)
Inductive asset_step : option Asset → option Asset → Prop :=
  | asset_same o : asset_step o o
  | asset_handed a h op : asset_step (Some a) (Some (mkAsset h op (metadata a))).

Definition is_mint (c : Call) : bool := if c is Mint _ _ then true else false.

(** The identifiers in use are exactly those from 1 up to [_nextTokenId]. *)
Definition dense (w : World) : Prop :=
  1 ≤ _nextTokenId (pokemonCard w) ∧
  ∀ t, is_Some (asset t w) ↔ 1 ≤ t < _nextTokenId (pokemonCard w).

(** ** Pausing the registry *)

(** The world with the registry's pause flag set to [b]. *)
Definition setCreationPaused (b : bool) (w : World) : World :=
  set_pokemonCard (set_creationPaused b (pokemonCard w)) w.

(** A computation that neither reads nor writes the registry's pause flag:
    it runs the same way whatever the flag is, and leaves the flag alone. *)
Definition flag_blind {A : Type} (m : M A) : Prop :=
  ∀ b w, m (setCreationPaused b w) =
         match m w with
         | Success (a, w') => Success (a, setCreationPaused b w')
         | Revert e => Revert e
         end.

(** * The web client *)

(** ** JavaScript values *)

(** [Number(x)] for a [bigint] [x] that is not negative: the nearest double,
    ties to even.  A double has 53 significant bits, so integers up to [2^53]
    are kept as they are and larger ones are rounded. *)
Definition Number (n : N) : N :=
  let bits := N.size n in
  if bits <=? 53 then n
  else
    let sh := bits - 53 in
    let q := N.shiftr n sh in
    let r := N.land n (N.ones sh) in
    let half := N.shiftl 1 (sh - 1) in
    let q' := if (half <? r) || ((r =? half) && N.odd q) then q + 1 else q in
    N.shiftl q' sh.

(** [Map<number, V>]: the entries in insertion order, one for each key.
    [get] gives the value of a key, if it has one. *)
Fixpoint mapGet {V : Type} (k : N) (m : list (N * V)) : option V :=
  match m with
  | [] => None
  | (k', v) :: m' => if k' =? k then Some v else mapGet k m'
  end.

(** [set] replaces the value of a key that is present, where it stands, and
    adds a new key at the end. *)
Fixpoint mapSet {V : Type} (k : N) (v : V) (m : list (N * V)) : list (N * V) :=
  match m with
  | [] => [(k, v)]
  | (k', v') :: m' => if k' =? k then (k, v) :: m' else (k', v') :: mapSet k v m'
  end.

(** [delete] removes the entry of a key. *)
Definition mapDelete {V : Type} (k : N) (m : list (N * V)) : list (N * V) :=
  filter (λ kv, kv.1 ≠ k) m.

(** [Array.from(map.values())] *)
Definition mapValues {V : Type} (m : list (N * V)) : list V := m.*2.

(** The types of the client (src/types). *)
Module UI.

Record Token : Type := mkToken {
  tokenId : N;
  owner : address;
  uri : string;
}.

Record Swap : Type := mkSwap {
  swapId : N;
  offerer : address;
  counterparty : address;
  tokenAId : N;
  tokenBId : N;
  executed : bool;
}.

End UI.

(** ** The swaps of a user (useSwaps) *)

(** The arguments of the logged events of each kind, oldest first:
    [queryFilter] of the three event filters. *)
Definition queryCreated (log : list Fact) : list (N * address * N * address * N) :=
  omap (λ f, if f is SwapCreated swapId ao ta bo tb then Some (swapId, ao, ta, bo, tb) else None)
       log.

Definition queryExecuted (log : list Fact) : list N :=
  omap (λ f, if f is SwapExecuted swapId _ _ then Some swapId else None) log.

Definition queryCancelled (log : list Fact) : list N :=
  omap (λ f, if f is SwapCancelled swapId _ then Some swapId else None) log.

(** [tokenAOwner.toLowerCase() === userAddress.toLowerCase() || ...]: two
    spellings of an address are equal up to case when they are the same
    account. *)
Definition involves (userAddress : address) (tokenAOwner tokenBOwner : address) : bool :=
  bool_decide (tokenAOwner = userAddress) || bool_decide (tokenBOwner = userAddress).

Definition userInvolved (userAddress : address) (e : N * address * N * address * N) : bool :=
  let '(_, tokenAOwner, _, tokenBOwner, _) := e in
  involves userAddress tokenAOwner tokenBOwner.

(** The entry built from the arguments of a SwapCreated event. *)
Definition newSwap (e : N * address * N * address * N) : UI.Swap :=
  let '(swapId, tokenAOwner, tokenA, tokenBOwner, tokenB) := e in
  UI.mkSwap (Number swapId) tokenAOwner tokenBOwner (Number tokenA) (Number tokenB) false.

(** [{ ...swap, executed: true }], and [swap.executed = true] on the object
    held by the map. *)
Definition setExecuted (swap : UI.Swap) : UI.Swap :=
  UI.mkSwap (UI.swapId swap) (UI.offerer swap) (UI.counterparty swap)
    (UI.tokenAId swap) (UI.tokenBId swap) true.

(** [fetchSwaps], given the events the provider returns for the queried
    blocks: the created swaps that involve the user go into a map, those
    executed are marked, those cancelled are removed. *)
Definition fetchSwaps (userAddress : option address) (log : list Fact) : list UI.Swap :=
  match userAddress with
  | None => []
  | Some user =>
      let userCreatedEvents :=
        filter (λ e, userInvolved user e = true) (queryCreated log) in
      let swapMap :=
        foldl (λ m e, let '(swapId, _, _, _, _) := e in mapSet (Number swapId) (newSwap e) m)
              [] userCreatedEvents in
      let swapMap :=
        foldl (λ m swapId,
                 match mapGet (Number swapId) m with
                 | Some swap => mapSet (Number swapId) (setExecuted swap) m
                 | None => m
                 end) swapMap (queryExecuted log) in
      let swapMap :=
        foldl (λ m swapId, mapDelete (Number swapId) m) swapMap (queryCancelled log) in
      mapValues swapMap
  end.

(** The listeners that keep the list up to date after the fetch. *)
Definition handleSwapCreated (user : address) (e : N * address * N * address * N)
    (prev : list UI.Swap) : list UI.Swap :=
  let '(swapId, tokenAOwner, _, tokenBOwner, _) := e in
  if involves user tokenAOwner tokenBOwner then
    if existsb (λ swap, UI.swapId swap =? Number swapId) prev then prev
    else prev ++ [newSwap e]
  else prev.

Definition handleSwapExecuted (swapId : N) (prev : list UI.Swap) : list UI.Swap :=
  (λ swap, if UI.swapId swap =? Number swapId then setExecuted swap else swap) <$> prev.

Definition handleSwapCancelled (swapId : N) (prev : list UI.Swap) : list UI.Swap :=
  filter (λ swap, UI.swapId swap ≠ Number swapId) prev.

(** The listener an event is delivered to. *)
Definition handle (user : address) (prev : list UI.Swap) (f : Fact) : list UI.Swap :=
  match f with
  | SwapCreated swapId ao ta bo tb => handleSwapCreated user (swapId, ao, ta, bo, tb) prev
  | SwapExecuted swapId _ _ => handleSwapExecuted swapId prev
  | SwapCancelled swapId _ => handleSwapCancelled swapId prev
  | _ => prev
  end.

(** The list after the events of [log] have been delivered in order. *)
Definition delivered (user : address) (prev : list UI.Swap) (log : list Fact) : list UI.Swap :=
  foldl (handle user) prev log.

(** The swap identifiers, as the client reads them, that occur in a log. *)
Definition swapIdsOf (log : list Fact) : list N :=
  omap (λ f, match f with
             | SwapCreated swapId _ _ _ _ | SwapExecuted swapId _ _ | SwapCancelled swapId _ =>
                 Some (Number swapId)
             | _ => None
             end) log.

(** A log in which every SwapCreated event carries an identifier that no
    earlier swap event carries. *)
Inductive fresh_log : list Fact → Prop :=
  | fresh_nil : fresh_log []
  | fresh_snoc log f :
      fresh_log log →
      (∀ swapId ao ta bo tb, f = SwapCreated swapId ao ta bo tb →
                             Number swapId ∉ swapIdsOf log) →
      fresh_log (log ++ [f]).

(** What the coordinator's storage holds for a user, as the client would
    show it: the swaps stored under the identifiers from 1 up to
    [nextSwapId] in which the user is proposer or counterparty. *)
Definition entryOf (swapId : N) (s : Swap) : UI.Swap :=
  UI.mkSwap (Number swapId) (tokenAOwner s) (tokenBOwner s)
    (Number (tokenA s)) (Number (tokenB s)) (executed s).

Definition idsBelow (n : N) : list N := N.of_nat <$> seq 1 (N.to_nat n - 1).

Definition storedEntry (user : address) (m : gmap N Swap) (swapId : N) : option UI.Swap :=
  s ← m !! swapId;
  if involves user (tokenAOwner s) (tokenBOwner s) then Some (entryOf swapId s) else None.

Definition storedSwapsOf (user : address) (w : World) : list UI.Swap :=
  omap (storedEntry user (swaps w)) (idsBelow (nextSwapId w)).

(** *** The map of swaps, by its values *)

(** A map whose keys are the identifiers of its values. *)
Definition keyed (vs : list UI.Swap) : list (N * UI.Swap) := (λ s, (UI.swapId s, s)) <$> vs.

Definition markAt (k : N) (vs : list UI.Swap) : list UI.Swap :=
  (λ swap, if UI.swapId swap =? k then setExecuted swap else swap) <$> vs.

Definition dropAt (k : N) (vs : list UI.Swap) : list UI.Swap :=
  filter (λ swap, UI.swapId swap ≠ k) vs.

(** The three phases of [fetchSwaps] on the values of the map. *)
Definition marks (ks : list N) (vs : list UI.Swap) : list UI.Swap :=
  foldl (λ vs k, markAt k vs) vs ks.

Definition drops (ks : list N) (vs : list UI.Swap) : list UI.Swap :=
  foldl (λ vs k, dropAt k vs) vs ks.

Definition userCreated (user : address) (log : list Fact) : list UI.Swap :=
  newSwap <$> filter (λ e, userInvolved user e = true) (queryCreated log).

Definition phases (user : address) (log : list Fact) : list UI.Swap :=
  drops (Number <$> queryCancelled log)
    (marks (Number <$> queryExecuted log) (userCreated user log)).

(** *** What a transaction does to the swaps and to the log at once *)

(** A fact of the registry, which the swap listeners ignore. *)
Definition quiet (f : Fact) : Prop :=
  match f with
  | AssetCreated _ _ _ | AssetTransferred _ _ _ => True
  | _ => False
  end.

Inductive swap_effect (this sender : address) (w w' : World) : Prop :=
  | effect_none q :
      Forall quiet q → facts w' = facts w ++ q →
      swaps w' = swaps w → nextSwapId w' = nextSwapId w → swap_effect this sender w w'
  | effect_created q tokA tokBOwner tokB :
      q = [AssetTransferred tokA sender this] →
      facts w' = facts w ++ q ++ [SwapCreated (nextSwapId w) sender tokA tokBOwner tokB] →
      swaps w' = <[nextSwapId w := mkSwap sender tokA tokBOwner tokB false]> (swaps w) →
      nextSwapId w' = nextSwapId w + 1 → swap_effect this sender w w'
  | effect_executed q swapId s :
      Forall quiet q → swaps w !! swapId = Some s →
      facts w' = facts w ++ q ++ [SwapExecuted swapId (tokenAOwner s) (tokenBOwner s)] →
      swaps w' = <[swapId := executedSwap s]> (swaps w) →
      nextSwapId w' = nextSwapId w → swap_effect this sender w w'
  | effect_cancelled q swapId s :
      Forall quiet q → swaps w !! swapId = Some s →
      facts w' = facts w ++ q ++ [SwapCancelled swapId zeroAddress] →
      swaps w' = delete swapId (swaps w) →
      nextSwapId w' = nextSwapId w → swap_effect this sender w w'.

(** *** Listening agrees with the coordinator's storage *)

(** The listeners have kept the list equal to what the storage holds. *)
Definition in_step (user : address) (w : World) : Prop :=
  fresh_log (facts w) ∧
  (∀ k, k ∈ swapIdsOf (facts w) → k < nextSwapId w) ∧
  delivered user [] (facts w) = storedSwapsOf user w.

(** ** Calling the contracts (lib/contracts and the actions of useSwaps) *)

(** [isTokenApprovedForSwap]: the card is owned by the user and the
    coordinator is its approved operator; a read that fails gives [false]. *)
Definition isTokenApprovedForSwap (this user : address) (tokenId : N) (w : World) : bool :=
  match ownerOf tokenId w with
  | Success (tokenOwner, _) =>
      if bool_decide (tokenOwner ≠ user) then false
      else match getApproved tokenId w with
           | Success (approvedAddress, _) => bool_decide (approvedAddress = Some this)
           | Revert _ => false
           end
  | Revert _ => false
  end.

(** [approveTokenForSwap]: [approve(POKEMON_SWAP, tokenId)] on the registry. *)
Definition approveTokenForSwap (this : address) (tokenId : N) : Call := Approve this tokenId.

(** The actions [createSwap] and [acceptSwap] of the useSwaps hook, run by
    the connected account [signer]: the outcomes of the transactions sent,
    in order, and the world they leave.  A transaction that fails ends the
    action. *)
Module UseSwaps.

Definition createSwap (this signer : address) (tokenAId : N) (counterparty : address)
    (tokenBId : N) (w : World) : list Outcome * World :=
  if isTokenApprovedForSwap this signer tokenAId w then
    let tx := transact this signer (CreateSwap tokenAId counterparty tokenBId) w in
    ([tx.1], tx.2)
  else ([], w).

Definition acceptSwap (this signer : address) (swapId : N) (w : World)
    : list Outcome * World :=
  let swap := swapAt swapId w in
  if isTokenApprovedForSwap this signer (Number (tokenB swap)) w then
    let tx := transact this signer (AcceptSwap swapId) w in
    ([tx.1], tx.2)
  else
    let approveTx := transact this signer (approveTokenForSwap this (Number (tokenB swap))) w in
    match approveTx.1 with
    | Failed _ => ([approveTx.1], approveTx.2)
    | Returned _ =>
        let tx := transact this signer (AcceptSwap swapId) approveTx.2 in
        ([approveTx.1; tx.1], tx.2)
    end.

End UseSwaps.

(** ** The cards of a user (useTokens) *)

(** The arguments of a Transfer event of the registry. *)
Module Transfer.

Record args : Type := mk {
  from : address;
  to : address;
  tokenId : N;
}.

End Transfer.

(** Modelled from the spec: the Transfer events of the imported ERC721, read
    off the registry's facts.  A creation is logged as a transfer from the
    zero account. *)
Definition transferEvents (log : list Fact) : list Transfer.args :=
  omap (λ f, match f with
             | AssetCreated id holder _ => Some (Transfer.mk zeroAddress holder id)
             | AssetTransferred id from to => Some (Transfer.mk from to id)
             | _ => None
             end) log.

(** [fetchTokens], given the events the provider returns for the queried
    blocks and the registry to read the metadata from: the cards received go
    into a map (a card whose metadata cannot be read is skipped), then the
    cards sent away are removed. *)
Definition fetchTokens (ownerAddress : option address) (log : list Fact) (w : World)
    : list UI.Token :=
  match ownerAddress with
  | None => []
  | Some owner =>
      let receivedEvents := filter (λ e, Transfer.to e = owner) (transferEvents log) in
      let sentEvents := filter (λ e, Transfer.from e = owner) (transferEvents log) in
      let tokenMap :=
        foldl (λ m e,
                 match tokenURI (Transfer.tokenId e) w with
                 | Success (uri, _) =>
                     mapSet (Number (Transfer.tokenId e))
                       (UI.mkToken (Number (Transfer.tokenId e)) owner uri) m
                 | Revert _ => m
                 end) [] receivedEvents in
      let tokenMap :=
        foldl (λ m e, mapDelete (Number (Transfer.tokenId e)) m) tokenMap sentEvents in
      mapValues tokenMap
  end.

(** *** The map of cards *)

(** The two phases of [fetchTokens]. *)
Definition receivedMap (owner : address) (w : World) (es : list Transfer.args)
    (m : list (N * UI.Token)) : list (N * UI.Token) :=
  foldl (λ m e,
           match tokenURI (Transfer.tokenId e) w with
           | Success (uri, _) =>
               mapSet (Number (Transfer.tokenId e))
                 (UI.mkToken (Number (Transfer.tokenId e)) owner uri) m
           | Revert _ => m
           end) m es.

Definition sentMap (es : list Transfer.args) (m : list (N * UI.Token)) : list (N * UI.Token) :=
  foldl (λ m e, mapDelete (Number (Transfer.tokenId e)) m) m es.

(** *** The log of transfers and the registry *)

(** The transfers logged account for the holder of every card: each card was
    last received by its holder, and an account that received a card and
    does not hold it has sent it on. *)
Definition accounted (m : gmap N Asset) (T : list Transfer.args) : Prop :=
  (∀ t a, m !! t = Some a →
          ∃ e, e ∈ T ∧ Transfer.to e = holder a ∧ Transfer.tokenId e = t) ∧
  (∀ e, e ∈ T →
        ∃ a, m !! Transfer.tokenId e = Some a ∧
             (Transfer.to e = holder a ∨
              ∃ e', e' ∈ T ∧ Transfer.from e' = Transfer.to e ∧
                    Transfer.tokenId e' = Transfer.tokenId e)).

Definition cards_logged (w : World) : Prop :=
  accounted (assets (pokemonCard w)) (transferEvents (facts w)).


(** * Properties *)

(** ** Reasoning about calls *)

Lemma bind_Success {A B : Type} (m : M A) (f : A → M B) (w w' : World) (b : B) :
  (m ≫= f) w = Success (b, w') ↔
  ∃ a w1, m w = Success (a, w1) ∧ f a w1 = Success (b, w').
Proof.
  unfold mbind, M_bind. split.
  - destruct (m w) as [[a w1]|e]; [|discriminate]. intros H. by exists a, w1.
  - intros (a & w1 & -> & H). exact H.
Qed.

Lemma bind_Revert {A B : Type} (m : M A) (f : A → M B) (w : World) (e : error) :
  (m ≫= f) w = Revert e ↔
  m w = Revert e ∨ ∃ a w1, m w = Success (a, w1) ∧ f a w1 = Revert e.
Proof.
  unfold mbind, M_bind. split.
  - destruct (m w) as [[a w1]|e']; intros H; [right; by exists a, w1 | left; by simplify_eq].
  - intros [H | (a & w1 & H1 & H)]; [by rewrite H | by rewrite H1].
Qed.

Lemma ret_Success {A : Type} (a b : A) (w w' : World) :
  mret (M := M) a w = Success (b, w') ↔ a = b ∧ w = w'.
Proof. unfold mret, M_ret. split; [by intros [= -> ->] | by intros [-> ->]]. Qed.

Lemma gets_Success {A : Type} (f : World → A) (w w' : World) (a : A) :
  gets f w = Success (a, w') ↔ a = f w ∧ w' = w.
Proof. unfold gets. split; [by intros [= <- <-] | by intros [-> ->]]. Qed.

Lemma modify_Success (f : World → World) (w w' : World) (u : unit) :
  modify f w = Success (u, w') ↔ w' = f w.
Proof. unfold modify. destruct u. split; [by intros [= <-] | by intros ->]. Qed.

Lemma require_Success (c : bool) (e : error) (w w' : World) (u : unit) :
  require c e w = Success (u, w') ↔ c = true ∧ w' = w.
Proof.
  unfold require, revert, mret, M_ret. destruct u, c; split;
    first [by intros [= ->] | by intros [_ ->] | by intros [[=] _] | done].
Qed.

Lemma require_Revert (c : bool) (e e' : error) (w : World) :
  require c e w = Revert e' ↔ c = false ∧ e' = e.
Proof.
  unfold require, revert, mret, M_ret. destruct c; split;
    first [by intros [= ->] | by intros [_ ->] | by intros [[=] _] | done].
Qed.

Lemma emit_Success (f : Fact) (w w' : World) (u : unit) :
  emit f w = Success (u, w') ↔ w' = set_facts (facts w ++ [f]) w.
Proof. exact (modify_Success _ w w' u). Qed.

Lemma read_Success {A : Type} (swapId : N) (field : Swap → A) (w w' : World) (a : A) :
  read swapId field w = Success (a, w') ↔ a = field (swapAt swapId w) ∧ w' = w.
Proof. exact (gets_Success _ w w' a). Qed.

Lemma ownerOf_Success tokenId w w' h :
  ownerOf tokenId w = Success (h, w') ↔
  ∃ a, asset tokenId w = Some a ∧ h = holder a ∧ w' = w.
Proof.
  unfold ownerOf. destruct (asset tokenId w) as [x|]; split.
  - intros [= <- <-]. by exists x.
  - by intros (? & [= <-] & -> & ->).
  - done.
  - by intros (? & [=] & _).
Qed.

Lemma getApproved_Success tokenId w w' op :
  getApproved tokenId w = Success (op, w') ↔
  op = asset tokenId w ≫= operator ∧ w' = w.
Proof. exact (gets_Success _ w w' op). Qed.

(** Breaks a hypothesis stating that a sequence of steps succeeded into one
    hypothesis per step. *)
Ltac inv_success :=
  repeat match goal with
  | H : (_ ≫= _) _ = Success _ |- _ =>
      let x := fresh "x" in let w := fresh "w" in
      let H1 := fresh "H" in let H2 := fresh "H" in
      apply bind_Success in H; destruct H as (x & w & H1 & H2)
  | H : mret _ _ = Success _ |- _ => apply ret_Success in H; destruct H as [? ?]; subst
  | H : ownerOf _ _ = Success _ |- _ =>
      let x := fresh "x" in let H1 := fresh "H" in
      apply ownerOf_Success in H; destruct H as (x & H1 & ? & ?); subst
  | H : getApproved _ _ = Success _ |- _ =>
      apply getApproved_Success in H; destruct H as [? ?]; subst
  | H : read _ _ _ = Success _ |- _ => apply read_Success in H; destruct H as [? ?]; subst
  | H : gets _ _ = Success _ |- _ => apply gets_Success in H; destruct H as [? ?]; subst
  | H : emit _ _ = Success _ |- _ => apply emit_Success in H; subst
  | H : modify _ _ = Success _ |- _ => apply modify_Success in H; subst
  | H : require _ _ _ = Success _ |- _ => apply require_Success in H; destruct H as [H ?]; subst
  | H : negb _ = true |- _ => apply negb_true_iff in H
  | H : bool_decide _ = true |- _ => apply bool_decide_eq_true in H
  | u : unit |- _ => destruct u
  end.

(** *** The registry *)

Lemma transferFrom_Success sender from to tokenId w w' u :
  transferFrom sender from to tokenId w = Success (u, w') ↔
  ∃ a, asset tokenId w = Some a ∧ holder a = from ∧
       (sender = from ∨ operator a = Some sender) ∧
       w' = transferred from to tokenId a w.
Proof.
  unfold transferFrom. split.
  - intros H. inv_success.
    match goal with Ha : asset tokenId w = Some ?a |- _ => exists a; rewrite Ha in * end.
    simpl in *. split_and!; try done.
    match goal with Hor : orb _ _ = true |- _ =>
      apply orb_true_iff in Hor as [Hor|Hor]; apply bool_decide_eq_true in Hor; eauto
    end.
  - intros (a & Ha & Hh & Hauth & ->). destruct u.
    unfold ownerOf, getApproved, mbind, M_bind, gets, require, emit, modify, mret, M_ret,
      revert, transferred.
    rewrite Ha. simpl.
    rewrite (bool_decide_eq_true_2 _ (eq_sym Hh)). simpl. rewrite Ha. simpl.
    assert ((bool_decide (sender = from) || bool_decide (operator a = Some sender)) = true) as ->.
    { apply orb_true_iff. destruct Hauth as [Hs|Hs]; [left|right]; by apply bool_decide_eq_true. }
    by rewrite Ha.
Qed.

Lemma transferFrom_Revert sender from to tokenId w e :
  transferFrom sender from to tokenId w = Revert e ↔
  match asset tokenId w with
  | None => e = UnknownAsset
  | Some a =>
      if bool_decide (from = holder a) then
        e = NotAuthorized ∧ sender ≠ from ∧ operator a ≠ Some sender
      else e = NotHolder
  end.
Proof.
  unfold transferFrom, getApproved, ownerOf, mbind, M_bind, gets, require, emit, modify,
    mret, M_ret, revert.
  destruct (asset tokenId w) as [a|] eqn:Ha; simpl.
  2:{ split; [by intros [= <-] | by intros ->]. }
  case_bool_decide as Hh; simpl.
  2:{ split; [by intros [= <-] | by intros ->]. }
  rewrite Ha; simpl.
  destruct (bool_decide (sender = from)) eqn:H1; simpl.
  { apply bool_decide_eq_true in H1. split; [done | by intros (_ & ? & _)]. }
  destruct (bool_decide (operator a = Some sender)) eqn:H2; simpl.
  { apply bool_decide_eq_true in H2. split; [done | by intros (_ & _ & ?)]. }
  apply bool_decide_eq_false in H1, H2.
  split; [by intros [= <-] | by intros (-> & _)].
Qed.

Lemma asset_transferred from to tokenId a w t :
  asset t (transferred from to tokenId a w) =
  if decide (tokenId = t) then Some (mkAsset to None (metadata a)) else asset t w.
Proof. unfold asset, transferred. simpl. apply lookup_insert. Qed.

(** *** The modifiers *)

Lemma whenNotPaused_Success {A : Type} (body : M A) w w' a :
  whenNotPaused body w = Success (a, w') ↔ paused w = false ∧ body w = Success (a, w').
Proof.
  unfold whenNotPaused. split.
  - intros H. inv_success. done.
  - intros [Hp H]. unfold mbind, M_bind, gets, require. rewrite Hp. exact H.
Qed.

Lemma whenNotPaused_paused {A : Type} (body : M A) w :
  paused w = true → whenNotPaused body w = Revert SystemPaused.
Proof. intros Hp. unfold whenNotPaused, mbind, M_bind, gets, require. by rewrite Hp. Qed.

Lemma whenNotPaused_running {A : Type} (body : M A) w :
  paused w = false → whenNotPaused body w = body w.
Proof. intros Hp. unfold whenNotPaused, mbind, M_bind, gets, require. by rewrite Hp. Qed.

Lemma nonReentrant_Success {A : Type} (body : M A) w w' a :
  nonReentrant body w = Success (a, w') ↔
  entered w = false ∧
  ∃ w1, body (set_entered true w) = Success (a, w1) ∧ w' = set_entered false w1.
Proof.
  unfold nonReentrant. split.
  - intros H. inv_success. eauto.
  - intros (He & w1 & H & ->).
    unfold mbind, M_bind, gets, require, modify, mret, M_ret. rewrite He. simpl.
    by rewrite H.
Qed.

Lemma nonReentrant_entered {A : Type} (body : M A) w :
  entered w = true → nonReentrant body w = Revert ReentrantCall.
Proof. intros He. unfold nonReentrant, mbind, M_bind, gets, require. by rewrite He. Qed.

Lemma nonReentrant_Revert {A : Type} (body : M A) w e :
  entered w = false →
  nonReentrant body w = Revert e ↔ body (set_entered true w) = Revert e.
Proof.
  intros He. unfold nonReentrant, mbind, M_bind, gets, require, modify, mret, M_ret.
  rewrite He. simpl. by destruct (body (set_entered true w)) as [[? ?]|?].
Qed.

(** *** Reading a world after an update *)

Lemma swapAt_set_entered swapId b w : swapAt swapId (set_entered b w) = swapAt swapId w.
Proof. reflexivity. Qed.

Lemma swapAt_set_facts swapId l w : swapAt swapId (set_facts l w) = swapAt swapId w.
Proof. reflexivity. Qed.

Lemma swapAt_transferred swapId from to tokenId a w :
  swapAt swapId (transferred from to tokenId a w) = swapAt swapId w.
Proof. reflexivity. Qed.

Lemma swapAt_set_swaps_insert swapId s m w : swapAt swapId (set_swaps (<[swapId := s]> m) w) = s.
Proof. unfold swapAt. simpl. by rewrite lookup_insert_eq. Qed.

Lemma swapAt_set_swaps_delete swapId m w : swapAt swapId (set_swaps (delete swapId m) w) = zeroSwap.
Proof. unfold swapAt. simpl. by rewrite lookup_delete_eq. Qed.

Lemma asset_set_entered t b w : asset t (set_entered b w) = asset t w.
Proof. reflexivity. Qed.

Lemma asset_set_facts t l w : asset t (set_facts l w) = asset t w.
Proof. reflexivity. Qed.

Lemma asset_set_swaps t m w : asset t (set_swaps m w) = asset t w.
Proof. reflexivity. Qed.

Lemma asset_set_nextSwapId t n w : asset t (set_nextSwapId n w) = asset t w.
Proof. reflexivity. Qed.

Lemma asset_set_paused t b w : asset t (set_paused b w) = asset t w.
Proof. reflexivity. Qed.

Lemma asset_set_asset t t' a w :
  asset t (set_asset t' a w) = if decide (t' = t) then Some a else asset t w.
Proof. unfold asset, set_asset. simpl. apply lookup_insert. Qed.

Lemma markExecuted_Success swapId w w' u :
  markExecuted swapId w = Success (u, w') ↔
  w' = set_swaps (<[swapId := mkSwap (tokenAOwner (swapAt swapId w)) (tokenA (swapAt swapId w))
                                     (tokenBOwner (swapAt swapId w)) (tokenB (swapAt swapId w))
                                     true]> (swaps w)) w.
Proof. exact (modify_Success _ w w' u). Qed.

Create Rewrite HintDb world.
#[global] Hint Rewrite swapAt_set_entered swapAt_set_facts swapAt_transferred
  swapAt_set_swaps_insert swapAt_set_swaps_delete
  asset_set_entered asset_set_facts asset_set_swaps asset_set_nextSwapId asset_set_paused
  : world.

(** Replaces the successful transfers among the hypotheses by the worlds
    they leave. *)
Ltac inv_transfers :=
  autorewrite with world in *;
  repeat match goal with
  | H : transferFrom _ _ _ _ _ = Success _ |- _ =>
      apply transferFrom_Success in H; destruct H as (? & ? & ? & ? & ->);
      autorewrite with world in *
  | H : markExecuted _ _ = Success _ |- _ =>
      apply markExecuted_Success in H; subst; autorewrite with world in *
  end.

Lemma postIncrementNextSwapId_Success w w' n :
  postIncrementNextSwapId w = Success (n, w') ↔
  nextSwapId w < MAX_UINT256 ∧ n = nextSwapId w ∧ w' = set_nextSwapId (n + 1) w.
Proof.
  unfold postIncrementNextSwapId. split.
  - intros H. inv_success. done.
  - intros (Hlt & -> & ->).
    unfold mbind, M_bind, gets, require, modify, mret, M_ret.
    by rewrite bool_decide_eq_true_2.
Qed.

(** Runs a sequence of steps forward, leaving the conditions of its
    [require]s and transfers as goals. *)
Ltac run_steps :=
  repeat (apply bind_Success; eexists _, _; split;
          [first [ by apply read_Success | by apply getApproved_Success
                 | by apply gets_Success
                 | apply ownerOf_Success; eexists; split_and!; [|reflexivity|reflexivity]
                 | apply require_Success; split; [|reflexivity]
                 | apply transferFrom_Success; eexists; split_and!; [| | |reflexivity]
                 | by apply markExecuted_Success
                 | apply postIncrementNextSwapId_Success; split_and!; [|reflexivity|reflexivity]
                 | by apply modify_Success
                 | by apply emit_Success ]|]).

(** Unfolds the body of a swap operation down to its checks. *)
Ltac unfold_call :=
  unfold acceptSwapBody, acceptSwapBodyVia, cancelSwapBody, cancelSwapBodyVia,
    createSwapBody, read, getApproved,
    mbind, M_bind, gets, require, revert, mret, M_ret;
  autorewrite with world.

(** *** The coordinator *)

Section CoordinatorFacts.

Variable this : address.

Lemma acceptSwap_Success sender swapId w w' u :
  acceptSwap this sender swapId w = Success (u, w') ↔
  let s := swapAt swapId w in
  paused w = false ∧ entered w = false ∧ executed s = false ∧ sender = tokenBOwner s ∧
  ∃ aB aA aB',
    let w1 := transferred (tokenBOwner s) this (tokenB s) aB (set_entered true w) in
    let w2 := transferred this (tokenBOwner s) (tokenA s) aA w1 in
    asset (tokenB s) w = Some aB ∧ holder aB = sender ∧ operator aB = Some this ∧
    asset (tokenA s) w1 = Some aA ∧ holder aA = this ∧
    asset (tokenB s) w2 = Some aB' ∧ holder aB' = this ∧
    w' = accepted this swapId s aB aA aB' w.
Proof.
  unfold acceptSwap. rewrite whenNotPaused_Success, nonReentrant_Success.
  split.
  - intros (Hp & He & w1 & H & ->). unfold acceptSwapBody, acceptSwapBodyVia in H. inv_success.
    inv_transfers.
    split_and!; try done. eexists _, _, _. split_and!; try done.
    match goal with
    | H1 : asset ?t w = Some ?a, H2 : asset ?t w ≫= operator = Some _ |- operator ?a = Some _ =>
        by rewrite H1 in H2
    end.
  - intros (Hp & He & Hex & Hs & aB & aA & aB' & HB & HhB & HoB & HA & HhA & HB' & HhB' & ->).
    subst sender. destruct u.
    split; [done|]. split; [done|]. eexists. split; [|reflexivity].
    unfold acceptSwapBody, acceptSwapBodyVia.
    run_steps; autorewrite with world; rewrite ?Hex, ?HB, ?HA, ?HB'; simpl; eauto;
      try by apply bool_decide_eq_true.
    all: rewrite ?HhB; first [done | reflexivity].
    Unshelve. all: exact tt.
Qed.

Lemma createSwap_Success sender tokA tokBOwner tokB w w' swapId :
  createSwap this sender tokA tokBOwner tokB w = Success (swapId, w') ↔
  paused w = false ∧ entered w = false ∧ tokA ≠ tokB ∧
  nextSwapId w < MAX_UINT256 ∧ swapId = nextSwapId w ∧
  ∃ aA aB,
    asset tokA w = Some aA ∧ holder aA = sender ∧ operator aA = Some this ∧
    asset tokB w = Some aB ∧ holder aB = tokBOwner ∧
    w' = created this swapId sender tokA tokBOwner tokB aA w.
Proof.
  unfold createSwap. rewrite whenNotPaused_Success, nonReentrant_Success.
  split.
  - intros (Hp & He & w1 & H & ->). unfold createSwapBody in H.
    inv_success.
    match goal with
    | H : postIncrementNextSwapId _ = Success _ |- _ =>
        apply postIncrementNextSwapId_Success in H; destruct H as (? & -> & ->)
    end.
    inv_success. inv_transfers. simplify_eq.
    split_and!; try done. eexists _, _. split_and!; try done.
    match goal with
    | H1 : asset ?t w = Some ?a, H2 : asset ?t w ≫= operator = Some _ |- operator ?a = Some _ =>
        by rewrite H1 in H2
    end.
  - intros (Hp & He & Hne & Hlt & -> & aA & aB & HA & HhA & HoA & HB & HhB & ->).
    split; [done|]. split; [done|]. eexists. split; [|reflexivity].
    unfold createSwapBody.
    run_steps; autorewrite with world; rewrite ?HA, ?HB; simpl; eauto;
      try by apply bool_decide_eq_true.
    Unshelve. all: exact tt.
Qed.

Lemma cancelSwap_Success sender swapId w w' u :
  cancelSwap this sender swapId w = Success (u, w') ↔
  let s := swapAt swapId w in
  paused w = false ∧ entered w = false ∧ executed s = false ∧ sender = tokenAOwner s ∧
  ∃ aA, asset (tokenA s) w = Some aA ∧ holder aA = this ∧ w' = cancelled this swapId s aA w.
Proof.
  unfold cancelSwap. rewrite whenNotPaused_Success, nonReentrant_Success.
  split.
  - intros (Hp & He & w1 & H & ->). unfold cancelSwapBody, cancelSwapBodyVia in H.
    inv_success. inv_transfers.
    split_and!; try done. eexists. split_and!; done.
  - intros (Hp & He & Hex & -> & aA & HA & HhA & ->). destruct u.
    split; [done|]. split; [done|]. eexists. split; [|reflexivity].
    unfold cancelSwapBody, cancelSwapBodyVia.
    run_steps; autorewrite with world; rewrite ?Hex, ?HA; simpl; eauto;
      try by apply bool_decide_eq_true.
    Unshelve. all: exact tt.
Qed.

(** *** What a transaction does to the coordinator's storage *)

Lemma registry_call_frame sender c w w' v :
  registry_call c = true →
  run this sender c w = Success (v, w') →
  swaps w' = swaps w ∧ nextSwapId w' = nextSwapId w ∧ entered w' = entered w ∧
  paused w' = paused w ∧ owner w' = owner w.
Proof.
  intros Hc H. destruct c; try discriminate Hc; simpl in H.
  - unfold mint, cardWhenNotPaused, _safeMint, _setTokenURI, incrementNextTokenId in H.
    inv_success. done.
  - unfold approve in H. inv_success. done.
  - inv_success. inv_transfers. done.
  - unfold cardPause, cardOnlyOwner in H. inv_success. done.
  - unfold cardUnpause, cardOnlyOwner in H. inv_success. done.
Qed.

Lemma swapAt_Some swapId w s : swaps w !! swapId = Some s → swapAt swapId w = s.
Proof. unfold swapAt. by intros ->. Qed.

Lemma swapAt_None swapId w : swaps w !! swapId = None → swapAt swapId w = zeroSwap.
Proof. unfold swapAt. by intros ->. Qed.

Lemma swapAt_lookup swapId w :
  swapAt swapId w ≠ zeroSwap → swaps w !! swapId = Some (swapAt swapId w).
Proof. unfold swapAt. by destruct (swaps w !! swapId). Qed.

Lemma next_storage_step sender c w :
  sender ≠ zeroAddress →
  storage_step sender w (next this sender c w) ∧
  (entered w = false → entered (next this sender c w) = false).
Proof.
  intros Hs. unfold next, transact.
  destruct (run this sender c w) as [[v w']|e] eqn:E; simpl; [|split; [by constructor|done]].
  destruct (registry_call c) eqn:Hc.
  { destruct (registry_call_frame _ _ _ _ _ Hc E) as (? & ? & He & _).
    split; [by constructor | by rewrite He]. }
  destruct c; try discriminate Hc; simpl in E; inv_success.
  - match goal with H : createSwap _ _ _ _ _ _ = _ |- _ =>
      apply createSwap_Success in H;
      destruct H as (_ & _ & Hne & Hlt & -> & aA & aB & _ & _ & _ & _ & _ & ->) end.
    split; [|done]. by eapply storage_created.
  - match goal with H : acceptSwap _ _ _ _ = _ |- _ =>
      apply acceptSwap_Success in H;
      destruct H as (_ & _ & Hex & -> & aB & aA & aB' & _ & _ & _ & _ & _ & _ & _ & ->) end.
    split; [|done]. eapply storage_executed; try done.
    apply swapAt_lookup. intros Hz. by rewrite Hz in Hs.
  - match goal with H : cancelSwap _ _ _ _ = _ |- _ =>
      apply cancelSwap_Success in H;
      destruct H as (_ & _ & Hex & -> & aA & _ & _ & ->) end.
    split; [|done]. eapply storage_cancelled; try done.
    apply swapAt_lookup. intros Hz. by rewrite Hz in Hs.
  - unfold pause, onlyOwner in *. inv_success. split; [by constructor|done].
  - unfold unpause, onlyOwner in *. inv_success. split; [by constructor|done].
Qed.

(** *** The invariant of the coordinator's storage *)

Lemma consistent_deployed r deployer : consistent (deployed r deployer).
Proof. split_and!; [done|done|]. intros swapId s H. simpl in H. by rewrite lookup_empty in H. Qed.

Lemma consistent_next sender c w :
  sender ≠ zeroAddress → consistent w → consistent (next this sender c w).
Proof.
  intros Hs (He & Hn & Hall).
  destruct (next_storage_step sender c w Hs) as [Hstep Hent].
  split; [by apply Hent|].
  destruct Hstep as [Hsw Hnx | tokA tokBOwner tokB Hne Hlt Hsw Hnx
                    | swapId s Hl Hex Hb Hsw Hnx | swapId s Hl Hex Ha Hsw Hnx];
    rewrite Hsw, Hnx; (split; [lia|]); intros i s' Hi.
  - by apply Hall.
  - destruct (decide (nextSwapId w = i)) as [<-|Hi'].
    + rewrite lookup_insert_eq in Hi. simplify_eq. simpl. split_and!; [lia|lia|done|done].
    + rewrite lookup_insert_ne in Hi by done. apply Hall in Hi. split_and!; [lia|lia|tauto|tauto].
  - destruct (decide (swapId = i)) as [<-|Hi'].
    + rewrite lookup_insert_eq in Hi. simplify_eq. by apply Hall in Hl.
    + rewrite lookup_insert_ne in Hi by done. by apply Hall.
  - destruct (decide (swapId = i)) as [<-|Hi'].
    + by rewrite lookup_delete_eq in Hi.
    + rewrite lookup_delete_ne in Hi by done. by apply Hall.
Qed.

Lemma consistent_steps w w' : steps this w w' → consistent w → consistent w'.
Proof. induction 1 as [|w sender c w' Hs _ IH]; [done|]. intros H. by apply IH, consistent_next. Qed.

Lemma consistent_reachable w : reachable this w → consistent w.
Proof. intros (r & d & H). eapply consistent_steps; [done|]. apply consistent_deployed. Qed.

(** *** Calls that must fail *)

Lemma acceptSwap_not_pending sender swapId w :
  paused w = false → entered w = false → executed (swapAt swapId w) = true →
  acceptSwap this sender swapId w = Revert SwapNotPending.
Proof.
  intros Hp He Hex. unfold acceptSwap. rewrite whenNotPaused_running by done.
  apply nonReentrant_Revert; [done|]. unfold_call. by rewrite Hex.
Qed.

Lemma cancelSwap_not_pending sender swapId w :
  paused w = false → entered w = false → executed (swapAt swapId w) = true →
  cancelSwap this sender swapId w = Revert SwapNotPending.
Proof.
  intros Hp He Hex. unfold cancelSwap. rewrite whenNotPaused_running by done.
  apply nonReentrant_Revert; [done|]. unfold_call. by rewrite Hex.
Qed.

Lemma acceptSwap_not_counterparty sender swapId w :
  paused w = false → entered w = false → executed (swapAt swapId w) = false →
  sender ≠ tokenBOwner (swapAt swapId w) →
  acceptSwap this sender swapId w = Revert NotCounterparty.
Proof.
  intros Hp He Hex Hs. unfold acceptSwap. rewrite whenNotPaused_running by done.
  apply nonReentrant_Revert; [done|]. unfold_call. rewrite Hex. simpl.
  by rewrite bool_decide_eq_false_2.
Qed.

Lemma cancelSwap_not_proposer sender swapId w :
  paused w = false → entered w = false → executed (swapAt swapId w) = false →
  sender ≠ tokenAOwner (swapAt swapId w) →
  cancelSwap this sender swapId w = Revert NotProposer.
Proof.
  intros Hp He Hex Hs. unfold cancelSwap. rewrite whenNotPaused_running by done.
  apply nonReentrant_Revert; [done|]. unfold_call. rewrite Hex. simpl.
  by rewrite bool_decide_eq_false_2.
Qed.

Lemma acceptSwap_not_approved sender swapId w :
  paused w = false → entered w = false → executed (swapAt swapId w) = false →
  sender = tokenBOwner (swapAt swapId w) →
  asset (tokenB (swapAt swapId w)) w ≫= operator ≠ Some this →
  acceptSwap this sender swapId w = Revert NotApprovedB.
Proof.
  intros Hp He Hex Hs Hop. unfold acceptSwap. rewrite whenNotPaused_running by done.
  apply nonReentrant_Revert; [done|]. unfold_call. rewrite Hex. simpl.
  rewrite bool_decide_eq_true_2 by done. simpl.
  by rewrite bool_decide_eq_false_2.
Qed.

Lemma acceptSwap_not_holder sender swapId w a :
  paused w = false → entered w = false → executed (swapAt swapId w) = false →
  sender = tokenBOwner (swapAt swapId w) →
  asset (tokenB (swapAt swapId w)) w = Some a →
  operator a = Some this → holder a ≠ sender →
  acceptSwap this sender swapId w = Revert NotHolder.
Proof.
  intros Hp He Hex Hs Ha Hop Hh. unfold acceptSwap. rewrite whenNotPaused_running by done.
  apply nonReentrant_Revert; [done|]. unfold_call. rewrite Hex. simpl.
  rewrite bool_decide_eq_true_2 by done. simpl. autorewrite with world.
  rewrite Ha. simpl. rewrite bool_decide_eq_true_2 by done. simpl.
  autorewrite with world.
  assert (transferFrom this (tokenBOwner (swapAt swapId w)) this (tokenB (swapAt swapId w))
            (set_entered true w) = Revert NotHolder) as ->; [|done].
  apply transferFrom_Revert. autorewrite with world. rewrite Ha.
  rewrite bool_decide_eq_false_2; [done|]. by rewrite <- Hs.
Qed.

(** *** What outlives later transactions *)

Lemma steps_nextSwapId w w' : steps this w w' → nextSwapId w ≤ nextSwapId w'.
Proof.
  induction 1 as [|w sender c w' Hs _ IH]; [done|].
  destruct (next_storage_step sender c w Hs) as [[| | |] _]; lia.
Qed.

Lemma steps_executed w w' swapId s :
  consistent w → swaps w !! swapId = Some s → executed s = true →
  steps this w w' → swaps w' !! swapId = Some s.
Proof.
  intros Hc Hl Hex Hsteps. induction Hsteps as [|w sender c w' Hs _ IH]; [done|].
  apply IH; [by apply consistent_next|].
  destruct Hc as (_ & _ & Hall). apply Hall in Hl as Hid.
  destruct (next_storage_step sender c w Hs) as [[Hsw _|? ? ? _ _ Hsw _|i s' Hi Hex' _ Hsw _
                                                 |i s' Hi Hex' _ Hsw _] _]; rewrite Hsw.
  - done.
  - rewrite lookup_insert_ne; [done|lia].
  - rewrite lookup_insert_ne; [done|]. intros ->. simplify_eq. congruence.
  - rewrite lookup_delete_ne; [done|]. intros ->. simplify_eq. congruence.
Qed.

Lemma steps_erased w w' swapId :
  consistent w → swapId < nextSwapId w → swaps w !! swapId = None →
  steps this w w' → swaps w' !! swapId = None.
Proof.
  intros Hc Hlt Hl Hsteps. induction Hsteps as [|w sender c w' Hs _ IH]; [done|].
  assert (nextSwapId w ≤ nextSwapId (next this sender c w)) as Hmono.
  { apply steps_nextSwapId. eapply steps_next; [done|constructor]. }
  apply IH; [by apply consistent_next|lia|].
  destruct (next_storage_step sender c w Hs) as [[Hsw _|? ? ? _ _ Hsw _|i s' Hi Hex' _ Hsw _
                                                 |i s' Hi Hex' _ Hsw _] _]; rewrite Hsw.
  - done.
  - rewrite lookup_insert_ne; [done|lia].
  - rewrite lookup_insert_ne; [done|]. intros ->. simplify_eq.
  - by rewrite lookup_delete_None; right.
Qed.

Lemma steps_trans w1 w2 w3 : steps this w1 w2 → steps this w2 w3 → steps this w1 w3.
Proof. induction 1; [done|]. intros. eapply steps_next; eauto. Qed.

End CoordinatorFacts.

Lemma reachable_deployed this r deployer : reachable this (deployed r deployer).
Proof. exists r, deployer. constructor. Qed.

Lemma steps_snoc this w w' sender c :
  steps this w w' → sender ≠ zeroAddress → steps this w (next this sender c w').
Proof.
  intros H Hs. eapply steps_trans; [exact H|]. eapply steps_next; [exact Hs|constructor].
Qed.

Lemma reachable_next this w sender c :
  reachable this w → sender ≠ zeroAddress → reachable this (next this sender c w).
Proof. intros (r & d & H) Hs. exists r, d. by apply steps_snoc. Qed.

(** Shows that a world of the scenario is reachable. *)
Ltac scenario_reachable :=
  repeat first [ apply reachable_deployed | apply reachable_next; [|done] ].

Lemma reachable_offered : reachable Scenario.coordinator Scenario.offered.
Proof.
  unfold Scenario.offered, Scenario.authorised, Scenario.minted, Scenario.genesis.
  scenario_reachable.
Qed.

Lemma reachable_approved : reachable Scenario.coordinator Scenario.approved.
Proof. apply reachable_next; [apply reachable_offered|done]. Qed.

(** *** Transactions of the coordinator *)

Lemma transact_createSwap this sender tokA tokBOwner tokB w :
  transact this sender (CreateSwap tokA tokBOwner tokB) w =
  match createSwap this sender tokA tokBOwner tokB w with
  | Success (swapId, w') => (Returned (Some swapId), w')
  | Revert e => (Failed e, w)
  end.
Proof.
  unfold transact, run, mbind, M_bind.
  by destruct (createSwap this sender tokA tokBOwner tokB w) as [[? ?]|?].
Qed.

Lemma transact_acceptSwap this sender swapId w :
  transact this sender (AcceptSwap swapId) w =
  match acceptSwap this sender swapId w with
  | Success (_, w') => (Returned None, w')
  | Revert e => (Failed e, w)
  end.
Proof.
  unfold transact, run, mbind, M_bind.
  by destruct (acceptSwap this sender swapId w) as [[? ?]|?].
Qed.

Lemma transact_cancelSwap this sender swapId w :
  transact this sender (CancelSwap swapId) w =
  match cancelSwap this sender swapId w with
  | Success (_, w') => (Returned None, w')
  | Revert e => (Failed e, w)
  end.
Proof.
  unfold transact, run, mbind, M_bind.
  by destruct (cancelSwap this sender swapId w) as [[? ?]|?].
Qed.

Lemma acceptSwap_absent this sender swapId w :
  entered w = false → swaps w !! swapId = None → sender ≠ zeroAddress →
  ∃ e, acceptSwap this sender swapId w = Revert e ∧
       (paused w = false → e = NotCounterparty) ∧ (paused w = true → e = SystemPaused).
Proof.
  intros He Hl Hs. destruct (paused w) eqn:Hp.
  - exists SystemPaused. split; [|done]. by apply whenNotPaused_paused.
  - exists NotCounterparty. split; [|done].
    apply acceptSwap_not_counterparty; try done; by rewrite (swapAt_None _ _ Hl).
Qed.

Lemma cancelSwap_absent this sender swapId w :
  entered w = false → swaps w !! swapId = None → sender ≠ zeroAddress →
  ∃ e, cancelSwap this sender swapId w = Revert e ∧
       (paused w = false → e = NotProposer) ∧ (paused w = true → e = SystemPaused).
Proof.
  intros He Hl Hs. destruct (paused w) eqn:Hp.
  - exists SystemPaused. split; [|done]. by apply whenNotPaused_paused.
  - exists NotProposer. split; [|done].
    apply cancelSwap_not_proposer; try done; by rewrite (swapAt_None _ _ Hl).
Qed.



(** A successful [cancelSwap] leaves a consistent world in which the record
    is gone and its identifier stays below [nextSwapId]. *)
Lemma cancelSwap_erases this sender swapId w w' :
  consistent w → sender ≠ zeroAddress →
  cancelSwap this sender swapId w = Success (tt, w') →
  consistent w' ∧ swapId < nextSwapId w' ∧ swaps w' !! swapId = None ∧
  swaps w !! swapId = Some (swapAt swapId w).
Proof.
  intros Hc Hs H.
  assert (next this sender (CancelSwap swapId) w = w') as Hn.
  { unfold next. by rewrite transact_cancelSwap, H. }
  apply cancelSwap_Success in H as (_ & _ & _ & Hp & aA & _ & _ & ->).
  assert (swaps w !! swapId = Some (swapAt swapId w)) as Hl.
  { apply swapAt_lookup. intros Hz. rewrite Hz in Hp. by apply Hs. }
  split_and!.
  - rewrite <- Hn. by apply consistent_next.
  - destruct Hc as (_ & _ & Hall). apply Hall in Hl. simpl. lia.
  - simpl. by rewrite lookup_delete_eq.
  - done.
Qed.

(** *** The failures of each call *)

Lemma gets_Revert {A : Type} (f : World → A) w e : gets f w = Revert e → False.
Proof. done. Qed.

Lemma modify_Revert f w e : modify f w = Revert e → False.
Proof. done. Qed.

Lemma ret_Revert {A : Type} (a : A) w e : mret (M := M) a w = Revert e → False.
Proof. done. Qed.

Lemma ownerOf_Revert tokenId w e : ownerOf tokenId w = Revert e → e = UnknownAsset.
Proof. unfold ownerOf. destruct (asset tokenId w); [done|]. by intros [= <-]. Qed.

Lemma transferFrom_Revert_kind sender from to tokenId w e :
  transferFrom sender from to tokenId w = Revert e →
  e = UnknownAsset ∨ e = NotHolder ∨ e = NotAuthorized.
Proof.
  intros H. apply transferFrom_Revert in H.
  destruct (asset tokenId w); [|by left].
  case_bool_decide; [right; right; tauto | right; by left].
Qed.

Lemma postIncrementNextSwapId_Revert w e :
  postIncrementNextSwapId w = Revert e → e = ArithmeticOverflow.
Proof.
  unfold postIncrementNextSwapId, mbind, M_bind, gets, require, modify, mret, M_ret, revert.
  case_bool_decide; [done|]. by intros [= <-].
Qed.

(** Finds, for a sequence of steps that reverted, the step that did. *)
Ltac inv_revert :=
  repeat match goal with
  | H : (_ ≫= _) _ = Revert _ |- _ =>
      let x := fresh "x" in let w := fresh "w" in let H1 := fresh "H" in
      apply bind_Revert in H; destruct H as [H | (x & w & H1 & H)]
  | H : require _ _ _ = Revert _ |- _ =>
      apply require_Revert in H; destruct H as [_ H]; try discriminate H; subst
  | H : read _ _ _ = Revert _ |- _ => by apply gets_Revert in H
  | H : getApproved _ _ = Revert _ |- _ => by apply gets_Revert in H
  | H : gets _ _ = Revert _ |- _ => by apply gets_Revert in H
  | H : emit _ _ = Revert _ |- _ => by apply modify_Revert in H
  | H : markExecuted _ _ = Revert _ |- _ => by apply modify_Revert in H
  | H : modify _ _ = Revert _ |- _ => by apply modify_Revert in H
  | H : mret _ _ = Revert _ |- _ => by apply ret_Revert in H
  | H : ownerOf _ _ = Revert _ |- _ =>
      apply ownerOf_Revert in H; try discriminate H; subst
  | H : postIncrementNextSwapId _ = Revert _ |- _ =>
      apply postIncrementNextSwapId_Revert in H; try discriminate H; subst
  | H : transferFrom _ _ _ _ _ = Revert _ |- _ =>
      apply transferFrom_Revert_kind in H; destruct H as [H|[H|H]];
      try discriminate H; subst
  end.

Lemma run_Revert_failures this sender c w e :
  run this sender c w = Revert e → e ∈ failures c.
Proof.
  intros H. destruct c; simpl in H;
    unfold createSwap, acceptSwap, cancelSwap, pause, unpause, mint, approve,
      cardPause, cardUnpause, whenNotPaused, nonReentrant, onlyOwner, cardWhenNotPaused,
      cardOnlyOwner, createSwapBody, acceptSwapBody, acceptSwapBodyVia, cancelSwapBody,
      cancelSwapBodyVia,
      _safeMint, _setTokenURI, incrementNextTokenId in H;
    inv_revert; simpl; set_solver.
Qed.

(** A swap entry point that is not paused does not fail with [SystemPaused]. *)
Lemma run_not_paused this sender c w :
  paused w = false →
  match c with CreateSwap _ _ _ | AcceptSwap _ | CancelSwap _ => True | _ => False end →
  run this sender c w ≠ Revert SystemPaused.
Proof.
  intros Hp Hc H. destruct c; try done; simpl in H;
    (apply bind_Revert in H as [H | (? & ? & _ & H)]; [|by apply ret_Revert in H]);
    unfold createSwap, acceptSwap, cancelSwap in H;
    rewrite whenNotPaused_running in H by done;
    unfold nonReentrant, createSwapBody, acceptSwapBody, acceptSwapBodyVia, cancelSwapBody,
      cancelSwapBodyVia in H;
    inv_revert.
Qed.

Lemma swap_call_paused this sender c w :
  swap_call c = true → paused w = true → run this sender c w = Revert SystemPaused.
Proof.
  intros Hc Hp. destruct c; try discriminate Hc; simpl;
    unfold createSwap, acceptSwap, cancelSwap, mbind at 1, M_bind;
    by rewrite whenNotPaused_paused.
Qed.

Lemma pause_Success this sender (b : bool) w w' v :
  run this sender (if b then Pause else Unpause) w = Success (v, w') ↔
  sender = owner w ∧ v = None ∧ w' = set_paused b w.
Proof.
  split.
  - intros H. destruct b; simpl in H; unfold pause, unpause, onlyOwner in H;
      inv_success; done.
  - intros (-> & -> & ->).
    destruct b; simpl; unfold pause, unpause, onlyOwner, mbind, M_bind, gets, require, modify;
      by rewrite bool_decide_eq_true_2.
Qed.

Lemma next_pause this (b : bool) w :
  next this (owner w) (if b then Pause else Unpause) w = set_paused b w.
Proof.
  unfold next, transact.
  by rewrite (proj2 (pause_Success this (owner w) b w (set_paused b w) None)).
Qed.

Lemma reason_inj e1 e2 : reason e1 = reason e2 → e1 = e2.
Proof. destruct e1, e2; simpl; intros H; first [reflexivity | discriminate H]. Qed.


(** *** Identifiers that name no swap *)

Lemma no_swap_erased this swapId w :
  no_swap this swapId w → consistent w ∧ swaps w !! swapId = None.
Proof.
  intros [Hr Hid | w0 sender w1 Hr Hs Hc Hsteps].
  - apply consistent_reachable in Hr as Hc. split; [done|].
    destruct Hc as (_ & _ & Hall).
    destruct (swaps w !! swapId) as [s|] eqn:Hl; [|done].
    apply Hall in Hl. lia.
  - apply consistent_reachable in Hr.
    destruct (cancelSwap_erases _ _ _ _ _ Hr Hs Hc) as (Hc1 & Hlt & Hnone & _).
    split; [by eapply consistent_steps | by eapply steps_erased].
Qed.

(** ** The claims *)

(** C1: for every Pending swap, if [acceptSwap] called by [sender] succeeds
    then afterwards the holder of the proposer's asset is [sender], the
    holder of the counterparty's asset is the proposer, and the swap is
    marked executed; custody moved by exactly three transfers, in this order:
    the counterparty's asset from [sender] to the coordinator, the proposer's
    asset from the coordinator to [sender], the counterparty's asset from the
    coordinator to the proposer. *)
Theorem acceptSwap_exchanges_custody this w sender swapId s w' :
  reachable this w →
  swaps w !! swapId = Some s → executed s = false →
  acceptSwap this sender swapId w = Success (tt, w') →
  currentHolder (tokenA s) w' = Some sender ∧
  currentHolder (tokenB s) w' = Some (tokenAOwner s) ∧
  swaps w' !! swapId = Some (executedSwap s) ∧
  facts w' = facts w ++ [ AssetTransferred (tokenB s) sender this;
                          AssetTransferred (tokenA s) this sender;
                          AssetTransferred (tokenB s) this (tokenAOwner s);
                          SwapExecuted swapId (tokenAOwner s) sender ].
Proof.
  intros Hr Hl Hex H.
  apply consistent_reachable in Hr as (_ & _ & Hall).
  destruct (Hall _ _ Hl) as (_ & Hne & _).
  apply acceptSwap_Success in H. rewrite (swapAt_Some _ _ _ Hl) in H.
  destruct H as (_ & _ & _ & Hs & aB & aA & aB' & _ & _ & _ & _ & _ & _ & _ & ->).
  unfold accepted, currentHolder. autorewrite with world.
  rewrite !asset_transferred. subst sender.
  split_and!.
  - rewrite decide_False by done. by rewrite decide_True.
  - by rewrite decide_True.
  - simpl. by rewrite lookup_insert_eq.
  - simpl. by rewrite <- !app_assoc.
Qed.

Lemma acceptSwap_exchanges_custody_witness :
  currentHolder 1 Scenario.settled = Some Scenario.bob ∧
  currentHolder 2 Scenario.settled = Some Scenario.alice ∧
  swaps Scenario.settled !! 1 = Some (mkSwap Scenario.alice 1 Scenario.bob 2 true) ∧
  facts Scenario.settled =
    facts Scenario.approved ++
      [ AssetTransferred 2 Scenario.bob Scenario.coordinator;
        AssetTransferred 1 Scenario.coordinator Scenario.bob;
        AssetTransferred 2 Scenario.coordinator Scenario.alice;
        SwapExecuted 1 Scenario.alice Scenario.bob ].
Proof.
  apply (acceptSwap_exchanges_custody Scenario.coordinator Scenario.approved Scenario.bob 1
           (mkSwap Scenario.alice 1 Scenario.bob 2 false) Scenario.settled).
  - apply reachable_approved.
  - vm_compute. reflexivity.
  - reflexivity.
  - vm_compute. reflexivity.
Defined.

(** C2, as the code has it: [acceptSwap] on a Pending swap whose
    counterparty asset is not held by the caller fails and changes no state,
    and the failure is fixed by the checks in the order the code makes them.
    [whenNotPaused] comes first: on a paused coordinator the failure is
    [SystemPaused], whoever holds the asset; [nonReentrant] comes next: a
    call made while a swap operation is running fails with [ReentrantCall].
    There is no ownership check of its own in [acceptSwap]: past the two
    modifiers the failure is
    [NotCounterparty] for a caller other than the recorded counterparty,
    [NotApprovedB] when the coordinator is not the asset's operator, and the
    registry's [NotHolder], raised by the first transfer, only when the
    coordinator is the operator. *)
Theorem acceptSwap_asset_moved_fails this w sender swapId s :
  swaps w !! swapId = Some s → executed s = false →
  currentHolder (tokenB s) w ≠ Some sender →
  acceptSwap this sender swapId w =
    Revert (if paused w then SystemPaused
            else if entered w then ReentrantCall
            else if bool_decide (sender ≠ tokenBOwner s) then NotCounterparty
            else if bool_decide (asset (tokenB s) w ≫= operator ≠ Some this)
                 then NotApprovedB
            else NotHolder) ∧
  next this sender (AcceptSwap swapId) w = w.
Proof.
  intros Hl Hex Hh.
  assert (acceptSwap this sender swapId w =
    Revert (if paused w then SystemPaused
            else if entered w then ReentrantCall
            else if bool_decide (sender ≠ tokenBOwner s) then NotCounterparty
            else if bool_decide (asset (tokenB s) w ≫= operator ≠ Some this)
                 then NotApprovedB
            else NotHolder)) as H.
  { apply swapAt_Some in Hl as Hs.
    destruct (paused w) eqn:Hp.
    { by apply whenNotPaused_paused. }
    destruct (entered w) eqn:He.
    { unfold acceptSwap. rewrite whenNotPaused_running by done.
      by apply nonReentrant_entered. }
    case_bool_decide as Hb.
    { apply acceptSwap_not_counterparty; by rewrite ?Hs. }
    case_bool_decide as Ho.
    { apply acceptSwap_not_approved; by rewrite ?Hs. }
    destruct (asset (tokenB s) w) as [a|] eqn:Ha; [|done].
    apply (acceptSwap_not_holder this sender swapId w a); rewrite ?Hs; try done.
    intros Hh'. apply Hh. unfold currentHolder. rewrite Ha. simpl. by rewrite Hh'. }
  split; [exact H|]. unfold next. by rewrite transact_acceptSwap, H.
Qed.

Lemma acceptSwap_asset_moved_fails_witness :
  (acceptSwap Scenario.coordinator Scenario.bob 1 Scenario.moved = Revert NotApprovedB ∧
   next Scenario.coordinator Scenario.bob (AcceptSwap 1) Scenario.moved = Scenario.moved) ∧
  (acceptSwap Scenario.coordinator Scenario.bob 1 (set_paused true Scenario.moved)
   = Revert SystemPaused ∧
   next Scenario.coordinator Scenario.bob (AcceptSwap 1) (set_paused true Scenario.moved)
   = set_paused true Scenario.moved).
Proof.
  split.
  - apply (acceptSwap_asset_moved_fails Scenario.coordinator Scenario.moved Scenario.bob 1
             (mkSwap Scenario.alice 1 Scenario.bob 2 false)).
    + vm_compute. reflexivity.
    + reflexivity.
    + vm_compute. discriminate.
  - apply (acceptSwap_asset_moved_fails Scenario.coordinator
             (set_paused true Scenario.moved) Scenario.bob 1
             (mkSwap Scenario.alice 1 Scenario.bob 2 false)).
    + vm_compute. reflexivity.
    + reflexivity.
    + vm_compute. discriminate.
Defined.

(** The claim of C2 as stated fails: Bob gave card 2 to Carol after Alice's
    offer; his [acceptSwap] is refused for the missing approval, which is not
    an ownership failure. *)
Lemma acceptSwap_asset_moved_not_ownership_error :
  swaps Scenario.moved !! 1 = Some (mkSwap Scenario.alice 1 Scenario.bob 2 false) ∧
  currentHolder 2 Scenario.moved = Some Scenario.carol ∧
  acceptSwap Scenario.coordinator Scenario.bob 1 Scenario.moved = Revert NotApprovedB ∧
  ownership_error NotApprovedB = false.
Proof. split_and!; vm_compute; reflexivity. Qed.

(** *** What the registry sees of a running call *)










(** C4, as the code has it: after a successful [cancelSwap] on a Pending
    swap (the caller is then its proposer) the proposer holds the proposer's
    asset again and the record is erased; every later [acceptSwap] on that
    identifier fails and changes nothing.  The code keeps no trace of
    cancelled swaps: the failure is [NotCounterparty], the all-zero record
    having the zero account as counterparty ([SystemPaused] while paused). *)
Theorem cancelSwap_returns_escrow this w sender swapId s w' :
  reachable this w →
  swaps w !! swapId = Some s → executed s = false →
  cancelSwap this sender swapId w = Success (tt, w') →
  sender = tokenAOwner s ∧
  currentHolder (tokenA s) w' = Some (tokenAOwner s) ∧
  swaps w' !! swapId = None ∧
  ∀ w'' caller, steps this w' w'' → caller ≠ zeroAddress →
    (∃ e, acceptSwap this caller swapId w'' = Revert e ∧
          (paused w'' = false → e = NotCounterparty) ∧
          (paused w'' = true → e = SystemPaused)) ∧
    next this caller (AcceptSwap swapId) w'' = w''.
Proof.
  intros Hr Hl Hex H.
  apply consistent_reachable in Hr as Hc.
  assert (sender = tokenAOwner s) as Hs.
  { apply cancelSwap_Success in H as (_ & _ & _ & Hp & _).
    by rewrite (swapAt_Some _ _ _ Hl) in Hp. }
  assert (sender ≠ zeroAddress) as Hnz.
  { destruct Hc as (_ & _ & Hall). apply Hall in Hl. rewrite Hs. tauto. }
  destruct (cancelSwap_erases _ _ _ _ _ Hc Hnz H) as (Hc' & Hlt & Hnone & _).
  split_and!; try done.
  - apply cancelSwap_Success in H as (_ & _ & _ & _ & aA & _ & _ & ->).
    rewrite (swapAt_Some _ _ _ Hl). unfold cancelled, currentHolder.
    autorewrite with world. rewrite asset_transferred. by rewrite decide_True.
  - intros w'' caller Hsteps Hcaller.
    assert (consistent w'') as (He & _) by by eapply consistent_steps.
    assert (swaps w'' !! swapId = None) as Hl'' by by eapply steps_erased.
    destruct (acceptSwap_absent this caller swapId w'' He Hl'' Hcaller) as (e & He' & Hk).
    split; [by exists e|]. unfold next. by rewrite transact_acceptSwap, He'.
Qed.

Lemma cancelSwap_returns_escrow_witness :
  Scenario.alice = Scenario.alice ∧
  currentHolder 1 Scenario.withdrawn = Some Scenario.alice ∧
  swaps Scenario.withdrawn !! 1 = None ∧
  ∀ w'' caller, steps Scenario.coordinator Scenario.withdrawn w'' → caller ≠ zeroAddress →
    (∃ e, acceptSwap Scenario.coordinator caller 1 w'' = Revert e ∧
          (paused w'' = false → e = NotCounterparty) ∧
          (paused w'' = true → e = SystemPaused)) ∧
    next Scenario.coordinator caller (AcceptSwap 1) w'' = w''.
Proof.
  apply (cancelSwap_returns_escrow Scenario.coordinator Scenario.offered Scenario.alice 1
           (mkSwap Scenario.alice 1 Scenario.bob 2 false) Scenario.withdrawn).
  - apply reachable_offered.
  - vm_compute. reflexivity.
  - reflexivity.
  - vm_compute. reflexivity.
Defined.

(** The claim of C4 as stated fails in the kind of failure: after Alice's
    cancellation Bob's [acceptSwap] is refused with "Not the tokenB owner",
    not as an unknown or no longer pending swap. *)
Lemma acceptSwap_after_cancel_not_counterparty :
  cancelSwap Scenario.coordinator Scenario.alice 1 Scenario.offered
  = Success (tt, Scenario.withdrawn) ∧
  acceptSwap Scenario.coordinator Scenario.bob 1 Scenario.withdrawn = Revert NotCounterparty ∧
  reason NotCounterparty = "Not the tokenB owner"%string ∧
  NotCounterparty ≠ SwapNotPending.
Proof. split_and!; [vm_compute; reflexivity | vm_compute; reflexivity | reflexivity | discriminate]. Qed.

(** C6, as the code has it: [createSwap] with the same asset on both sides
    always fails and changes no state, whoever calls it and whatever the ownership or approval
    of the asset; the failure is [IdenticalAssets] whenever the coordinator is
    not paused (the pause check alone comes earlier), and [SystemPaused] when
    it is. *)
Theorem createSwap_same_asset_fails this w sender tokBOwner a :
  entered w = false →
  (∃ e, createSwap this sender a tokBOwner a w = Revert e ∧
        (paused w = false → e = IdenticalAssets) ∧
        (paused w = true → e = SystemPaused)) ∧
  next this sender (CreateSwap a tokBOwner a) w = w.
Proof.
  intros He.
  assert (∃ e, createSwap this sender a tokBOwner a w = Revert e ∧
               (paused w = false → e = IdenticalAssets) ∧
               (paused w = true → e = SystemPaused)) as (e & H & Hk).
  { destruct (paused w) eqn:Hp.
    - exists SystemPaused. split; [|done]. by apply whenNotPaused_paused.
    - exists IdenticalAssets. split; [|done]. unfold createSwap.
      rewrite whenNotPaused_running by done. apply nonReentrant_Revert; [done|].
      unfold_call. by rewrite bool_decide_eq_false_2 by (intros Hne; by apply Hne). }
  split; [by exists e|]. unfold next. by rewrite transact_createSwap, H.
Qed.

Lemma createSwap_same_asset_fails_witness :
  (∃ e, createSwap Scenario.coordinator Scenario.bob 2 Scenario.alice 2 Scenario.minted
        = Revert e ∧
        (paused Scenario.minted = false → e = IdenticalAssets) ∧
        (paused Scenario.minted = true → e = SystemPaused)) ∧
  next Scenario.coordinator Scenario.bob (CreateSwap 2 Scenario.alice 2) Scenario.minted
  = Scenario.minted.
Proof.
  apply (createSwap_same_asset_fails Scenario.coordinator Scenario.minted Scenario.bob
           Scenario.alice 2).
  reflexivity.
Defined.

(** The claim of C6 read without the proviso fails: on a paused coordinator
    the call is refused for the pause, before the two assets are compared. *)
Lemma createSwap_same_asset_paused :
  paused Scenario.halted = true ∧
  createSwap Scenario.coordinator Scenario.bob 2 Scenario.alice 2 Scenario.halted
  = Revert SystemPaused ∧
  Revert (A := N * World) SystemPaused ≠ Revert IdenticalAssets.
Proof. split_and!; [reflexivity | vm_compute; reflexivity | discriminate]. Qed.

(** C7: every successful [createSwap] returns the next sequential identifier,
    which was never used before and is below every identifier handed out
    later (the first one handed out after deployment is 1); the new record is
    Pending; the proposer's asset is held by the coordinator; the
    counterparty's asset is left as it was, and the one transfer emitted is
    that of the proposer's asset. *)
Theorem createSwap_escrows_offer this w sender tokA tokBOwner tokB swapId w' :
  reachable this w →
  createSwap this sender tokA tokBOwner tokB w = Success (swapId, w') →
  (swapId = nextSwapId w ∧ nextSwapId w' = swapId + 1 ∧ 1 ≤ swapId ∧
   ∀ r deployer, nextSwapId (deployed r deployer) = 1) ∧
  (swaps w !! swapId = None ∧
   ∀ w'' sender2 tokA2 tokBOwner2 tokB2 swapId2 w2,
     steps this w' w'' →
     createSwap this sender2 tokA2 tokBOwner2 tokB2 w'' = Success (swapId2, w2) →
     swapId < swapId2) ∧
  swaps w' !! swapId = Some (mkSwap sender tokA tokBOwner tokB false) ∧
  currentHolder tokA w' = Some this ∧
  asset tokB w' = asset tokB w ∧
  facts w' = facts w ++ [ AssetTransferred tokA sender this;
                          SwapCreated swapId sender tokA tokBOwner tokB ].
Proof.
  intros Hr H.
  apply consistent_reachable in Hr as (_ & Hone & Hall).
  apply createSwap_Success in H
    as (_ & _ & Hne & Hlt & -> & aA & aB & HA & HhA & HoA & HB & HhB & ->).
  split_and!; try done.
  - destruct (swaps w !! nextSwapId w) as [s|] eqn:Hl; [|done].
    apply Hall in Hl. lia.
  - intros w'' sender2 tokA2 tokBOwner2 tokB2 swapId2 w2 Hsteps H2.
    apply createSwap_Success in H2 as (_ & _ & _ & _ & -> & _).
    apply steps_nextSwapId in Hsteps. simpl in Hsteps. lia.
  - simpl. by rewrite lookup_insert_eq.
  - unfold created, currentHolder. autorewrite with world.
    rewrite asset_transferred. by rewrite decide_True.
  - unfold created. autorewrite with world.
    rewrite asset_transferred. by rewrite decide_False.
  - simpl. by rewrite <- !app_assoc.
Qed.

Lemma createSwap_escrows_offer_witness :
  (1 = nextSwapId Scenario.authorised ∧ nextSwapId Scenario.offered = 1 + 1 ∧ 1 ≤ 1 ∧
   ∀ r deployer, nextSwapId (deployed r deployer) = 1) ∧
  (swaps Scenario.authorised !! 1 = None ∧
   ∀ w'' sender2 tokA2 tokBOwner2 tokB2 swapId2 w2,
     steps Scenario.coordinator Scenario.offered w'' →
     createSwap Scenario.coordinator sender2 tokA2 tokBOwner2 tokB2 w'' = Success (swapId2, w2) →
     1 < swapId2) ∧
  swaps Scenario.offered !! 1 = Some (mkSwap Scenario.alice 1 Scenario.bob 2 false) ∧
  currentHolder 1 Scenario.offered = Some Scenario.coordinator ∧
  asset 2 Scenario.offered = asset 2 Scenario.authorised ∧
  facts Scenario.offered =
    facts Scenario.authorised ++
      [ AssetTransferred 1 Scenario.alice Scenario.coordinator;
        SwapCreated 1 Scenario.alice 1 Scenario.bob 2 ].
Proof.
  apply (createSwap_escrows_offer Scenario.coordinator Scenario.authorised
           Scenario.alice 1 Scenario.bob 2 1 Scenario.offered).
  - unfold Scenario.authorised, Scenario.minted, Scenario.genesis. scenario_reachable.
  - vm_compute. reflexivity.
Defined.

(** C8: while the coordinator is paused every [createSwap], [acceptSwap] and
    [cancelSwap] fails with [SystemPaused] and changes no state; [pause] and
    [unpause] succeed for the administrator only; a successful [unpause]
    clears the pause flag and nothing else, so that no swap record changes
    and the swap operations are no longer refused for the pause; pausing and
    unpausing a running system leaves it exactly as it was. *)
Theorem pause_freezes_swaps this w sender c :
  swap_call c = true →
  (paused w = true → transact this sender c w = (Failed SystemPaused, w)) ∧
  (∀ admin w', next this admin Unpause w = w' →
     swaps w' = swaps w ∧ nextSwapId w' = nextSwapId w ∧ pokemonCard w' = pokemonCard w) ∧
  (∀ admin (b : bool) v w',
     run this admin (if b then Pause else Unpause) w = Success (v, w') →
     admin = owner w ∧ w' = set_paused b w ∧
     (b = false → run this sender c w' ≠ Revert SystemPaused)) ∧
  (paused w = false →
   next this (owner w) Unpause (next this (owner w) Pause w) = w).
Proof.
  intros Hc. split_and!.
  - intros Hp. unfold transact. by rewrite swap_call_paused.
  - intros admin w' <-. unfold next, transact.
    destruct (run this admin Unpause w) as [[v w']|e] eqn:E; [|done].
    apply (pause_Success this admin false) in E as (_ & _ & ->). done.
  - intros admin b v w' H. apply pause_Success in H as (-> & -> & ->).
    split_and!; try done. intros ->.
    apply run_not_paused; [done|]. by destruct c.
  - intros Hp. rewrite (next_pause this true w).
    change (owner w) with (owner (set_paused true w)).
    rewrite (next_pause this false (set_paused true w)).
    destruct w. simpl in *. by subst.
Qed.

Lemma pause_freezes_swaps_witness :
  transact Scenario.coordinator Scenario.bob (AcceptSwap 1) Scenario.halted
  = (Failed SystemPaused, Scenario.halted) ∧
  swaps (next Scenario.coordinator Scenario.admin Unpause Scenario.halted)
  = swaps Scenario.halted ∧
  next Scenario.coordinator Scenario.admin Unpause Scenario.halted = Scenario.offered.
Proof.
  destruct (pause_freezes_swaps Scenario.coordinator Scenario.halted Scenario.bob
              (AcceptSwap 1) eq_refl) as (H1 & H2 & _ & _).
  destruct (pause_freezes_swaps Scenario.coordinator Scenario.offered Scenario.bob
              (AcceptSwap 1) eq_refl) as (_ & _ & _ & H4).
  split_and!.
  - apply H1. reflexivity.
  - eapply H2. reflexivity.
  - apply H4. reflexivity.
Defined.

(** C9: for a swap identifier that was never created, or whose swap was
    cancelled, the stored record reads as the all-zero record, with the zero
    account as both owners; [acceptSwap] and [cancelSwap] fail for every
    caller (no caller is the zero account) and change no state. *)
Theorem missing_swap_is_inert this w sender swapId :
  no_swap this swapId w → sender ≠ zeroAddress →
  (swapAt swapId w = zeroSwap ∧
   tokenAOwner (swapAt swapId w) = zeroAddress ∧
   tokenBOwner (swapAt swapId w) = zeroAddress) ∧
  (∃ e, acceptSwap this sender swapId w = Revert e ∧
        (paused w = false → e = NotCounterparty)) ∧
  (∃ e, cancelSwap this sender swapId w = Revert e ∧
        (paused w = false → e = NotProposer)) ∧
  next this sender (AcceptSwap swapId) w = w ∧
  next this sender (CancelSwap swapId) w = w.
Proof.
  intros Hno Hs.
  apply no_swap_erased in Hno as ((He & _) & Hl).
  destruct (acceptSwap_absent this sender swapId w He Hl Hs) as (e1 & H1 & H1' & _).
  destruct (cancelSwap_absent this sender swapId w He Hl Hs) as (e2 & H2 & H2' & _).
  split_and!.
  - by apply swapAt_None.
  - by rewrite (swapAt_None _ _ Hl).
  - by rewrite (swapAt_None _ _ Hl).
  - by exists e1.
  - by exists e2.
  - unfold next. by rewrite transact_acceptSwap, H1.
  - unfold next. by rewrite transact_cancelSwap, H2.
Qed.

Lemma missing_swap_is_inert_witness :
  (swapAt 1 Scenario.withdrawn = zeroSwap ∧
   tokenAOwner (swapAt 1 Scenario.withdrawn) = zeroAddress ∧
   tokenBOwner (swapAt 1 Scenario.withdrawn) = zeroAddress) ∧
  (∃ e, acceptSwap Scenario.coordinator Scenario.bob 1 Scenario.withdrawn = Revert e ∧
        (paused Scenario.withdrawn = false → e = NotCounterparty)) ∧
  (∃ e, cancelSwap Scenario.coordinator Scenario.bob 1 Scenario.withdrawn = Revert e ∧
        (paused Scenario.withdrawn = false → e = NotProposer)) ∧
  next Scenario.coordinator Scenario.bob (AcceptSwap 1) Scenario.withdrawn = Scenario.withdrawn ∧
  next Scenario.coordinator Scenario.bob (CancelSwap 1) Scenario.withdrawn = Scenario.withdrawn.
Proof.
  apply (missing_swap_is_inert Scenario.coordinator Scenario.withdrawn Scenario.bob 1).
  - apply (was_cancelled _ _ _ Scenario.offered Scenario.alice Scenario.withdrawn).
    + apply reachable_offered.
    + done.
    + vm_compute. reflexivity.
    + constructor.
  - done.
Defined.

(** C10: the [SwapCancelled] fact a successful [cancelSwap] emits carries the
    zero account, not the proposer, as its owner: the record is deleted
    before the fact is emitted and the owner is read from the cleared slot.
    The swap identifier is the one field that tells which swap it was. *)
Theorem cancelSwap_fact_has_zero_owner this w sender swapId w' :
  sender ≠ zeroAddress →
  cancelSwap this sender swapId w = Success (tt, w') →
  tokenAOwner (swapAt swapId w) = sender ∧
  tokenAOwner (swapAt swapId w') = zeroAddress ∧
  facts w' = facts w ++ [ AssetTransferred (tokenA (swapAt swapId w)) this sender;
                          SwapCancelled swapId zeroAddress ] ∧
  SwapCancelled swapId zeroAddress ≠ SwapCancelled swapId sender.
Proof.
  intros Hs H.
  apply cancelSwap_Success in H as (_ & _ & _ & Hp & aA & _ & _ & ->).
  split_and!.
  - done.
  - unfold cancelled. by autorewrite with world.
  - simpl. rewrite <- Hp. by rewrite <- !app_assoc.
  - intros [= Hz]. by apply Hs.
Qed.

Lemma cancelSwap_fact_has_zero_owner_witness :
  tokenAOwner (swapAt 1 Scenario.offered) = Scenario.alice ∧
  tokenAOwner (swapAt 1 Scenario.withdrawn) = zeroAddress ∧
  facts Scenario.withdrawn =
    facts Scenario.offered ++
      [ AssetTransferred (tokenA (swapAt 1 Scenario.offered)) Scenario.coordinator Scenario.alice;
        SwapCancelled 1 zeroAddress ] ∧
  SwapCancelled 1 zeroAddress ≠ SwapCancelled 1 Scenario.alice.
Proof.
  apply (cancelSwap_fact_has_zero_owner Scenario.coordinator Scenario.offered Scenario.alice 1
           Scenario.withdrawn).
  - done.
  - vm_compute. reflexivity.
Defined.

(** ** Escrow is sound *)

Lemma asset_created this swapId sender tokA tokBOwner tokB aA w t :
  asset t (created this swapId sender tokA tokBOwner tokB aA w) =
  if decide (tokA = t) then Some (mkAsset this None (metadata aA)) else asset t w.
Proof. unfold created. autorewrite with world. by rewrite asset_transferred. Qed.

Lemma asset_accepted this swapId s aB aA aB' w t :
  asset t (accepted this swapId s aB aA aB' w) =
  if decide (tokenB s = t) then Some (mkAsset (tokenAOwner s) None (metadata aB'))
  else if decide (tokenA s = t) then Some (mkAsset (tokenBOwner s) None (metadata aA))
  else asset t w.
Proof.
  unfold accepted. autorewrite with world. rewrite !asset_transferred.
  by repeat case_decide.
Qed.

Lemma asset_cancelled this swapId s aA w t :
  asset t (cancelled this swapId s aA w) =
  if decide (tokenA s = t) then Some (mkAsset (tokenAOwner s) None (metadata aA))
  else asset t w.
Proof. unfold cancelled. autorewrite with world. by rewrite asset_transferred. Qed.

Lemma mint_Success accepted to uri w w' u :
  mint accepted to uri w = Success (u, w') →
  let id := _nextTokenId (pokemonCard w) in
  _nextTokenId (pokemonCard w') = id + 1 ∧
  ∀ t, asset t w' = if decide (id = t) then Some (mkAsset to None uri) else asset t w.
Proof.
  unfold mint, cardWhenNotPaused, _safeMint, _setTokenURI, incrementNextTokenId.
  intros H. inv_success. split; [done|]. intros t.
  unfold asset. simpl. rewrite lookup_insert_eq. simpl.
  rewrite insert_insert_eq. apply lookup_insert.
Qed.

Lemma approve_Success sender to tokenId w w' u :
  approve sender to tokenId w = Success (u, w') →
  _nextTokenId (pokemonCard w') = _nextTokenId (pokemonCard w) ∧
  ∃ a, asset tokenId w = Some a ∧ holder a = sender ∧
       ∀ t, asset t w' = if decide (tokenId = t)
                         then Some (mkAsset sender (Some to) (metadata a)) else asset t w.
Proof.
  unfold approve. intros H. inv_success. split; [done|].
  match goal with Ha : asset tokenId w = Some ?a |- _ => exists a; rewrite Ha end.
  split_and!; [done|done|]. intros t. simpl.
  match goal with Hs : sender = holder _ |- _ => rewrite <- Hs end.
  apply asset_set_asset.
Qed.

(** An asset in escrow is out of the reach of every outside account. *)
Lemma in_escrow_out_of_reach this sender t a w :
  sender ≠ this → in_escrow this t w → asset t w = Some a →
  holder a ≠ sender ∧ operator a ≠ Some sender.
Proof.
  intros Hs (a' & Ha' & Hh & Ho) Ha. simplify_eq. rewrite Ho. split; [congruence|done].
Qed.

Lemma escrow_sound_frame this w w' :
  swaps w' = swaps w → sequential w' →
  (∀ t a, in_escrow this t w → asset t w = Some a → asset t w' = Some a) →
  escrow_sound this w → escrow_sound this w'.
Proof.
  intros Hsw Hseq' Hkeep (_ & Hesc & Hdist). split_and!; [done| |].
  - intros i s. rewrite Hsw. intros Hl Hex.
    destruct (Hesc _ _ Hl Hex) as (a & Ha & Hh & Ho).
    exists a. split_and!; [|done|done]. apply Hkeep; [|done]. by exists a.
  - intros i1 i2 s1 s2. rewrite Hsw. apply Hdist.
Qed.

Lemma escrow_sound_next this sender c w :
  sender ≠ zeroAddress → sender ≠ this → consistent w →
  escrow_sound this w → escrow_sound this (next this sender c w).
Proof.
  intros Hs Ht Hc (Hseq & Hesc & Hdist).
  unfold next, transact.
  destruct (run this sender c w) as [[v w']|e] eqn:E; [|done]. simpl.
  destruct (registry_call c) eqn:Hcall.
  { destruct (registry_call_frame this sender c w w' v Hcall E) as (Hsw & _).
    apply (escrow_sound_frame this w w'); [done| | |done];
      destruct c; try discriminate Hcall; simpl in E; inv_success.
    - (* mint *)
      match goal with H : mint _ _ _ _ = _ |- _ => apply mint_Success in H as (Hn & Hass) end.
      intros t a. rewrite Hass, Hn. case_decide; [lia|]. intros Ha. apply Hseq in Ha. lia.
    - (* approve *)
      match goal with H : approve _ _ _ _ = _ |- _ =>
        apply approve_Success in H as (Hn & a0 & Ha0 & Hh0 & Hass) end.
      intros t a. rewrite Hass, Hn. case_decide; [subst|]; intros Ha.
      + by apply Hseq in Ha0.
      + by apply Hseq in Ha.
    - (* transferFrom *)
      match goal with H : transferFrom _ _ _ _ _ = _ |- _ =>
        apply transferFrom_Success in H as (a0 & Ha0 & Hh0 & Hauth & ->) end.
      intros t a. rewrite asset_transferred. case_decide; [subst|]; intros Ha.
      + by apply Hseq in Ha0.
      + by apply Hseq in Ha.
    - (* the card's pause and unpause *)
      unfold cardPause, cardOnlyOwner in *. inv_success. exact Hseq.
    - unfold cardUnpause, cardOnlyOwner in *. inv_success. exact Hseq.
    - match goal with H : mint _ _ _ _ = _ |- _ => apply mint_Success in H as (Hn & Hass) end.
      intros t a _ Ha. rewrite Hass. rewrite decide_False; [done|].
      apply Hseq in Ha. lia.
    - match goal with H : approve _ _ _ _ = _ |- _ =>
        apply approve_Success in H as (Hn & a0 & Ha0 & Hh0 & Hass) end.
      intros t a Hin Ha. rewrite Hass. rewrite decide_False; [done|]. intros ->.
      destruct (in_escrow_out_of_reach this sender _ _ w Ht Hin Ha0). done.
    - match goal with H : transferFrom _ _ _ _ _ = _ |- _ =>
        apply transferFrom_Success in H as (a0 & Ha0 & Hh0 & Hauth & ->) end.
      intros t a Hin Ha. rewrite asset_transferred. rewrite decide_False; [done|]. intros ->.
      destruct (in_escrow_out_of_reach this sender _ _ w Ht Hin Ha0) as [H1 H2].
      destruct Hauth as [->|Hop]; [by apply H1|by apply H2].
    - unfold cardPause, cardOnlyOwner in *. inv_success. by intros t a _ Ha.
    - unfold cardUnpause, cardOnlyOwner in *. inv_success. by intros t a _ Ha. }
  destruct c; try discriminate Hcall; simpl in E; inv_success.
  - (* createSwap *)
    match goal with H : createSwap _ _ _ _ _ _ = _ |- _ =>
      apply createSwap_Success in H
        as (_ & _ & Hne & Hlt & -> & aA & aB & HA & HhA & HoA & HB & HhB & ->) end.
    assert (∀ swapId s, swaps w !! swapId = Some s → executed s = false →
              tokA ≠ tokenA s) as Hfree.
    { intros i s Hl Hex ->.
      destruct (in_escrow_out_of_reach this sender _ _ w Ht (Hesc _ _ Hl Hex) HA). done. }
    split_and!.
    + intros t a. rewrite asset_created. case_decide; [subst|]; intros Ha.
      * by apply Hseq in HA.
      * by apply Hseq in Ha.
    + intros i s. simpl. intros Hl Hex. unfold in_escrow. rewrite asset_created.
      destruct (decide (nextSwapId w = i)) as [<-|Hi].
      * rewrite lookup_insert_eq in Hl. simplify_eq. simpl. rewrite decide_True by done. eauto.
      * rewrite lookup_insert_ne in Hl by done.
        rewrite decide_False by by eapply Hfree. by eapply Hesc.
    + intros i1 i2 s1 s2. simpl. intros Hl1 Hl2 Hex1 Hex2 Heq.
      destruct (decide (nextSwapId w = i1)) as [<-|Hi1];
        destruct (decide (nextSwapId w = i2)) as [<-|Hi2]; [done| | |].
      * rewrite lookup_insert_eq in Hl1. rewrite lookup_insert_ne in Hl2 by done.
        simplify_eq. simpl in Heq. by eapply Hfree in Heq.
      * rewrite lookup_insert_eq in Hl2. rewrite lookup_insert_ne in Hl1 by done.
        simplify_eq. simpl in Heq. symmetry in Heq. by eapply Hfree in Heq.
      * rewrite lookup_insert_ne in Hl1 by done. rewrite lookup_insert_ne in Hl2 by done.
        by eapply Hdist.
  - (* acceptSwap *)
    match goal with H : acceptSwap _ _ _ _ = _ |- _ =>
      apply acceptSwap_Success in H
        as (_ & _ & Hex & Hb & aB & aA & aB' & HB & HhB & HoB & HA & HhA & HB' & HhB' & ->) end.
    assert (swaps w !! swapId = Some (swapAt swapId w)) as Hl.
    { apply swapAt_lookup. intros Hz. rewrite Hz in Hb. by apply Hs. }
    set (s := swapAt swapId w) in *.
    assert (∀ i s', i ≠ swapId → swaps w !! i = Some s' → executed s' = false →
              tokenB s ≠ tokenA s' ∧ tokenA s ≠ tokenA s') as Hfree.
    { intros i s' Hi Hl' Hex'. split.
      - intros Heq. rewrite Heq in HB.
        destruct (in_escrow_out_of_reach this sender _ _ w Ht (Hesc _ _ Hl' Hex') HB). done.
      - intros Heq. apply Hi. by eapply Hdist. }
    split_and!.
    + intros t a. rewrite asset_accepted. repeat case_decide; subst; intros Ha.
      * by apply Hseq in HB.
      * destruct (Hesc _ _ Hl Hex) as (a0 & Ha0 & _). by apply Hseq in Ha0.
      * by apply Hseq in Ha.
    + intros i s'. simpl. intros Hl' Hex'. unfold in_escrow. rewrite asset_accepted.
      destruct (decide (swapId = i)) as [<-|Hi].
      { rewrite lookup_insert_eq in Hl'. by simplify_eq. }
      rewrite lookup_insert_ne in Hl' by done.
      destruct (Hfree i s') as [H1 H2]; [done..|].
      rewrite !decide_False by done. by eapply Hesc.
    + intros i1 i2 s1 s2. simpl. intros Hl1 Hl2 Hex1 Hex2 Heq.
      destruct (decide (swapId = i1)) as [<-|Hi1].
      { rewrite lookup_insert_eq in Hl1. by simplify_eq. }
      destruct (decide (swapId = i2)) as [<-|Hi2].
      { rewrite lookup_insert_eq in Hl2. by simplify_eq. }
      rewrite lookup_insert_ne in Hl1 by done. rewrite lookup_insert_ne in Hl2 by done.
      by eapply Hdist.
  - (* cancelSwap *)
    match goal with H : cancelSwap _ _ _ _ = _ |- _ =>
      apply cancelSwap_Success in H as (_ & _ & Hex & Ha & aA & HA & HhA & ->) end.
    assert (swaps w !! swapId = Some (swapAt swapId w)) as Hl.
    { apply swapAt_lookup. intros Hz. rewrite Hz in Ha. by apply Hs. }
    set (s := swapAt swapId w) in *.
    split_and!.
    + intros t a. rewrite asset_cancelled. case_decide; subst; intros Ha'.
      * by apply Hseq in HA.
      * by apply Hseq in Ha'.
    + intros i s'. simpl. intros Hl' Hex'. unfold in_escrow. rewrite asset_cancelled.
      destruct (decide (swapId = i)) as [<-|Hi].
      { by rewrite lookup_delete_eq in Hl'. }
      rewrite lookup_delete_ne in Hl' by done.
      rewrite decide_False; [by eapply Hesc|]. intros Heq. apply Hi. by eapply Hdist.
    + intros i1 i2 s1 s2. simpl. intros Hl1 Hl2 Hex1 Hex2 Heq.
      apply lookup_delete_Some in Hl1 as [_ Hl1]. apply lookup_delete_Some in Hl2 as [_ Hl2].
      by eapply Hdist.
  - (* pause *)
    unfold pause, onlyOwner in *. inv_success. done.
  - (* unpause *)
    unfold unpause, onlyOwner in *. inv_success. done.
Qed.

Lemma outside_steps_steps this w w' : outside_steps this w w' → steps this w w'.
Proof. induction 1; [constructor|]. by eapply steps_next. Qed.

Lemma outside_steps_snoc this w w' sender c :
  outside_steps this w w' → sender ≠ zeroAddress → sender ≠ this →
  outside_steps this w (next this sender c w').
Proof.
  induction 1 as [w|w s0 c0 w' Hs0 Ht0 _ IH]; intros Hs Ht.
  - eapply outside_next; [exact Hs|exact Ht|constructor].
  - eapply outside_next; [exact Hs0|exact Ht0|]. by apply IH.
Qed.

Lemma escrow_sound_steps this w w' :
  outside_steps this w w' → consistent w → escrow_sound this w → escrow_sound this w'.
Proof.
  induction 1 as [|w sender c w' Hs Ht _ IH]; [done|]. intros Hc He.
  apply IH; [by apply consistent_next | by apply escrow_sound_next].
Qed.

Lemma in_service_reachable this w : in_service this w → reachable this w.
Proof. intros (r & d & _ & H). exists r, d. by apply outside_steps_steps. Qed.

Lemma in_service_escrow_sound this w : in_service this w → escrow_sound this w.
Proof.
  intros (r & d & Hseq & H). eapply escrow_sound_steps; [done|apply consistent_deployed|].
  split_and!; [done| |]; simpl; intros *; by rewrite lookup_empty.
Qed.

Lemma in_service_next this w sender c :
  in_service this w → sender ≠ zeroAddress → sender ≠ this →
  in_service this (next this sender c w).
Proof. intros (r & d & Hseq & H) Hs Ht. exists r, d. split; [done|]. by apply outside_steps_snoc. Qed.

(** ** Further properties of the swap operations *)

(** Runs the checks of a call as far as the hypotheses [HA] and [HB] on the
    registry decide them. *)
Ltac run_checks HA HB :=
  repeat (progress (unfold_call; unfold ownerOf; simpl; autorewrite with world;
                    rewrite ?HA, ?HB; simpl;
                    rewrite ?bool_decide_eq_true_2 by done; simpl)).

(** X1: the checks of [createSwap] are made in a fixed order and the first
    one that fails decides the failure: pause, identical assets, ownership of
    the offered asset, the counterparty's ownership of the wanted asset, the
    coordinator's approval for the offered asset.  When all hold the call
    succeeds (short of [2^256 - 1] swaps) and returns [nextSwapId]: once the
    checks have passed, the escrow transfer cannot fail. *)
Theorem createSwap_first_failure_wins this sender tokA tokBOwner tokB w :
  entered w = false →
  createSwap this sender tokA tokBOwner tokB w =
  if paused w then Revert SystemPaused
  else if bool_decide (tokA = tokB) then Revert IdenticalAssets
  else match asset tokA w, asset tokB w with
       | None, _ => Revert UnknownAsset
       | Some aA, oB =>
           if bool_decide (holder aA ≠ sender) then Revert NotOwner
           else match oB with
           | None => Revert UnknownAsset
           | Some aB =>
               if bool_decide (holder aB ≠ tokBOwner) then Revert CounterpartyMismatch
               else if bool_decide (operator aA ≠ Some this) then Revert NotApprovedA
               else if bool_decide (MAX_UINT256 ≤ nextSwapId w) then Revert ArithmeticOverflow
               else Success (nextSwapId w,
                             created this (nextSwapId w) sender tokA tokBOwner tokB aA w)
           end
       end.
Proof.
  intros He. destruct (paused w) eqn:Hp; [by apply whenNotPaused_paused|].
  unfold createSwap at 1. rewrite whenNotPaused_running by done.
  case_bool_decide as Hne.
  { apply nonReentrant_Revert; [done|]. unfold_call.
    by rewrite bool_decide_eq_false_2 by (intros Hne'; by apply Hne'). }
  destruct (asset tokA w) as [aA|] eqn:HA.
  2:{ apply nonReentrant_Revert; [done|]. by run_checks HA HA. }
  case_bool_decide as HhA.
  { apply nonReentrant_Revert; [done|]. run_checks HA HA.
    by rewrite bool_decide_eq_false_2. }
  destruct (asset tokB w) as [aB|] eqn:HB.
  2:{ apply nonReentrant_Revert; [done|]. by run_checks HA HB. }
  case_bool_decide as HhB.
  { apply nonReentrant_Revert; [done|]. run_checks HA HB.
    by rewrite bool_decide_eq_false_2. }
  case_bool_decide as HoA.
  { apply nonReentrant_Revert; [done|]. run_checks HA HB.
    by rewrite bool_decide_eq_false_2. }
  case_bool_decide as Hmax.
  { apply nonReentrant_Revert; [done|]. run_checks HA HB.
    unfold postIncrementNextSwapId. run_checks HA HB.
    by rewrite bool_decide_eq_false_2 by lia. }
  rewrite <- (whenNotPaused_running _ w Hp).
  apply (proj2 (createSwap_Success this sender tokA tokBOwner tokB w _ _)).
  split_and!; [done|done|done|lia|done|]. by exists aA, aB.
Qed.

Lemma createSwap_first_failure_wins_witness :
  createSwap Scenario.coordinator Scenario.alice 1 Scenario.bob 2 Scenario.minted
  = Revert NotApprovedA.
Proof.
  rewrite (createSwap_first_failure_wins Scenario.coordinator Scenario.alice 1 Scenario.bob 2
             Scenario.minted) by reflexivity.
  vm_compute. reflexivity.
Defined.

Lemma in_service_offered : in_service Scenario.coordinator Scenario.offered.
Proof.
  unfold Scenario.offered, Scenario.authorised, Scenario.minted.
  repeat (apply in_service_next; [|done|done]).
  exists (mkRegistry ∅ 1 false Scenario.admin), Scenario.admin.
  split; [|constructor]. intros t a H. unfold asset in H. simpl in H.
  by rewrite lookup_empty in H.
Qed.

Lemma in_service_approved : in_service Scenario.coordinator Scenario.approved.
Proof. apply in_service_next; [apply in_service_offered|done|done]. Qed.

(** X2: while the system serves outside accounts, the asset offered by a
    Pending swap is in escrow: the coordinator holds it, it has no operator,
    and no other Pending swap offers it. *)
Theorem pending_offer_is_in_escrow this w swapId s :
  in_service this w →
  swaps w !! swapId = Some s → executed s = false →
  currentHolder (tokenA s) w = Some this ∧
  asset (tokenA s) w ≫= operator = None ∧
  ∀ swapId' s', swaps w !! swapId' = Some s' → executed s' = false →
                tokenA s' = tokenA s → swapId' = swapId.
Proof.
  intros Hin Hl Hex. apply in_service_escrow_sound in Hin as (_ & Hesc & Hdist).
  destruct (Hesc _ _ Hl Hex) as (a & Ha & Hh & Ho).
  unfold currentHolder. rewrite Ha. simpl. rewrite Hh, Ho. split_and!; [done|done|].
  intros i s' Hl' Hex' Heq. by eapply Hdist.
Qed.

Lemma pending_offer_is_in_escrow_witness :
  currentHolder 1 Scenario.offered = Some Scenario.coordinator ∧
  asset 1 Scenario.offered ≫= operator = None ∧
  ∀ swapId' s', swaps Scenario.offered !! swapId' = Some s' → executed s' = false →
                tokenA s' = 1 → swapId' = 1.
Proof.
  apply (pending_offer_is_in_escrow Scenario.coordinator Scenario.offered 1
           (mkSwap Scenario.alice 1 Scenario.bob 2 false)).
  - apply in_service_offered.
  - vm_compute. reflexivity.
  - reflexivity.
Defined.

(** X3: while the system serves outside accounts and is not paused, the
    proposer of a Pending swap can always withdraw it: [cancelSwap] called by
    the proposer succeeds and gives the offered asset back. *)
Theorem proposer_can_always_withdraw this w swapId s :
  in_service this w →
  swaps w !! swapId = Some s → executed s = false → paused w = false →
  ∃ w', cancelSwap this (tokenAOwner s) swapId w = Success (tt, w') ∧
        currentHolder (tokenA s) w' = Some (tokenAOwner s) ∧
        swaps w' !! swapId = None.
Proof.
  intros Hin Hl Hex Hp.
  apply in_service_reachable in Hin as Hr. apply consistent_reachable in Hr as (He & _).
  apply in_service_escrow_sound in Hin as (_ & Hesc & _).
  destruct (Hesc _ _ Hl Hex) as (a & Ha & Hh & _).
  exists (cancelled this swapId s a w). split_and!.
  - apply cancelSwap_Success. rewrite (swapAt_Some _ _ _ Hl). split_and!; try done. by exists a.
  - unfold currentHolder. rewrite asset_cancelled. by rewrite decide_True.
  - simpl. by rewrite lookup_delete_eq.
Qed.

Lemma proposer_can_always_withdraw_witness :
  ∃ w', cancelSwap Scenario.coordinator Scenario.alice 1 Scenario.approved = Success (tt, w') ∧
        currentHolder 1 w' = Some Scenario.alice ∧
        swaps w' !! 1 = None.
Proof.
  apply (proposer_can_always_withdraw Scenario.coordinator Scenario.approved 1
           (mkSwap Scenario.alice 1 Scenario.bob 2 false)).
  - apply in_service_approved.
  - vm_compute. reflexivity.
  - reflexivity.
  - reflexivity.
Defined.

(** X4: while the system serves outside accounts and is not paused, the
    counterparty of a Pending swap who still holds the wanted asset and has
    approved the coordinator for it can always accept: [acceptSwap] called by
    the counterparty succeeds. *)
Theorem counterparty_can_always_accept this w swapId s :
  in_service this w →
  swaps w !! swapId = Some s → executed s = false → paused w = false →
  currentHolder (tokenB s) w = Some (tokenBOwner s) →
  asset (tokenB s) w ≫= operator = Some this →
  ∃ w', acceptSwap this (tokenBOwner s) swapId w = Success (tt, w') ∧
        currentHolder (tokenA s) w' = Some (tokenBOwner s) ∧
        currentHolder (tokenB s) w' = Some (tokenAOwner s).
Proof.
  intros Hin Hl Hex Hp HhB HoB.
  apply in_service_reachable in Hin as Hr.
  apply consistent_reachable in Hr as (He & _ & Hall).
  destruct (Hall _ _ Hl) as (_ & Hne & _).
  apply in_service_escrow_sound in Hin as (_ & Hesc & _).
  destruct (Hesc _ _ Hl Hex) as (aA & HA & HhA & _).
  unfold currentHolder in HhB.
  destruct (asset (tokenB s) w) as [aB|] eqn:HB; [|done]. simpl in HhB, HoB.
  injection HhB as HhB.
  set (aB' := mkAsset this None (metadata aB)).
  exists (accepted this swapId s aB aA aB' w). split_and!.
  - apply acceptSwap_Success. rewrite (swapAt_Some _ _ _ Hl).
    split_and!; try done. exists aB, aA, aB'. split_and!; try done.
    + rewrite asset_transferred. autorewrite with world. by rewrite decide_False.
    + rewrite !asset_transferred. rewrite decide_False by done. by rewrite decide_True.
  - unfold currentHolder. rewrite asset_accepted.
    rewrite decide_False by done. by rewrite decide_True.
  - unfold currentHolder. rewrite asset_accepted. by rewrite decide_True.
Qed.

Lemma counterparty_can_always_accept_witness :
  ∃ w', acceptSwap Scenario.coordinator Scenario.bob 1 Scenario.approved = Success (tt, w') ∧
        currentHolder 1 w' = Some Scenario.bob ∧
        currentHolder 2 w' = Some Scenario.alice.
Proof.
  apply (counterparty_can_always_accept Scenario.coordinator Scenario.approved 1
           (mkSwap Scenario.alice 1 Scenario.bob 2 false)).
  - apply in_service_approved.
  - vm_compute. reflexivity.
  - reflexivity.
  - reflexivity.
  - vm_compute. reflexivity.
  - vm_compute. reflexivity.
Defined.

(** X5: the life cycle of a swap.  A transaction does one of four things to
    the stored swaps: nothing, store a new Pending swap under [nextSwapId],
    mark one Pending swap executed, or erase one Pending swap.  An executed
    swap is never changed again and an identifier once erased, or passed
    over, is never filled again. *)
Theorem swap_life_cycle this w sender c :
  reachable this w → sender ≠ zeroAddress →
  storage_step sender w (next this sender c w) ∧
  (∀ swapId s w', swaps w !! swapId = Some s → executed s = true →
     steps this w w' → swaps w' !! swapId = Some s) ∧
  (∀ swapId w', swapId < nextSwapId w → swaps w !! swapId = None →
     steps this w w' → swaps w' !! swapId = None).
Proof.
  intros Hr Hs. apply consistent_reachable in Hr as Hc. split_and!.
  - by apply next_storage_step.
  - intros swapId s w' Hl Hex Hsteps. by eapply steps_executed.
  - intros swapId w' Hlt Hl Hsteps. by eapply steps_erased.
Qed.

Lemma swap_life_cycle_witness :
  storage_step Scenario.bob Scenario.approved
    (next Scenario.coordinator Scenario.bob (AcceptSwap 1) Scenario.approved) ∧
  (∀ swapId s w', swaps Scenario.approved !! swapId = Some s → executed s = true →
     steps Scenario.coordinator Scenario.approved w' → swaps w' !! swapId = Some s) ∧
  (∀ swapId w', swapId < nextSwapId Scenario.approved →
     swaps Scenario.approved !! swapId = None →
     steps Scenario.coordinator Scenario.approved w' → swaps w' !! swapId = None).
Proof.
  apply (swap_life_cycle Scenario.coordinator Scenario.approved Scenario.bob (AcceptSwap 1)).
  - apply reachable_approved.
  - done.
Defined.

(** ** The facts a call emits *)

Lemma run_emitted this sender c w v w' :
  run this sender c w = Success (v, w') → facts w' = facts w ++ emitted this sender c w.
Proof.
  intros H. destruct c; simpl in H; inv_success.
  - match goal with H : createSwap _ _ _ _ _ _ = _ |- _ =>
      apply createSwap_Success in H
        as (_ & _ & _ & _ & -> & aA & aB & _ & _ & _ & _ & _ & ->) end.
    simpl. by rewrite <- !app_assoc.
  - match goal with H : acceptSwap _ _ _ _ = _ |- _ =>
      apply acceptSwap_Success in H
        as (_ & _ & _ & _ & aB & aA & aB' & _ & _ & _ & _ & _ & _ & _ & ->) end.
    simpl. by rewrite <- !app_assoc.
  - match goal with H : cancelSwap _ _ _ _ = _ |- _ =>
      apply cancelSwap_Success in H as (_ & _ & _ & _ & aA & _ & _ & ->) end.
    simpl. by rewrite <- !app_assoc.
  - unfold pause, onlyOwner in *. inv_success. simpl. by rewrite app_nil_r.
  - unfold unpause, onlyOwner in *. inv_success. simpl. by rewrite app_nil_r.
  - unfold mint, cardWhenNotPaused, _safeMint, _setTokenURI, incrementNextTokenId in *.
    inv_success. done.
  - unfold approve in *. inv_success. simpl. by rewrite app_nil_r.
  - inv_transfers. done.
  - unfold cardPause, cardOnlyOwner in *. inv_success. simpl. by rewrite app_nil_r.
  - unfold cardUnpause, cardOnlyOwner in *. inv_success. simpl. by rewrite app_nil_r.
Qed.

(** X6: the log is append-only, and what a transaction appends is fixed by
    the call and the world it starts in: the facts listed by [emitted] when
    the call succeeds, nothing when it fails. *)
Theorem transaction_appends_its_facts this sender c w :
  facts (next this sender c w) =
  facts w ++ match (transact this sender c w).1 with
             | Returned _ => emitted this sender c w
             | Failed _ => []
             end.
Proof.
  unfold next, transact.
  destruct (run this sender c w) as [[v w']|e] eqn:E; simpl.
  - by eapply run_emitted.
  - by rewrite app_nil_r.
Qed.

(** ** The card registry *)

Lemma run_asset_step this sender c w v w' :
  is_mint c = false →
  run this sender c w = Success (v, w') →
  (∀ t, asset_step (asset t w) (asset t w')) ∧
  _nextTokenId (pokemonCard w') = _nextTokenId (pokemonCard w).
Proof.
  intros Hc H. destruct c; try discriminate Hc; simpl in H; inv_success.
  - match goal with H : createSwap _ _ _ _ _ _ = _ |- _ =>
      apply createSwap_Success in H
        as (_ & _ & _ & _ & -> & aA & aB & HA & _ & _ & _ & _ & ->) end.
    split; [|done]. intros t. rewrite asset_created.
    case_decide; [subst; rewrite HA|]; constructor.
  - match goal with H : acceptSwap _ _ _ _ = _ |- _ =>
      apply acceptSwap_Success in H
        as (_ & _ & _ & _ & aB & aA & aB' & HB & _ & _ & HA & _ & HB' & _ & ->) end.
    split; [|done]. intros t. rewrite asset_accepted.
    rewrite !asset_transferred in HB'. rewrite asset_transferred in HA.
    autorewrite with world in HA, HB'.
    repeat case_decide; simplify_eq; rewrite ?HB, ?HA; simpl;
      first [apply asset_same | apply asset_handed | apply (asset_handed aB)].
  - match goal with H : cancelSwap _ _ _ _ = _ |- _ =>
      apply cancelSwap_Success in H as (_ & _ & _ & _ & aA & HA & _ & ->) end.
    split; [|done]. intros t. rewrite asset_cancelled.
    case_decide; [subst; rewrite HA|]; constructor.
  - unfold pause, onlyOwner in *. inv_success. split; [constructor|done].
  - unfold unpause, onlyOwner in *. inv_success. split; [constructor|done].
  - match goal with H : approve _ _ _ _ = _ |- _ =>
      apply approve_Success in H as (Hn & a0 & Ha0 & Hh0 & Hass) end.
    split; [|done]. intros t. rewrite Hass.
    case_decide; [subst; rewrite Ha0|]; constructor.
  - match goal with H : transferFrom _ _ _ _ _ = _ |- _ =>
      apply transferFrom_Success in H as (a0 & Ha0 & Hh0 & Hauth & ->) end.
    split; [|done]. intros t. rewrite asset_transferred.
    case_decide; [subst; rewrite Ha0|]; constructor.
  - unfold cardPause, cardOnlyOwner in *. inv_success. split; [constructor|done].
  - unfold cardUnpause, cardOnlyOwner in *. inv_success. split; [constructor|done].
Qed.

Lemma dense_sequential w : dense w → sequential w.
Proof. intros [_ H] t a Ha. by apply H. Qed.

Lemma dense_next this sender c w : dense w → dense (next this sender c w).
Proof.
  intros [H1 Hd]. unfold next, transact.
  destruct (run this sender c w) as [[v w']|e] eqn:E; [|done]. simpl.
  destruct (is_mint c) eqn:Hc.
  - destruct c; try discriminate Hc. simpl in E. inv_success.
    match goal with H : mint _ _ _ _ = _ |- _ => apply mint_Success in H as (Hn & Hass) end.
    split; [lia|]. intros t. rewrite Hass, Hn. case_decide; [subst|].
    + split; [lia|]. by eexists.
    + rewrite Hd. lia.
  - destruct (run_asset_step _ _ _ _ _ _ Hc E) as [Hstep Hn].
    split; [lia|]. intros t. rewrite Hn, <- Hd.
    destruct (Hstep t); [done|]. split; by eexists.
Qed.

Lemma dense_steps this w w' : dense w → steps this w w' → dense w'.
Proof. intros H Hs. induction Hs; [done|]. by apply IHHs, dense_next. Qed.

Lemma sequential_next this sender c w : sequential w → sequential (next this sender c w).
Proof.
  intros Hseq. unfold next, transact.
  destruct (run this sender c w) as [[v w']|e] eqn:E; [|done]. simpl.
  destruct (is_mint c) eqn:Hc.
  - destruct c; try discriminate Hc. simpl in E. inv_success.
    match goal with H : mint _ _ _ _ = _ |- _ => apply mint_Success in H as (Hn & Hass) end.
    intros t a. rewrite Hass, Hn. case_decide; [lia|]. intros Ha. apply Hseq in Ha. lia.
  - destruct (run_asset_step _ _ _ _ _ _ Hc E) as [Hstep Hn].
    intros t a. rewrite Hn. specialize (Hstep t).
    inversion Hstep as [o Ho1 Ho2|a0 h op Ho1 Ho2].
    + intros Ha. apply (Hseq t a). congruence.
    + intros _. by apply (Hseq t a0).
Qed.

Lemma dense_deployed admin deployer : dense (deployed (newRegistry admin) deployer).
Proof.
  split; [done|]. intros t. unfold asset. simpl. rewrite lookup_empty.
  split; [by intros [? ?]|lia].
Qed.

Lemma launched_dense this w : launched this w → dense w.
Proof. intros (admin & deployer & H). eapply dense_steps; [apply dense_deployed|done]. Qed.

Lemma launched_next this w sender c :
  launched this w → sender ≠ zeroAddress → launched this (next this sender c w).
Proof. intros (r & d & H) Hs. exists r, d. by apply steps_snoc. Qed.

Lemma launched_genesis : launched Scenario.coordinator Scenario.genesis.
Proof. exists Scenario.admin, Scenario.admin. constructor. Qed.

Lemma launched_minted : launched Scenario.coordinator Scenario.minted.
Proof.
  unfold Scenario.minted. do 2 (apply launched_next; [|done]). apply launched_genesis.
Qed.

Lemma launched_offered : launched Scenario.coordinator Scenario.offered.
Proof.
  unfold Scenario.offered, Scenario.authorised.
  do 2 (apply launched_next; [|done]). apply launched_minted.
Qed.

Lemma next_asset_kept this sender c w t a :
  sequential w → asset t w = Some a →
  ∃ a', asset t (next this sender c w) = Some a' ∧ metadata a' = metadata a.
Proof.
  intros Hseq Ha. unfold next, transact.
  destruct (run this sender c w) as [[v w']|e] eqn:E; [|by exists a]. simpl.
  destruct (is_mint c) eqn:Hc.
  - destruct c; try discriminate Hc. simpl in E. inv_success.
    match goal with H : mint _ _ _ _ = _ |- _ => apply mint_Success in H as (Hn & Hass) end.
    exists a. rewrite Hass. split; [|done]. rewrite decide_False; [done|].
    apply Hseq in Ha. lia.
  - destruct (run_asset_step _ _ _ _ _ _ Hc E) as [Hstep _]. specialize (Hstep t).
    rewrite Ha in Hstep. inversion Hstep; by eexists.
Qed.

(** X7: a card is permanent.  Once created it exists after every later
    sequence of transactions, whoever sends them, and [tokenURI] keeps
    returning the metadata reference it was created with: no entry point
    burns a card or rewrites its metadata. *)
Theorem cards_are_permanent this w w' t a :
  sequential w → steps this w w' → asset t w = Some a →
  tokenURI t w' = Success (metadata a, w') ∧ is_Some (currentHolder t w').
Proof.
  intros Hseq Hs Ha.
  assert (∃ a', asset t w' = Some a' ∧ metadata a' = metadata a) as (a' & Ha' & Hm).
  { revert a Ha. induction Hs as [w|w sender c w' Hsender Hs IH]; intros a Ha; [by exists a|].
    destruct (next_asset_kept this sender c w t a Hseq Ha) as (a1 & Ha1 & Hm1).
    destruct (IH (sequential_next _ _ _ _ Hseq) a1 Ha1) as (a' & Ha' & Hm').
    exists a'. split; [done|congruence]. }
  unfold tokenURI, currentHolder. rewrite Ha', Hm. split; [done|by eexists].
Qed.

Lemma cards_are_permanent_witness :
  tokenURI 1 Scenario.offered = Success ("pikachu", Scenario.offered) ∧
  is_Some (currentHolder 1 Scenario.offered).
Proof.
  apply (cards_are_permanent Scenario.coordinator Scenario.minted Scenario.offered 1
           (mkAsset Scenario.alice None "pikachu")).
  - apply dense_sequential, (launched_dense Scenario.coordinator), launched_minted.
  - unfold Scenario.offered, Scenario.authorised.
    do 2 (apply steps_snoc; [|done]). constructor.
  - vm_compute. reflexivity.
Defined.

(** X8: from the construction of the registry on, the cards in existence are
    exactly those numbered from 1 up to (and without) [nextTokenId()]:
    [ownerOf] answers for each of them and fails for every other number. *)
Theorem card_ids_are_dense this w :
  launched this w →
  ∃ n, nextTokenId w = Success (n, w) ∧ 1 ≤ n ∧
       ∀ t, if bool_decide (1 ≤ t < n) then ∃ h, ownerOf t w = Success (h, w)
            else ownerOf t w = Revert UnknownAsset.
Proof.
  intros [H1 Hd]%launched_dense. eexists. split; [reflexivity|]. split; [done|].
  intros t. specialize (Hd t). unfold ownerOf. case_bool_decide as Ht.
  - apply Hd in Ht as [a ->]. by eexists.
  - destruct (asset t w) eqn:Ha; [|done]. exfalso. apply Ht, Hd. by eexists.
Qed.

Lemma card_ids_are_dense_witness :
  ∃ n, nextTokenId Scenario.offered = Success (n, Scenario.offered) ∧ 1 ≤ n ∧
       ∀ t, if bool_decide (1 ≤ t < n) then ∃ h, ownerOf t Scenario.offered = Success (h, Scenario.offered)
            else ownerOf t Scenario.offered = Revert UnknownAsset.
Proof. apply (card_ids_are_dense Scenario.coordinator Scenario.offered), launched_offered. Defined.



(** ** Pausing the registry *)

Lemma flag_blind_ret {A : Type} (a : A) : flag_blind (mret a).
Proof. by intros b w. Qed.

Lemma flag_blind_bind {A B : Type} (m : M A) (k : A → M B) :
  flag_blind m → (∀ a, flag_blind (k a)) → flag_blind (m ≫= k).
Proof.
  intros Hm Hk b w. unfold mbind, M_bind. rewrite Hm.
  destruct (m w) as [[a w']|e]; [apply Hk|done].
Qed.

Lemma flag_blind_gets {A : Type} (f : World → A) :
  (∀ b w, f (setCreationPaused b w) = f w) → flag_blind (gets f).
Proof. intros H b w. unfold gets. by rewrite H. Qed.

Lemma flag_blind_modify (u : World → World) :
  (∀ b w, u (setCreationPaused b w) = setCreationPaused b (u w)) → flag_blind (modify u).
Proof. intros H b w. unfold modify. by rewrite H. Qed.

Lemma flag_blind_require cond e : flag_blind (require cond e).
Proof. by destruct cond. Qed.

Lemma flag_blind_ownerOf tokenId : flag_blind (ownerOf tokenId).
Proof.
  intros b w. unfold ownerOf.
  change (asset tokenId (setCreationPaused b w)) with (asset tokenId w).
  by destruct (asset tokenId w).
Qed.

(** Decomposes a computation into its reads, writes and checks. *)
Ltac solve_flag_blind :=
  repeat first
    [ apply flag_blind_ret
    | apply flag_blind_require
    | apply flag_blind_ownerOf
    | apply flag_blind_gets; reflexivity
    | apply flag_blind_modify; reflexivity
    | apply flag_blind_bind; [|intros ?] ].

Lemma flag_blind_transferFrom sender from to tokenId :
  flag_blind (transferFrom sender from to tokenId).
Proof. unfold transferFrom, getApproved, emit. solve_flag_blind. Qed.

Lemma flag_blind_nonReentrant {A : Type} (body : M A) :
  flag_blind body → flag_blind (whenNotPaused (nonReentrant body)).
Proof. intros H. unfold whenNotPaused, nonReentrant. solve_flag_blind. exact H. Qed.

Lemma flag_blind_run this sender c :
  match c with Mint _ _ | CardPause | CardUnpause => True
          | _ => flag_blind (run this sender c) end.
Proof.
  destruct c; try done; simpl.
  - apply flag_blind_bind; [|intros ?; apply flag_blind_ret].
    apply flag_blind_nonReentrant.
    unfold createSwapBody, getApproved, postIncrementNextSwapId, emit.
    solve_flag_blind; apply flag_blind_transferFrom.
  - apply flag_blind_bind; [|intros ?; apply flag_blind_ret].
    apply flag_blind_nonReentrant.
    unfold acceptSwapBody, acceptSwapBodyVia, read, getApproved, markExecuted, emit.
    solve_flag_blind; apply flag_blind_transferFrom.
  - apply flag_blind_bind; [|intros ?; apply flag_blind_ret].
    apply flag_blind_nonReentrant.
    unfold cancelSwapBody, cancelSwapBodyVia, read, emit.
    solve_flag_blind; apply flag_blind_transferFrom.
  - unfold pause, onlyOwner. solve_flag_blind.
  - unfold unpause, onlyOwner. solve_flag_blind.
  - unfold approve. solve_flag_blind.
  - apply flag_blind_bind; [|intros ?; apply flag_blind_ret].
    apply flag_blind_transferFrom.
Qed.

(** X10: the registry's pause stops the creation of cards and nothing else.
    [mint] fails on a paused registry; every other call of either contract
    (swaps, approvals, transfers, the coordinator's own pause) gives the same
    outcome and makes the same changes whether the registry is paused or not.
    No call but the registry's [pause] and [unpause] changes the registry's
    flag, a successful [mint] included, and these two change it only for the
    registry's owner. *)
Theorem card_pause_stops_only_minting this sender c b w :
  match c with
  | Mint _ _ =>
      transact this sender c (setCreationPaused true w)
      = (Failed SystemPaused, setCreationPaused true w) ∧
      creationPaused (pokemonCard (next this sender c w)) = creationPaused (pokemonCard w)
  | CardPause =>
      next this sender c w
      = if bool_decide (registryAdmin (pokemonCard w) = sender)
        then setCreationPaused true w else w
  | CardUnpause =>
      next this sender c w
      = if bool_decide (registryAdmin (pokemonCard w) = sender)
        then setCreationPaused false w else w
  | _ =>
      transact this sender c (setCreationPaused b w)
      = ((transact this sender c w).1, setCreationPaused b (next this sender c w)) ∧
      creationPaused (pokemonCard (next this sender c w)) = creationPaused (pokemonCard w)
  end.
Proof.
  pose proof (flag_blind_run this sender c) as H.
  assert (setCreationPaused (creationPaused (pokemonCard w)) w = w) as Hsame.
  { destruct w as [[? ? ? ?] ? ? ? ? ? ?]. reflexivity. }
  destruct c;
    try (split;
         [ unfold next, transact; rewrite (H b w);
           by destruct (run this sender _ w) as [[v w']|e]
         | specialize (H (creationPaused (pokemonCard w)) w); rewrite Hsame in H;
           unfold next, transact;
           destruct (run this sender _ w) as [[v w']|e]; [|done];
           simpl; injection H as H; by rewrite H ]).
  - split; [done|]. unfold next, transact.
    destruct (run this sender (Mint to uri) w) as [[v w']|e] eqn:E; [|done].
    simpl in E. inv_success.
    unfold mint, cardWhenNotPaused, _safeMint, _setTokenURI, incrementNextTokenId in *.
    by inv_success.
  - unfold next, transact. simpl. unfold cardPause, cardOnlyOwner. unfold_call.
    by case_bool_decide.
  - unfold next, transact. simpl. unfold cardUnpause, cardOnlyOwner. unfold_call.
    by case_bool_decide.
Qed.

(** ** The order of the checks of [cancelSwap] and [acceptSwap] *)

(** X11: the checks of [cancelSwap] are made in a fixed order and the first
    one that fails decides the failure: pause, the swap is not executed, the
    caller is the recorded proposer, and then the registry's own checks on
    the transfer back (the offered asset exists and the coordinator holds
    it).  When all hold the call succeeds.  An id with no record reads as the
    all-zero swap and goes through the same checks. *)
Theorem cancelSwap_first_failure_wins this sender swapId w :
  entered w = false →
  cancelSwap this sender swapId w =
  let s := swapAt swapId w in
  if paused w then Revert SystemPaused
  else if executed s then Revert SwapNotPending
  else if bool_decide (sender ≠ tokenAOwner s) then Revert NotProposer
  else match asset (tokenA s) w with
       | None => Revert UnknownAsset
       | Some aA =>
           if bool_decide (holder aA ≠ this) then Revert NotHolder
           else Success (tt, cancelled this swapId s aA w)
       end.
Proof.
  intros He. simpl. destruct (paused w) eqn:Hp; [by apply whenNotPaused_paused|].
  destruct (executed (swapAt swapId w)) eqn:Hex; [by apply cancelSwap_not_pending|].
  case_bool_decide as Hs; [by apply cancelSwap_not_proposer|].
  destruct (asset (tokenA (swapAt swapId w)) w) as [aA|] eqn:HA.
  2:{ unfold cancelSwap. rewrite whenNotPaused_running by done.
      apply nonReentrant_Revert; [done|]. unfold_call. rewrite Hex. simpl.
      rewrite bool_decide_eq_true_2 by done. simpl.
      unfold transferFrom, ownerOf. unfold_call. autorewrite with world. by rewrite HA. }
  case_bool_decide as Hh.
  { unfold cancelSwap. rewrite whenNotPaused_running by done.
    apply nonReentrant_Revert; [done|]. unfold_call. rewrite Hex. simpl.
    rewrite bool_decide_eq_true_2 by done. simpl. autorewrite with world.
    assert (transferFrom this this (tokenAOwner (swapAt swapId w)) (tokenA (swapAt swapId w))
              (set_entered true w) = Revert NotHolder) as ->; [|done].
    apply transferFrom_Revert. autorewrite with world. rewrite HA.
    rewrite bool_decide_eq_false_2; [done|]. congruence. }
  apply (proj2 (cancelSwap_Success this sender swapId w _ tt)).
  split_and!; try done. by exists aA.
Qed.

Lemma cancelSwap_first_failure_wins_witness :
  cancelSwap Scenario.coordinator Scenario.bob 1 Scenario.offered = Revert NotProposer.
Proof.
  rewrite (cancelSwap_first_failure_wins Scenario.coordinator Scenario.bob 1 Scenario.offered)
    by reflexivity.
  vm_compute. reflexivity.
Defined.

Lemma transferFrom_run sender from to tokenId a w :
  asset tokenId w = Some a → holder a = from →
  sender = from ∨ operator a = Some sender →
  transferFrom sender from to tokenId w = Success (tt, transferred from to tokenId a w).
Proof. intros Ha Hh Hauth. apply transferFrom_Success. by exists a. Qed.

(** X12: the checks of [acceptSwap] are made in a fixed order and the first
    one that fails decides the failure: pause, the swap is not executed, the
    caller is the recorded counterparty, the coordinator is the approved
    operator of the wanted asset, and then the registry's own checks on the
    transfers (the counterparty holds the wanted asset; the offered asset
    exists and is held by the coordinator).  When all hold the call succeeds:
    the third transfer cannot fail.  Stated for a swap over two different
    assets of which the wanted one exists, as every stored swap is. *)
Theorem acceptSwap_first_failure_wins this sender swapId w aB :
  entered w = false →
  tokenA (swapAt swapId w) ≠ tokenB (swapAt swapId w) →
  asset (tokenB (swapAt swapId w)) w = Some aB →
  acceptSwap this sender swapId w =
  let s := swapAt swapId w in
  if paused w then Revert SystemPaused
  else if executed s then Revert SwapNotPending
  else if bool_decide (sender ≠ tokenBOwner s) then Revert NotCounterparty
  else if bool_decide (operator aB ≠ Some this) then Revert NotApprovedB
  else if bool_decide (holder aB ≠ sender) then Revert NotHolder
  else match asset (tokenA s) w with
       | None => Revert UnknownAsset
       | Some aA =>
           if bool_decide (holder aA ≠ this) then Revert NotHolder
           else Success (tt, accepted this swapId s aB aA
                               (mkAsset this None (metadata aB)) w)
       end.
Proof.
  intros He Hne HB. simpl. destruct (paused w) eqn:Hp; [by apply whenNotPaused_paused|].
  destruct (executed (swapAt swapId w)) eqn:Hex; [by apply acceptSwap_not_pending|].
  case_bool_decide as Hs; [by apply acceptSwap_not_counterparty|].
  case_bool_decide as Ho.
  { apply acceptSwap_not_approved; try done. by rewrite HB. }
  case_bool_decide as Hh; [by eapply acceptSwap_not_holder|].
  assert (∀ e,
    transferFrom this this (tokenBOwner (swapAt swapId w)) (tokenA (swapAt swapId w))
      (transferred (tokenBOwner (swapAt swapId w)) this (tokenB (swapAt swapId w)) aB
         (set_entered true w)) = Revert e →
    acceptSwap this sender swapId w = Revert e) as Hsecond.
  { intros e Hrev. unfold acceptSwap. rewrite whenNotPaused_running by done.
    apply nonReentrant_Revert; [done|]. unfold_call. rewrite Hex. simpl.
    rewrite bool_decide_eq_true_2 by done. simpl. autorewrite with world.
    rewrite HB. simpl. rewrite bool_decide_eq_true_2 by done. simpl.
    autorewrite with world.
    rewrite (transferFrom_run this _ this _ aB) by (autorewrite with world; auto; congruence).
    autorewrite with world. by rewrite Hrev. }
  destruct (asset (tokenA (swapAt swapId w)) w) as [aA|] eqn:HA.
  2:{ apply Hsecond, transferFrom_Revert. rewrite asset_transferred.
      rewrite decide_False by done. autorewrite with world. by rewrite HA. }
  case_bool_decide as HhA.
  { apply Hsecond, transferFrom_Revert. rewrite asset_transferred.
    rewrite decide_False by done. autorewrite with world. rewrite HA.
    rewrite bool_decide_eq_false_2; [done|]. congruence. }
  apply (proj2 (acceptSwap_Success this sender swapId w _ tt)).
  split_and!; try done. exists aB, aA, (mkAsset this None (metadata aB)). simpl.
  rewrite !asset_transferred. autorewrite with world.
  rewrite decide_False by done. rewrite decide_False by done. rewrite decide_True by done.
  split_and!; done.
Qed.

Lemma acceptSwap_first_failure_wins_witness :
  acceptSwap Scenario.coordinator Scenario.bob 1 Scenario.offered = Revert NotApprovedB.
Proof.
  rewrite (acceptSwap_first_failure_wins Scenario.coordinator Scenario.bob 1 Scenario.offered
             (mkAsset Scenario.bob None "bulbasaur")).
  - vm_compute. reflexivity.
  - reflexivity.
  - vm_compute. discriminate.
  - vm_compute. reflexivity.
Defined.

(** ** All-or-nothing calls *)

(** Reduces the table of checks after one of them has been decided. *)
Ltac rung := cbn [first_unmet negb].

Lemma createSwap_checks this sender tokA tokBOwner tokB w :
  entered w = false →
  match first_failure this sender (CreateSwap tokA tokBOwner tokB) w with
  | Some e => createSwap this sender tokA tokBOwner tokB w = Revert e
  | None => ∃ w', createSwap this sender tokA tokBOwner tokB w = Success (nextSwapId w, w')
  end.
Proof.
  intros He. unfold first_failure, preconditions. rung.
  destruct (paused w) eqn:Hp; rung; [by apply whenNotPaused_paused|].
  assert (∀ e, createSwapBody this sender tokA tokBOwner tokB (set_entered true w) = Revert e →
               createSwap this sender tokA tokBOwner tokB w = Revert e) as Hbody.
  { intros e H. unfold createSwap. rewrite whenNotPaused_running by done.
    by apply nonReentrant_Revert. }
  case_bool_decide as Hne; rung.
  2:{ apply Hbody. unfold_call.
      by rewrite bool_decide_eq_false_2 by (intros Hne'; by apply Hne'). }
  case_bool_decide as HA; rung.
  2:{ apply eq_None_not_Some in HA. apply Hbody. by run_checks HA HA. }
  destruct HA as [aA HA].
  case_bool_decide as HhA; rung.
  2:{ apply Hbody. run_checks HA HA. rewrite bool_decide_eq_false_2; [done|].
      intros Hh. apply HhA. unfold currentHolder. rewrite HA. simpl. by rewrite Hh. }
  case_bool_decide as HB; rung.
  2:{ apply eq_None_not_Some in HB. apply Hbody.
      unfold currentHolder in HhA. rewrite HA in HhA. injection HhA as HhA.
      by run_checks HA HB. }
  destruct HB as [aB HB].
  unfold currentHolder in HhA. rewrite HA in HhA. injection HhA as HhA.
  case_bool_decide as HhB; rung.
  2:{ apply Hbody. run_checks HA HB. rewrite bool_decide_eq_false_2; [done|].
      intros Hh. apply HhB. unfold currentHolder. rewrite HB. simpl. by rewrite Hh. }
  unfold currentHolder in HhB. rewrite HB in HhB. injection HhB as HhB.
  case_bool_decide as HoA; rung.
  2:{ apply Hbody. run_checks HA HB. rewrite bool_decide_eq_false_2; [done|].
      intros Ho. apply HoA. by rewrite HA. }
  rewrite HA in HoA. simpl in HoA.
  case_bool_decide as Hmax; rung.
  2:{ apply Hbody. run_checks HA HB. unfold postIncrementNextSwapId. run_checks HA HB.
      by rewrite bool_decide_eq_false_2. }
  eexists. apply createSwap_Success.
  split_and!; [done|done|done|done|done|]. by exists aA, aB.
Qed.

Lemma cancelSwap_checks this sender swapId w :
  entered w = false →
  match first_failure this sender (CancelSwap swapId) w with
  | Some e => cancelSwap this sender swapId w = Revert e
  | None => ∃ w', cancelSwap this sender swapId w = Success (tt, w')
  end.
Proof.
  intros He. unfold first_failure, preconditions. rung.
  destruct (paused w) eqn:Hp; rung; [by apply whenNotPaused_paused|].
  destruct (executed (swapAt swapId w)) eqn:Hex; rung; [by apply cancelSwap_not_pending|].
  case_bool_decide as Hs; rung; [|by apply cancelSwap_not_proposer].
  assert (∀ e,
    transferFrom this this (tokenAOwner (swapAt swapId w)) (tokenA (swapAt swapId w))
      (set_entered true w) = Revert e →
    cancelSwap this sender swapId w = Revert e) as Hback.
  { intros e Hrev. unfold cancelSwap. rewrite whenNotPaused_running by done.
    apply nonReentrant_Revert; [done|]. unfold_call. rewrite Hex. simpl.
    rewrite bool_decide_eq_true_2 by done. simpl. autorewrite with world.
    by rewrite Hrev. }
  case_bool_decide as HA; rung.
  2:{ apply eq_None_not_Some in HA. apply Hback, transferFrom_Revert.
      autorewrite with world. by rewrite HA. }
  destruct HA as [aA HA].
  case_bool_decide as Hh; rung.
  2:{ apply Hback, transferFrom_Revert. autorewrite with world. rewrite HA.
      rewrite bool_decide_eq_false_2; [done|].
      intros Hh'. apply Hh. unfold currentHolder. rewrite HA. simpl. by rewrite <- Hh'. }
  unfold currentHolder in Hh. rewrite HA in Hh. injection Hh as Hh.
  eexists. apply cancelSwap_Success. split_and!; try done. by exists aA.
Qed.

Lemma acceptSwap_checks this sender swapId w :
  entered w = false →
  (sender = tokenBOwner (swapAt swapId w) →
   tokenA (swapAt swapId w) ≠ tokenB (swapAt swapId w)) →
  match first_failure this sender (AcceptSwap swapId) w with
  | Some e => acceptSwap this sender swapId w = Revert e
  | None => ∃ w', acceptSwap this sender swapId w = Success (tt, w')
  end.
Proof.
  intros He Hne. unfold first_failure, preconditions. rung.
  destruct (paused w) eqn:Hp; rung; [by apply whenNotPaused_paused|].
  destruct (executed (swapAt swapId w)) eqn:Hex; rung; [by apply acceptSwap_not_pending|].
  case_bool_decide as Hs; rung; [|by apply acceptSwap_not_counterparty].
  specialize (Hne Hs).
  case_bool_decide as Ho; rung; [|by apply acceptSwap_not_approved].
  destruct (asset (tokenB (swapAt swapId w)) w) as [aB|] eqn:HB; [|done].
  simpl in Ho.
  case_bool_decide as Hh; rung.
  2:{ apply (acceptSwap_not_holder this sender swapId w aB); try done.
      intros Hh'. apply Hh. unfold currentHolder. rewrite HB. simpl. by rewrite Hh'. }
  unfold currentHolder in Hh. rewrite HB in Hh. injection Hh as Hh.
  assert (∀ e,
    transferFrom this this (tokenBOwner (swapAt swapId w)) (tokenA (swapAt swapId w))
      (transferred (tokenBOwner (swapAt swapId w)) this (tokenB (swapAt swapId w)) aB
         (set_entered true w)) = Revert e →
    acceptSwap this sender swapId w = Revert e) as Hsecond.
  { intros e Hrev. unfold acceptSwap. rewrite whenNotPaused_running by done.
    apply nonReentrant_Revert; [done|]. unfold_call. rewrite Hex. simpl.
    rewrite bool_decide_eq_true_2 by done. simpl. autorewrite with world.
    rewrite HB. simpl. rewrite bool_decide_eq_true_2 by done. simpl.
    autorewrite with world.
    rewrite (transferFrom_run this _ this _ aB) by (autorewrite with world; auto; congruence).
    autorewrite with world. by rewrite Hrev. }
  case_bool_decide as HA; rung.
  2:{ apply eq_None_not_Some in HA. apply Hsecond, transferFrom_Revert.
      rewrite asset_transferred. rewrite decide_False by done.
      autorewrite with world. by rewrite HA. }
  destruct HA as [aA HA].
  case_bool_decide as HhA; rung.
  2:{ apply Hsecond, transferFrom_Revert. rewrite asset_transferred.
      rewrite decide_False by done. autorewrite with world. rewrite HA.
      rewrite bool_decide_eq_false_2; [done|].
      intros Hh'. apply HhA. unfold currentHolder. rewrite HA. simpl. by rewrite <- Hh'. }
  unfold currentHolder in HhA. rewrite HA in HhA. injection HhA as HhA.
  eexists. apply acceptSwap_Success.
  split_and!; try done. exists aB, aA, (mkAsset this None (metadata aB)). simpl.
  rewrite !asset_transferred. autorewrite with world.
  rewrite decide_False by done. rewrite decide_False by done. rewrite decide_True by done.
  split_and!; done.
Qed.

Lemma first_unmet_Some checks holds e :
  (holds, e) ∈ checks → holds = false → ∃ e', first_unmet checks = Some e'.
Proof.
  intros Hin ->. induction checks as [|[holds' e''] rest IH]; [by apply elem_of_nil in Hin|].
  simpl. destruct holds'; [|by eexists].
  apply IH. by apply elem_of_cons in Hin as [[= ?]|Hin].
Qed.

(** The run of every entry point follows its table of checks: the first
    check that does not hold decides the failure, and when all hold the call
    goes through. *)
Lemma run_first_failure this sender c w :
  consistent w → sender ≠ zeroAddress →
  match first_failure this sender c w with
  | Some e => run this sender c w = Revert e
  | None => ∃ v w', run this sender c w = Success (v, w')
  end.
Proof.
  intros (He & _ & Hall) Hs. destruct c.
  - pose proof (createSwap_checks this sender tokA tokBOwner tokB w He) as H.
    destruct (first_failure _ _ _ _) as [e|]; simpl; unfold mbind, M_bind.
    + by rewrite H.
    + destruct H as [w' H]. rewrite H. by eexists _, _.
  - assert (sender = tokenBOwner (swapAt swapId w) →
            tokenA (swapAt swapId w) ≠ tokenB (swapAt swapId w)) as Hne.
    { intros Hb. assert (swaps w !! swapId = Some (swapAt swapId w)) as Hl.
      { apply swapAt_lookup. intros Hz. rewrite Hz in Hb. by apply Hs. }
      by destruct (Hall _ _ Hl) as (_ & ? & _). }
    pose proof (acceptSwap_checks this sender swapId w He Hne) as H.
    destruct (first_failure _ _ _ _) as [e|]; simpl; unfold mbind, M_bind.
    + by rewrite H.
    + destruct H as [w' H]. rewrite H. by eexists _, _.
  - pose proof (cancelSwap_checks this sender swapId w He) as H.
    destruct (first_failure _ _ _ _) as [e|]; simpl; unfold mbind, M_bind.
    + by rewrite H.
    + destruct H as [w' H]. rewrite H. by eexists _, _.
  - unfold first_failure, preconditions. rung. case_bool_decide as Ho; rung.
    + eexists _, _. by apply (proj2 (pause_Success this sender true w _ _)).
    + simpl. unfold pause, onlyOwner. unfold_call. by rewrite bool_decide_eq_false_2.
  - unfold first_failure, preconditions. rung. case_bool_decide as Ho; rung.
    + eexists _, _. by apply (proj2 (pause_Success this sender false w _ _)).
    + simpl. unfold unpause, onlyOwner. unfold_call. by rewrite bool_decide_eq_false_2.
  - unfold first_failure, preconditions. rung.
    destruct (creationPaused (pokemonCard w)) eqn:Hp; rung.
    { simpl. unfold mint, cardWhenNotPaused. unfold_call. by rewrite Hp. }
    case_bool_decide as Hz; rung.
    2:{ simpl. unfold mint, cardWhenNotPaused, _safeMint. unfold_call. rewrite Hp. simpl.
        by rewrite bool_decide_eq_false_2 by (intros Hz'; by apply Hz'). }
    case_bool_decide as Hfresh; rung.
    2:{ simpl. unfold mint, cardWhenNotPaused, _safeMint. unfold_call. rewrite Hp. simpl.
        rewrite bool_decide_eq_true_2 by done. simpl.
        by rewrite bool_decide_eq_false_2. }
    destruct (receives this to) eqn:Hr; rung.
    2:{ simpl. unfold mint, cardWhenNotPaused, _safeMint, modify. unfold_call.
        rewrite Hp, Hr. simpl.
        by do 2 (rewrite bool_decide_eq_true_2 by done; simpl). }
    case_bool_decide as Hmax; rung.
    2:{ simpl.
        unfold mint, cardWhenNotPaused, _safeMint, _setTokenURI, incrementNextTokenId, modify.
        unfold_call. rewrite Hp, Hr. simpl.
        do 2 (rewrite bool_decide_eq_true_2 by done; simpl).
        by rewrite bool_decide_eq_false_2. }
    simpl.
    unfold mint, cardWhenNotPaused, _safeMint, _setTokenURI, incrementNextTokenId, modify, emit.
    unfold_call. rewrite Hp, Hr. simpl.
    do 3 (rewrite bool_decide_eq_true_2 by done; simpl). by eexists _, _.
  - unfold first_failure, preconditions. rung.
    case_bool_decide as HA; rung.
    2:{ apply eq_None_not_Some in HA. simpl. unfold approve, ownerOf. unfold_call.
        by rewrite HA. }
    destruct HA as [a HA].
    case_bool_decide as Hh; rung.
    2:{ simpl. unfold approve, ownerOf. unfold_call. rewrite HA. simpl.
        rewrite bool_decide_eq_false_2; [done|].
        intros Hh'. apply Hh. unfold currentHolder. rewrite HA. simpl. by rewrite Hh'. }
    unfold currentHolder in Hh. rewrite HA in Hh. injection Hh as Hh.
    simpl. unfold approve, ownerOf, modify. unfold_call. rewrite HA. simpl.
    rewrite bool_decide_eq_true_2 by done. simpl. by eexists _, _.
  - unfold first_failure, preconditions. rung.
    assert (∀ e, transferFrom sender from to tokenId w = Revert e →
                 run this sender (TransferFrom from to tokenId) w = Revert e) as Hrev.
    { intros e H. simpl. unfold mbind, M_bind. by rewrite H. }
    case_bool_decide as HA; rung.
    2:{ apply eq_None_not_Some in HA. apply Hrev, transferFrom_Revert. by rewrite HA. }
    destruct HA as [a HA].
    case_bool_decide as Hh; rung.
    2:{ apply Hrev, transferFrom_Revert. rewrite HA.
        rewrite bool_decide_eq_false_2; [done|].
        intros Hh'. apply Hh. unfold currentHolder. rewrite HA. simpl. by rewrite Hh'. }
    unfold currentHolder in Hh. rewrite HA in Hh. injection Hh as Hh.
    rewrite HA. simpl.
    destruct (bool_decide (sender = from) || bool_decide (operator a = Some sender))
      eqn:Hauth; rung.
    + apply orb_true_iff in Hauth as [Hauth|Hauth]; apply bool_decide_eq_true in Hauth;
        unfold mbind, M_bind;
        rewrite (transferFrom_run sender from to tokenId a w) by auto; by eexists _, _.
    + apply orb_false_iff in Hauth as [H1 H2]. apply bool_decide_eq_false in H1, H2.
      apply Hrev, transferFrom_Revert. rewrite HA.
      by rewrite bool_decide_eq_true_2 by done.
  - unfold first_failure, preconditions. rung. case_bool_decide as Ho; rung.
    + simpl. unfold cardPause, cardOnlyOwner, modify. unfold_call.
      rewrite bool_decide_eq_true_2 by done. simpl. by eexists _, _.
    + simpl. unfold cardPause, cardOnlyOwner. unfold_call.
      by rewrite bool_decide_eq_false_2.
  - unfold first_failure, preconditions. rung. case_bool_decide as Ho; rung.
    + simpl. unfold cardUnpause, cardOnlyOwner, modify. unfold_call.
      rewrite bool_decide_eq_true_2 by done. simpl. by eexists _, _.
    + simpl. unfold cardUnpause, cardOnlyOwner. unfold_call.
      by rewrite bool_decide_eq_false_2.
Qed.

(** C5: every call of either contract is all-or-nothing.  Each entry point
    has its table of preconditions ([preconditions]); in every world the
    system can be in, whenever one of them does not hold the call fails, with
    the named failure of the first one in the table that does not, and the
    transaction leaves the world, emitted facts included, exactly as it found
    it.  The
    failure is one of those listed for the entry point, and different
    failures are reported with different texts.  The same goes for whatever
    else makes a call fail.  For the operations whose bodies the repository
    has, the three swap operations and [mint], the table is complete: when
    every precondition holds the call goes through. *)
Theorem failed_call_changes_nothing this sender c w :
  reachable this w → sender ≠ zeroAddress →
  (∀ holds e, (holds, e) ∈ preconditions this sender c w → holds = false →
     ∃ e', first_failure this sender c w = Some e' ∧
           transact this sender c w = (Failed e', w)) ∧
  (∀ e, run this sender c w = Revert e →
     transact this sender c w = (Failed e, w) ∧ e ∈ failures c) ∧
  match first_failure this sender c w with
  | Some e =>
      transact this sender c w = (Failed e, w) ∧
      next this sender c w = w ∧
      facts (next this sender c w) = facts w ∧
      e ∈ failures c ∧
      (∀ e', reason e' = reason e → e' = e)
  | None =>
      swap_call c = true ∨ is_mint c = true →
      ∃ v, (transact this sender c w).1 = Returned v
  end.
Proof.
  intros Hr Hs. apply consistent_reachable in Hr as Hc.
  assert (∀ e, run this sender c w = Revert e →
               transact this sender c w = (Failed e, w) ∧ e ∈ failures c) as Hany.
  { intros e H. split; [unfold transact; by rewrite H|by eapply run_Revert_failures]. }
  pose proof (run_first_failure this sender c w Hc Hs) as H.
  split; [|split; [exact Hany|]].
  { intros holds e Hin Hno.
    destruct (first_unmet_Some _ _ _ Hin Hno) as [e' He'].
    unfold first_failure in H |- *. rewrite He' in H |- *.
    exists e'. split; [done|]. by apply Hany. }
  destruct (first_failure this sender c w) as [e|].
  - destruct (Hany e H) as [Ht Hin]. unfold next. rewrite Ht.
    split_and!; try done. intros e'. apply reason_inj.
  - intros _. destruct H as (v & w' & H). exists v. unfold transact. by rewrite H.
Qed.

Lemma failed_call_changes_nothing_witness :
  (transact Scenario.coordinator Scenario.carol (CancelSwap 1) Scenario.offered
   = (Failed NotProposer, Scenario.offered) ∧
   next Scenario.coordinator Scenario.carol (CancelSwap 1) Scenario.offered = Scenario.offered ∧
   facts (next Scenario.coordinator Scenario.carol (CancelSwap 1) Scenario.offered)
   = facts Scenario.offered ∧
   NotProposer ∈ failures (CancelSwap 1) ∧
   (∀ e', reason e' = reason NotProposer → e' = NotProposer)) ∧
  (transact Scenario.coordinator Scenario.bob (TransferFrom Scenario.alice Scenario.bob 1)
     Scenario.offered
   = (Failed NotHolder, Scenario.offered) ∧
   next Scenario.coordinator Scenario.bob (TransferFrom Scenario.alice Scenario.bob 1)
     Scenario.offered = Scenario.offered ∧
   facts (next Scenario.coordinator Scenario.bob (TransferFrom Scenario.alice Scenario.bob 1)
            Scenario.offered)
   = facts Scenario.offered ∧
   NotHolder ∈ failures (TransferFrom Scenario.alice Scenario.bob 1) ∧
   (∀ e', reason e' = reason NotHolder → e' = NotHolder)).
Proof.
  assert (first_failure Scenario.coordinator Scenario.carol (CancelSwap 1) Scenario.offered
          = Some NotProposer) as Hcancel.
  { vm_compute. reflexivity. }
  assert (first_failure Scenario.coordinator Scenario.bob
            (TransferFrom Scenario.alice Scenario.bob 1) Scenario.offered
          = Some NotHolder) as Htransfer.
  { vm_compute. reflexivity. }
  assert (Scenario.carol ≠ zeroAddress) as Hcarol by discriminate.
  assert (Scenario.bob ≠ zeroAddress) as Hbob by discriminate.
  split.
  - pose proof (failed_call_changes_nothing Scenario.coordinator Scenario.carol
                  (CancelSwap 1) Scenario.offered reachable_offered Hcarol) as (_ & _ & H).
    rewrite Hcancel in H. exact H.
  - pose proof (failed_call_changes_nothing Scenario.coordinator Scenario.bob
                  (TransferFrom Scenario.alice Scenario.bob 1) Scenario.offered
                  reachable_offered Hbob) as (_ & _ & H).
    rewrite Htransfer in H. exact H.
Defined.

(** * Properties of the web client *)

(** ** The swaps of a user (useSwaps) *)

(** *** Numbers *)

Lemma Number_safe n : n ≤ 2 ^ 53 → Number n = n.
Proof.
  intros Hn. unfold Number.
  destruct (N.size n <=? 53) eqn:Hs; [done|]. apply N.leb_gt in Hs.
  assert (n = 2 ^ 53) as ->; [|vm_compute; reflexivity].
  pose proof (N.size_le n) as Hle. rewrite N.succ_double_spec in Hle.
  assert (2 ^ 54 ≤ 2 ^ N.size n) by (apply N.pow_le_mono_r; lia).
  change (2 ^ 54) with (2 * 2 ^ 53) in *. lia.
Qed.

(** *** The map of swaps, by its values *)

Lemma mapValues_keyed vs : mapValues (keyed vs) = vs.
Proof.
  unfold mapValues, keyed. rewrite <- list_fmap_compose. by rewrite list_fmap_id.
Qed.

Lemma mapSet_keyed k v vs :
  UI.swapId v = k → k ∉ UI.swapId <$> vs → mapSet k v (keyed vs) = keyed (vs ++ [v]).
Proof.
  intros <-. induction vs as [|v' vs IH]; intros Hk; [done|]. simpl.
  rewrite fmap_cons, not_elem_of_cons in Hk. destruct Hk as [Hne Hk].
  rewrite (proj2 (N.eqb_neq _ _)) by done. by rewrite IH.
Qed.

Lemma ids_markAt k vs : UI.swapId <$> markAt k vs = UI.swapId <$> vs.
Proof.
  unfold markAt. rewrite <- list_fmap_compose. apply list_fmap_ext.
  intros _ s _. simpl. by destruct (UI.swapId s =? k).
Qed.

Lemma markAt_absent k vs : k ∉ UI.swapId <$> vs → markAt k vs = vs.
Proof.
  induction vs as [|v vs IH]; [done|]. rewrite fmap_cons, not_elem_of_cons.
  intros [Hne Hk].
  change (markAt k (v :: vs))
    with ((if UI.swapId v =? k then setExecuted v else v) :: markAt k vs).
  rewrite (proj2 (N.eqb_neq _ _)) by done. by rewrite IH.
Qed.

Lemma mapGet_keyed k vs :
  NoDup (UI.swapId <$> vs) →
  match mapGet k (keyed vs) with
  | Some swap => mapSet k (setExecuted swap) (keyed vs)
  | None => keyed vs
  end = keyed (markAt k vs).
Proof.
  induction vs as [|v vs IH]; [done|]. rewrite fmap_cons, NoDup_cons. intros [Hv Hnd].
  change (keyed (v :: vs)) with ((UI.swapId v, v) :: keyed vs).
  change (markAt k (v :: vs))
    with ((if UI.swapId v =? k then setExecuted v else v) :: markAt k vs).
  cbn [mapGet]. destruct (UI.swapId v =? k) eqn:Hk.
  - apply N.eqb_eq in Hk. subst k. cbn [mapSet]. rewrite N.eqb_refl.
    by rewrite markAt_absent.
  - specialize (IH Hnd).
    destruct (mapGet k (keyed vs)) as [swap|]; cbn [mapSet]; rewrite ?Hk; by rewrite IH.
Qed.

Lemma mapDelete_keyed k vs : mapDelete k (keyed vs) = keyed (dropAt k vs).
Proof.
  unfold mapDelete, keyed, dropAt. induction vs as [|v vs IH]; [done|].
  rewrite fmap_cons, !filter_cons. simpl. rewrite IH. by case_decide.
Qed.

Lemma markAt_snoc k vs v : UI.swapId v ≠ k → markAt k (vs ++ [v]) = markAt k vs ++ [v].
Proof.
  intros Hne. unfold markAt. rewrite fmap_app. simpl.
  by rewrite (proj2 (N.eqb_neq _ _)).
Qed.

Lemma dropAt_snoc k vs v : UI.swapId v ≠ k → dropAt k (vs ++ [v]) = dropAt k vs ++ [v].
Proof.
  intros Hne. unfold dropAt. rewrite filter_app. f_equal.
  rewrite filter_cons. by rewrite decide_True.
Qed.

Lemma dropAt_markAt k k' vs : dropAt k (markAt k' vs) = markAt k' (dropAt k vs).
Proof.
  unfold dropAt, markAt. induction vs as [|v vs IH]; [done|].
  rewrite fmap_cons, !filter_cons, IH.
  assert (UI.swapId (if UI.swapId v =? k' then setExecuted v else v) = UI.swapId v) as ->
    by by destruct (UI.swapId v =? k').
  by case_decide.
Qed.

Lemma ids_dropAt k vs : UI.swapId <$> dropAt k vs ⊆ UI.swapId <$> vs.
Proof.
  intros i (s & -> & Hs)%list_elem_of_fmap. apply list_elem_of_fmap. exists s.
  split; [done|]. unfold dropAt in Hs. by apply list_elem_of_filter in Hs as [_ ?].
Qed.

Lemma ids_marks ks vs : UI.swapId <$> marks ks vs = UI.swapId <$> vs.
Proof.
  revert vs. induction ks as [|k ks IH]; intros vs; [done|].
  unfold marks in *. simpl. by rewrite IH, ids_markAt.
Qed.

Lemma ids_drops ks vs : UI.swapId <$> drops ks vs ⊆ UI.swapId <$> vs.
Proof.
  revert vs. induction ks as [|k ks IH]; intros vs; [done|].
  unfold drops in *. simpl. etrans; [apply IH|apply ids_dropAt].
Qed.

Lemma marks_snoc ks vs v :
  UI.swapId v ∉ ks → marks ks (vs ++ [v]) = marks ks vs ++ [v].
Proof.
  revert vs. induction ks as [|k ks IH]; intros vs; [done|].
  rewrite not_elem_of_cons. intros [Hne Hk]. unfold marks in *. simpl.
  rewrite markAt_snoc by done. by apply IH.
Qed.

Lemma drops_snoc ks vs v :
  UI.swapId v ∉ ks → drops ks (vs ++ [v]) = drops ks vs ++ [v].
Proof.
  revert vs. induction ks as [|k ks IH]; intros vs; [done|].
  rewrite not_elem_of_cons. intros [Hne Hk]. unfold drops in *. simpl.
  rewrite dropAt_snoc by done. by apply IH.
Qed.

Lemma drops_markAt ks k vs : drops ks (markAt k vs) = markAt k (drops ks vs).
Proof.
  revert vs. induction ks as [|k' ks IH]; intros vs; [done|].
  unfold drops in *. simpl. rewrite dropAt_markAt. apply IH.
Qed.

Lemma fetchSwaps_phases user log :
  NoDup (UI.swapId <$> userCreated user log) →
  fetchSwaps (Some user) log = phases user log.
Proof.
  intros Hnd. unfold fetchSwaps, phases, userCreated in *.
  set (es := filter _ (queryCreated log)) in *.
  assert (foldl (λ m e, let '(swapId, _, _, _, _) := e in mapSet (Number swapId) (newSwap e) m)
            [] es = keyed (newSwap <$> es)) as ->.
  { clearbody es. induction es as [|e es IH] using rev_ind; [done|].
    rewrite fmap_app, fmap_app in Hnd. apply NoDup_app in Hnd as (Hnd & Hnew & _).
    rewrite foldl_app, IH by done. rewrite fmap_app.
    destruct e as [[[[swapId ao] ta] bo] tb]. simpl.
    apply mapSet_keyed; [done|]. intros Hin. apply (Hnew _ Hin). constructor. }
  generalize (newSwap <$> es) Hnd. clear Hnd es.
  induction (queryExecuted log) as [|i ks IH]; intros vs Hnd; simpl.
  - generalize vs. clear.
    induction (queryCancelled log) as [|i ks IH]; intros vs; simpl.
    + apply mapValues_keyed.
    + rewrite mapDelete_keyed. apply IH.
  - rewrite mapGet_keyed by done. apply IH. by rewrite ids_markAt.
Qed.

(** *** Fetching agrees with listening *)

Lemma ids_userCreated user log : UI.swapId <$> userCreated user log ⊆ swapIdsOf log.
Proof.
  intros k (s & -> & (e & -> & He)%list_elem_of_fmap)%list_elem_of_fmap.
  apply list_elem_of_filter in He as [_ (f & Hf & He)%list_elem_of_omap].
  apply list_elem_of_omap. exists f. split; [done|].
  destruct f; try discriminate He. by injection He as <-.
Qed.

Lemma ids_queryExecuted log : Number <$> queryExecuted log ⊆ swapIdsOf log.
Proof.
  intros k (i & -> & (f & Hf & He)%list_elem_of_omap)%list_elem_of_fmap.
  apply list_elem_of_omap. exists f. split; [done|].
  destruct f; try discriminate He. by injection He as <-.
Qed.

Lemma ids_queryCancelled log : Number <$> queryCancelled log ⊆ swapIdsOf log.
Proof.
  intros k (i & -> & (f & Hf & He)%list_elem_of_omap)%list_elem_of_fmap.
  apply list_elem_of_omap. exists f. split; [done|].
  destruct f; try discriminate He. by injection He as <-.
Qed.

Lemma ids_phases user log : UI.swapId <$> phases user log ⊆ swapIdsOf log.
Proof.
  unfold phases. etrans; [apply ids_drops|]. rewrite ids_marks. apply ids_userCreated.
Qed.

Lemma existsb_absent k vs :
  k ∉ UI.swapId <$> vs → existsb (λ swap, UI.swapId swap =? k) vs = false.
Proof.
  induction vs as [|v vs IH]; [done|]. rewrite fmap_cons, not_elem_of_cons.
  intros [Hne Hk]. simpl. rewrite IH by done. by rewrite (proj2 (N.eqb_neq _ _)).
Qed.

Lemma userCreated_snoc user log f :
  userCreated user (log ++ [f]) =
  userCreated user log ++
  match f with
  | SwapCreated swapId ao ta bo tb =>
      if involves user ao bo then [newSwap (swapId, ao, ta, bo, tb)] else []
  | _ => []
  end.
Proof.
  unfold userCreated, queryCreated. rewrite omap_app, filter_app, fmap_app. f_equal.
  destruct f as [? ? ?|? ? ?|swapId ao ta bo tb|swapId ? ?|swapId ?]; try done. simpl. rewrite filter_cons. simpl.
  destruct (involves user ao bo); by simpl.
Qed.

Lemma phases_snoc user log f :
  (∀ swapId ao ta bo tb, f = SwapCreated swapId ao ta bo tb →
                         Number swapId ∉ swapIdsOf log) →
  phases user (log ++ [f]) = handle user (phases user log) f.
Proof.
  intros Hfresh. unfold phases. rewrite userCreated_snoc.
  unfold queryExecuted, queryCancelled. rewrite !omap_app, !fmap_app.
  fold (queryExecuted log) (queryCancelled log).
  destruct f as [? ? ?|? ? ?|swapId ao ta bo tb|swapId ? ?|swapId ?]; simpl; rewrite ?app_nil_r; try done.
  - specialize (Hfresh _ _ _ _ _ eq_refl).
    destruct (involves user ao bo) eqn:Hinv; rewrite ?app_nil_r; [|done].
    rewrite marks_snoc, drops_snoc.
    + rewrite existsb_absent; [done|]. intros Hin. by apply Hfresh, (ids_phases user).
    + intros Hin. by apply Hfresh, ids_queryCancelled.
    + intros Hin. by apply Hfresh, ids_queryExecuted.
  - unfold marks, drops. rewrite foldl_app. simpl. apply drops_markAt.
  - unfold drops. by rewrite foldl_app.
Qed.

Lemma fresh_log_NoDup user log : fresh_log log → NoDup (UI.swapId <$> userCreated user log).
Proof.
  induction 1 as [|log f _ IH Hfresh]; [constructor|].
  rewrite userCreated_snoc, fmap_app.
  destruct f as [? ? ?|? ? ?|swapId ao ta bo tb|swapId ? ?|swapId ?]; rewrite ?app_nil_r; try done.
  destruct (involves user ao bo); rewrite ?app_nil_r; [|done].
  apply NoDup_app. split_and!; [done| |apply NoDup_singleton].
  intros k Hk [->|[]%elem_of_nil]%elem_of_cons.
  by apply (Hfresh _ _ _ _ _ eq_refl), (ids_userCreated user).
Qed.

Lemma fetchSwaps_delivered user log :
  fresh_log log → fetchSwaps (Some user) log = delivered user [] log.
Proof.
  intros Hf. rewrite fetchSwaps_phases by by apply fresh_log_NoDup.
  induction Hf as [|log f Hf IH Hfresh]; [done|].
  unfold delivered in *. rewrite foldl_app. simpl. rewrite <- IH. by apply phases_snoc.
Qed.

(** *** What a transaction does to the swaps and to the log at once *)

Lemma next_swap_effect this sender c w :
  sender ≠ zeroAddress → swap_effect this sender w (next this sender c w).
Proof.
  intros Hs. unfold next, transact.
  destruct (run this sender c w) as [[v w']|e] eqn:E; simpl.
  2:{ apply (effect_none _ _ _ _ []); [constructor|by rewrite app_nil_r|done|done]. }
  pose proof (run_emitted _ _ _ _ _ _ E) as Hf.
  destruct (registry_call c) eqn:Hc.
  { destruct (registry_call_frame _ _ _ _ _ _ Hc E) as (? & ? & _).
    apply (effect_none _ _ _ _ (emitted this sender c w)); try done.
    destruct c; try discriminate Hc; simpl; repeat constructor. }
  destruct c; try discriminate Hc; simpl in E, Hf; inv_success.
  - match goal with H : createSwap _ _ _ _ _ _ = _ |- _ =>
      apply createSwap_Success in H;
      destruct H as (_ & _ & Hne & Hlt & -> & aA & aB & _ & _ & _ & _ & _ & ->) end.
    by apply (effect_created _ _ _ _ [AssetTransferred tokA sender this] tokA tokBOwner tokB).
  - match goal with H : acceptSwap _ _ _ _ = _ |- _ =>
      apply acceptSwap_Success in H;
      destruct H as (_ & _ & Hex & -> & aB & aA & aB' & _ & _ & _ & _ & _ & _ & _ & ->) end.
    set (s := swapAt swapId w) in *.
    apply (effect_executed _ _ _ _
             [AssetTransferred (tokenB s) (tokenBOwner s) this;
              AssetTransferred (tokenA s) this (tokenBOwner s);
              AssetTransferred (tokenB s) this (tokenAOwner s)] swapId s); try done.
    + repeat constructor.
    + apply swapAt_lookup. intros Hz. subst s. by rewrite Hz in Hs.
  - match goal with H : cancelSwap _ _ _ _ = _ |- _ =>
      apply cancelSwap_Success in H;
      destruct H as (_ & _ & Hex & -> & aA & _ & _ & ->) end.
    set (s := swapAt swapId w) in *.
    apply (effect_cancelled _ _ _ _ [AssetTransferred (tokenA s) this (tokenAOwner s)] swapId s);
      try done.
    + repeat constructor.
    + apply swapAt_lookup. intros Hz. subst s. by rewrite Hz in Hs.
  - unfold pause, onlyOwner in *. inv_success.
    apply (effect_none _ _ _ _ []); [constructor|by rewrite app_nil_r|done|done].
  - unfold unpause, onlyOwner in *. inv_success.
    apply (effect_none _ _ _ _ []); [constructor|by rewrite app_nil_r|done|done].
Qed.

(** *** Listening agrees with the coordinator's storage *)

Lemma idsBelow_succ n : 1 ≤ n → idsBelow (n + 1) = idsBelow n ++ [n].
Proof.
  intros Hn. unfold idsBelow.
  replace (N.to_nat (n + 1) - 1)%nat with (S (N.to_nat n - 1)) by lia.
  rewrite seq_S, fmap_app. simpl. do 2 f_equal. lia.
Qed.

Lemma elem_of_idsBelow i n : i ∈ idsBelow n → 1 ≤ i < n.
Proof.
  unfold idsBelow. intros (k & -> & Hk)%list_elem_of_fmap.
  apply elem_of_seq in Hk. lia.
Qed.

Lemma storedEntry_id user m i e : storedEntry user m i = Some e → UI.swapId e = Number i.
Proof.
  unfold storedEntry. destruct (m !! i) as [s|]; [|done]. simpl.
  destruct (involves _ _ _); [|done]. by intros [= <-].
Qed.

Lemma stored_ids user m (l : list N) :
  UI.swapId <$> omap (storedEntry user m) l ⊆ Number <$> l.
Proof.
  intros k (e & -> & (i & Hi & He)%list_elem_of_omap)%list_elem_of_fmap.
  apply list_elem_of_fmap. exists i. split; [|done]. by eapply storedEntry_id.
Qed.

Lemma omap_cons_eq {A B : Type} (f : A → option B) (x : A) (l : list A) :
  omap f (x :: l) = match f x with Some y => y :: omap f l | None => omap f l end.
Proof. done. Qed.

Lemma storedEntry_Some user m i s :
  m !! i = Some s →
  storedEntry user m i
  = if involves user (tokenAOwner s) (tokenBOwner s) then Some (entryOf i s) else None.
Proof. intros H. unfold storedEntry. by rewrite H. Qed.

Lemma storedEntry_ne user m m' i :
  m' !! i = m !! i → storedEntry user m' i = storedEntry user m i.
Proof. intros H. unfold storedEntry. by rewrite H. Qed.

Lemma stored_insert_fresh user m n s (l : list N) :
  n ∉ l → omap (storedEntry user (<[n := s]> m)) l = omap (storedEntry user m) l.
Proof.
  induction l as [|i l IH]; [done|]. rewrite not_elem_of_cons. intros [Hne Hn].
  rewrite !omap_cons_eq, IH by done.
  by rewrite (storedEntry_ne user m) by by rewrite lookup_insert_ne.
Qed.

Lemma markAt_cons k v vs :
  markAt k (v :: vs) = (if UI.swapId v =? k then setExecuted v else v) :: markAt k vs.
Proof. done. Qed.

Lemma stored_insert_executed user m id s l :
  Forall (λ i, i ≤ 2 ^ 53) l → id ≤ 2 ^ 53 → m !! id = Some s →
  omap (storedEntry user (<[id := executedSwap s]> m)) l
  = markAt (Number id) (omap (storedEntry user m) l).
Proof.
  intros Hl Hid Hs. induction Hl as [|i l Hi _ IH]; [done|]. rewrite !omap_cons_eq, IH.
  destruct (decide (id = i)) as [<-|Hne].
  - rewrite (storedEntry_Some _ _ _ (executedSwap s)) by by rewrite lookup_insert_eq.
    rewrite (storedEntry_Some _ _ _ s) by done. simpl.
    destruct (involves _ _ _); [|done].
    rewrite markAt_cons. simpl. by rewrite N.eqb_refl.
  - rewrite (storedEntry_ne user m) by by rewrite lookup_insert_ne.
    destruct (storedEntry user m i) as [e|] eqn:He; [|done].
    rewrite markAt_cons. rewrite (storedEntry_id _ _ _ _ He).
    rewrite !Number_safe by done. by rewrite (proj2 (N.eqb_neq _ _)).
Qed.

Lemma stored_delete user m id l :
  Forall (λ i, i ≤ 2 ^ 53) l → id ≤ 2 ^ 53 →
  omap (storedEntry user (delete id m)) l = dropAt (Number id) (omap (storedEntry user m) l).
Proof.
  intros Hl Hid. induction Hl as [|i l Hi _ IH]; [done|]. rewrite !omap_cons_eq, IH.
  destruct (decide (id = i)) as [<-|Hne].
  - assert (storedEntry user (delete id m) id = None) as ->.
    { unfold storedEntry. by rewrite lookup_delete_eq. }
    destruct (storedEntry user m id) as [e|] eqn:He; [|done].
    unfold dropAt. rewrite filter_cons. rewrite decide_False; [done|].
    intros Hne. apply Hne. by eapply storedEntry_id.
  - rewrite (storedEntry_ne user m) by by rewrite lookup_delete_ne.
    destruct (storedEntry user m i) as [e|] eqn:He; [|done].
    unfold dropAt. rewrite filter_cons. rewrite decide_True; [done|].
    rewrite (storedEntry_id _ _ _ _ He). rewrite !Number_safe by done. congruence.
Qed.

Lemma idsBelow_safe n : n ≤ 2 ^ 53 → Forall (λ i, i ≤ 2 ^ 53) (idsBelow n).
Proof. intros Hn. apply Forall_forall. intros i Hi%elem_of_idsBelow. lia. Qed.

Lemma delivered_quiet user prev q : Forall quiet q → delivered user prev q = prev.
Proof.
  unfold delivered. induction 1 as [|f q Hf _ IH]; [done|]. simpl. by destruct f.
Qed.

Lemma delivered_snoc user prev log q f :
  Forall quiet q →
  delivered user prev (log ++ q ++ [f]) = handle user (delivered user prev log) f.
Proof.
  intros Hq. unfold delivered. rewrite !foldl_app. simpl.
  fold (delivered user prev log). fold (delivered user (delivered user prev log) q).
  by rewrite delivered_quiet.
Qed.

Lemma swapIdsOf_quiet q : Forall quiet q → swapIdsOf q = [].
Proof. unfold swapIdsOf. induction 1 as [|f q Hf _ IH]; [done|]. simpl. by destruct f. Qed.

Lemma swapIdsOf_app_quiet log q : Forall quiet q → swapIdsOf (log ++ q) = swapIdsOf log.
Proof.
  intros Hq. unfold swapIdsOf. rewrite omap_app. fold (swapIdsOf log) (swapIdsOf q).
  rewrite (swapIdsOf_quiet q) by done. apply app_nil_r.
Qed.

Lemma fresh_log_quiet log q : Forall quiet q → fresh_log log → fresh_log (log ++ q).
Proof.
  induction q as [|f q IH] using rev_ind; intros Hq Hl; [by rewrite app_nil_r|].
  apply Forall_app in Hq as [Hq Hf]. rewrite app_assoc. constructor; [by apply IH|].
  intros i ao ta bo tb ->. by inversion Hf.
Qed.

Lemma in_step_deployed user r deployer : in_step user (deployed r deployer).
Proof. split_and!; [constructor| |done]. intros k Hk. by apply elem_of_nil in Hk. Qed.

Lemma in_step_next this user sender c w :
  sender ≠ zeroAddress → consistent w → nextSwapId (next this sender c w) ≤ 2 ^ 53 →
  in_step user w → in_step user (next this sender c w).
Proof.
  intros Hs (_ & Hn & Hall) Hsafe (Hfresh & Hbound & Hdel).
  destruct (next_swap_effect this sender c w Hs)
    as [q Hq Hf Hsw Hnx | q tokA tokBOwner tokB Hq' Hf Hsw Hnx
       | q swapId s Hq Hl Hf Hsw Hnx | q swapId s Hq Hl Hf Hsw Hnx];
    unfold in_step, storedSwapsOf; rewrite Hf, Hsw, Hnx; rewrite Hnx in Hsafe.
  - split_and!.
    + by apply fresh_log_quiet.
    + intros k. rewrite swapIdsOf_app_quiet by done. apply Hbound.
    + unfold delivered. rewrite foldl_app. fold (delivered user [] (facts w)).
      fold (delivered user (delivered user [] (facts w)) q).
      by rewrite delivered_quiet.
  - assert (Forall quiet q) as Hq by (subst q; repeat constructor).
    rewrite (app_assoc (facts w)). split_and!.
    + constructor; [by apply fresh_log_quiet|].
      intros i ao ta bo tb [= <- _ _ _ _] Hin.
      rewrite swapIdsOf_app_quiet in Hin by done. apply Hbound in Hin.
      rewrite Number_safe in Hin by lia. lia.
    + intros k. unfold swapIdsOf. rewrite omap_app. fold (swapIdsOf (facts w ++ q)).
      rewrite swapIdsOf_app_quiet by done.
      simpl. rewrite elem_of_app, list_elem_of_singleton. intros [Hk| ->].
      * apply Hbound in Hk. lia.
      * rewrite Number_safe by lia. lia.
    + rewrite <- (app_assoc (facts w)), delivered_snoc, Hdel by done.
      rewrite idsBelow_succ, omap_app by done.
      rewrite stored_insert_fresh by (intros Hin%elem_of_idsBelow; lia).
      fold (storedSwapsOf user w). simpl. unfold storedEntry.
      rewrite lookup_insert_eq. simpl.
      destruct (involves user sender tokBOwner); [|by rewrite app_nil_r].
      rewrite existsb_absent; [done|]. intros Hin.
      apply stored_ids, list_elem_of_fmap in Hin as (i & Heq & Hi%elem_of_idsBelow).
      rewrite !Number_safe in Heq by lia. lia.
  - destruct (Hall _ _ Hl) as (Hid & _).
    rewrite (app_assoc (facts w)). split_and!.
    + constructor; [by apply fresh_log_quiet|]. by intros.
    + intros k. unfold swapIdsOf. rewrite omap_app. fold (swapIdsOf (facts w ++ q)).
      rewrite swapIdsOf_app_quiet by done.
      simpl. rewrite elem_of_app, list_elem_of_singleton. intros [Hk| ->]; [by apply Hbound|].
      rewrite Number_safe by lia. lia.
    + rewrite <- (app_assoc (facts w)), delivered_snoc, Hdel by done. simpl.
      symmetry. apply stored_insert_executed; [by apply idsBelow_safe|lia|done].
  - destruct (Hall _ _ Hl) as (Hid & _).
    rewrite (app_assoc (facts w)). split_and!.
    + constructor; [by apply fresh_log_quiet|]. by intros.
    + intros k. unfold swapIdsOf. rewrite omap_app. fold (swapIdsOf (facts w ++ q)).
      rewrite swapIdsOf_app_quiet by done.
      simpl. rewrite elem_of_app, list_elem_of_singleton. intros [Hk| ->]; [by apply Hbound|].
      rewrite Number_safe by lia. lia.
    + rewrite <- (app_assoc (facts w)), delivered_snoc, Hdel by done. simpl.
      symmetry. apply stored_delete; [by apply idsBelow_safe|lia].
Qed.

Lemma in_step_steps this user w w' :
  steps this w w' → consistent w → nextSwapId w' ≤ 2 ^ 53 → in_step user w → in_step user w'.
Proof.
  induction 1 as [|w sender c w' Hs Hsteps IH]; [done|]. intros Hc Hsafe Hin.
  apply IH; [by apply consistent_next|done|].
  apply in_step_next; try done. apply steps_nextSwapId in Hsteps. lia.
Qed.

Lemma in_step_reachable this user w :
  reachable this w → nextSwapId w ≤ 2 ^ 53 → in_step user w.
Proof.
  intros (r & d & Hsteps) Hsafe.
  eapply in_step_steps; [done|apply consistent_deployed|done|apply in_step_deployed].
Qed.

Lemma steps_facts this w w' : steps this w w' → ∃ later, facts w' = facts w ++ later.
Proof.
  induction 1 as [w|w sender c w' Hs _ [later IH]]; [exists []; by rewrite app_nil_r|].
  destruct (next_swap_effect this sender c w Hs) as [q _ Hf _ _|q ? ? ? _ Hf _ _
                                                    |q ? ? _ _ Hf _ _|q ? ? _ _ Hf _ _];
    rewrite IH, Hf, <- ?app_assoc; by eexists.
Qed.

(** X13: what [fetchSwaps] shows is what the coordinator stores.  When the
    queried blocks hold the whole log of the coordinator and fewer than
    [2^53] swaps were created, the fetched list is, in the order of the
    identifiers, the stored swaps in which the user is proposer or
    counterparty, each with its parties, its two assets and its executed
    flag; cancelled swaps are absent.  Without a connected account the list
    is empty. *)
Theorem fetchSwaps_shows_stored_swaps this userAddress w :
  reachable this w → nextSwapId w ≤ 2 ^ 53 →
  fetchSwaps userAddress (facts w) =
  match userAddress with
  | Some user => storedSwapsOf user w
  | None => []
  end.
Proof.
  intros Hr Hsafe. destruct userAddress as [user|]; [|done].
  destruct (in_step_reachable this user w Hr Hsafe) as (Hfresh & _ & Hdel).
  by rewrite fetchSwaps_delivered.
Qed.

Lemma reachable_settled : reachable Scenario.coordinator Scenario.settled.
Proof. apply reachable_next; [apply reachable_approved|done]. Qed.

Lemma fetchSwaps_shows_stored_swaps_witness :
  fetchSwaps (Some Scenario.bob) (facts Scenario.settled)
  = [UI.mkSwap 1 Scenario.alice Scenario.bob 1 2 true].
Proof.
  rewrite (fetchSwaps_shows_stored_swaps Scenario.coordinator (Some Scenario.bob)
             Scenario.settled).
  - vm_compute. reflexivity.
  - apply reachable_settled.
  - vm_compute. discriminate.
Defined.

(** X14: the listeners keep the list equal to a new fetch.  After a fetch,
    delivering the later events to [handleSwapCreated], [handleSwapExecuted]
    and [handleSwapCancelled], each once and in the order of the log, gives
    the list a fetch at the later moment returns (same assumptions as for
    the fetch). *)
Theorem listeners_keep_up_with_fetch this user w w' :
  reachable this w → steps this w w' → nextSwapId w' ≤ 2 ^ 53 →
  ∃ later, facts w' = facts w ++ later ∧
           delivered user (fetchSwaps (Some user) (facts w)) later
           = fetchSwaps (Some user) (facts w').
Proof.
  intros Hr Hsteps Hsafe.
  assert (reachable this w') as Hr'.
  { destruct Hr as (r & d & H). exists r, d. by eapply steps_trans. }
  pose proof (steps_nextSwapId _ _ _ Hsteps) as Hmono.
  destruct (in_step_reachable this user w Hr) as (Hfresh & _ & Hdel); [lia|].
  destruct (in_step_reachable this user w' Hr' Hsafe) as (Hfresh' & _ & Hdel').
  destruct (steps_facts _ _ _ Hsteps) as [later Hlater]. exists later. split; [done|].
  rewrite !fetchSwaps_delivered by done. rewrite Hlater. unfold delivered.
  by rewrite foldl_app.
Qed.

Lemma listeners_keep_up_with_fetch_witness :
  ∃ later, facts Scenario.settled = facts Scenario.offered ++ later ∧
           delivered Scenario.bob (fetchSwaps (Some Scenario.bob) (facts Scenario.offered)) later
           = fetchSwaps (Some Scenario.bob) (facts Scenario.settled).
Proof.
  apply (listeners_keep_up_with_fetch Scenario.coordinator Scenario.bob
           Scenario.offered Scenario.settled).
  - apply reachable_offered.
  - unfold Scenario.settled, Scenario.approved.
    do 2 (apply steps_snoc; [|done]). constructor.
  - vm_compute. discriminate.
Defined.

(** X15: every listener is idempotent: an event delivered twice leaves the
    list as the event delivered once does.  (Each fetch subscribes the
    listeners anew, so events do arrive more than once.) *)
Theorem listeners_are_idempotent user prev f :
  handle user (handle user prev f) f = handle user prev f.
Proof.
  destruct f as [? ? ?|? ? ?|swapId ao ta bo tb|swapId ? ?|swapId ?]; try done; simpl.
  - unfold handleSwapCreated. destruct (involves user ao bo); [|done].
    destruct (existsb _ prev) eqn:Hex; [by rewrite Hex|].
    rewrite existsb_app. simpl. rewrite N.eqb_refl. by rewrite orb_true_r.
  - unfold handleSwapExecuted. rewrite <- list_fmap_compose. apply list_fmap_ext.
    intros _ swap _. simpl. destruct (UI.swapId swap =? Number swapId) eqn:Hk; simpl.
    + by rewrite Hk.
    + by rewrite Hk.
  - unfold handleSwapCancelled. induction prev as [|swap prev IH]; [done|].
    rewrite filter_cons. case_decide; [|done]. rewrite filter_cons.
    rewrite decide_True by done. by rewrite IH.
Qed.

(** *** Swaps older than the queried blocks *)

Lemma fresh_log_snoc_inv log f :
  fresh_log (log ++ [f]) →
  fresh_log log ∧
  ∀ swapId ao ta bo tb, f = SwapCreated swapId ao ta bo tb → Number swapId ∉ swapIdsOf log.
Proof.
  intros H. inversion H as [Hnil|log' f' Hlog Hf Heq].
  - by destruct log.
  - apply app_inj_tail in Heq as [-> ->]. by split.
Qed.

Lemma fresh_log_prefix log later : fresh_log (log ++ later) → fresh_log log.
Proof.
  induction later as [|f later IH] using rev_ind; [by rewrite app_nil_r|].
  rewrite app_assoc. intros [H _]%fresh_log_snoc_inv. by apply IH.
Qed.

Lemma swapIdsOf_app log later : swapIdsOf (log ++ later) = swapIdsOf log ++ swapIdsOf later.
Proof. unfold swapIdsOf. apply omap_app. Qed.

Lemma fresh_log_suffix before log : fresh_log (before ++ log) → fresh_log log.
Proof.
  induction log as [|f log IH] using rev_ind; [constructor|].
  rewrite app_assoc. intros [H Hf]%fresh_log_snoc_inv. constructor; [by apply IH|].
  intros i ao ta bo tb Heq Hin. apply (Hf _ _ _ _ _ Heq).
  rewrite swapIdsOf_app. apply elem_of_app. by right.
Qed.

Lemma userCreated_created user log k :
  k ∈ UI.swapId <$> userCreated user log →
  ∃ swapId ao ta bo tb, SwapCreated swapId ao ta bo tb ∈ log ∧ Number swapId = k.
Proof.
  intros (s & -> & (e & -> & He)%list_elem_of_fmap)%list_elem_of_fmap.
  apply list_elem_of_filter in He as [_ (f & Hf & He)%list_elem_of_omap].
  destruct f as [? ? ?|? ? ?|swapId ao ta bo tb|swapId ? ?|swapId ?]; try discriminate He.
  injection He as <-. by exists swapId, ao, ta, bo, tb.
Qed.

(** X16: a swap created before the queried blocks is not listed.  The
    events are queried from 10000 blocks back only; whatever the storage
    holds, [fetchSwaps] shows no swap whose SwapCreated event lies before
    the first queried block: such a swap, also a Pending one that involves
    the user, has left the list. *)
Theorem swaps_before_the_window_are_not_listed this user w before window swapId ao ta bo tb :
  reachable this w → nextSwapId w ≤ 2 ^ 53 →
  facts w = before ++ window → SwapCreated swapId ao ta bo tb ∈ before →
  Forall (λ swap, UI.swapId swap ≠ Number swapId) (fetchSwaps (Some user) window).
Proof.
  intros Hr Hsafe Hfacts Hold.
  destruct (in_step_reachable this user w Hr Hsafe) as (Hfresh & _ & _).
  rewrite Hfacts in Hfresh.
  rewrite fetchSwaps_phases by by eapply fresh_log_NoDup, fresh_log_suffix.
  apply Forall_forall. intros swap Hswap Hid.
  assert (Number swapId ∈ UI.swapId <$> phases user window) as Hin.
  { apply list_elem_of_fmap. by exists swap. }
  unfold phases in Hin. apply ids_drops in Hin. rewrite ids_marks in Hin.
  apply userCreated_created in Hin as (i' & ao' & ta' & bo' & tb' & Hin & Heq).
  apply list_elem_of_split in Hin as (l1 & l2 & ->).
  rewrite (app_assoc before), (cons_middle _ (before ++ l1) l2), app_assoc in Hfresh.
  apply fresh_log_prefix, fresh_log_snoc_inv in Hfresh as [_ Hnew].
  apply (Hnew _ _ _ _ _ eq_refl). rewrite Heq, swapIdsOf_app. apply elem_of_app. left.
  apply list_elem_of_omap. by exists (SwapCreated swapId ao ta bo tb).
Qed.

Lemma swaps_before_the_window_are_not_listed_witness :
  Forall (λ swap, UI.swapId swap ≠ Number 1)
         (fetchSwaps (Some Scenario.bob) [AssetTransferred 2 Scenario.bob Scenario.carol]) ∧
  swaps Scenario.moved !! 1 = Some (mkSwap Scenario.alice 1 Scenario.bob 2 false).
Proof.
  split.
  - apply (swaps_before_the_window_are_not_listed Scenario.coordinator Scenario.bob
             Scenario.moved (facts Scenario.offered)
             [AssetTransferred 2 Scenario.bob Scenario.carol]
             1 Scenario.alice 1 Scenario.bob 2).
    + apply reachable_next; [apply reachable_offered|done].
    + vm_compute. discriminate.
    + vm_compute. reflexivity.
    + vm_compute. do 3 right. left.
  - vm_compute. reflexivity.
Defined.

(** ** Calling the contracts (lib/contracts and the actions of useSwaps) *)

Lemma isTokenApprovedForSwap_true this user tokenId w :
  isTokenApprovedForSwap this user tokenId w = true ↔
  ∃ a, asset tokenId w = Some a ∧ holder a = user ∧ operator a = Some this.
Proof.
  unfold isTokenApprovedForSwap, ownerOf, getApproved, gets.
  destruct (asset tokenId w) as [a|]; simpl.
  - case_bool_decide as Hh; simpl.
    + split; [done|]. intros (a' & [= <-] & ? & _). done.
    + rewrite bool_decide_eq_true.
      split; [by exists a|]. by intros (a' & [= <-] & _ & ?).
  - split; [done|]. by intros (a' & ? & _).
Qed.

Lemma acceptSwap_run this swapId s aB aA w :
  paused w = false → entered w = false →
  swaps w !! swapId = Some s → executed s = false → tokenA s ≠ tokenB s →
  asset (tokenB s) w = Some aB → holder aB = tokenBOwner s → operator aB = Some this →
  asset (tokenA s) w = Some aA → holder aA = this →
  acceptSwap this (tokenBOwner s) swapId w
  = Success (tt, accepted this swapId s aB aA (mkAsset this None (metadata aB)) w).
Proof.
  intros Hp He Hl Hex Hne HB HhB HoB HA HhA.
  apply acceptSwap_Success. rewrite (swapAt_Some _ _ _ Hl).
  split_and!; try done. exists aB, aA, (mkAsset this None (metadata aB)).
  split_and!; try done.
  - rewrite asset_transferred. autorewrite with world. by rewrite decide_False.
  - rewrite !asset_transferred. rewrite decide_False by done. by rewrite decide_True.
Qed.

Lemma approve_run sender to tokenId a w :
  asset tokenId w = Some a → holder a = sender →
  approve sender to tokenId w
  = Success (tt, set_asset tokenId (mkAsset sender (Some to) (metadata a)) w).
Proof.
  intros Ha Hh. unfold approve, ownerOf. unfold_call. rewrite Ha. simpl.
  rewrite bool_decide_eq_true_2 by done. simpl. rewrite Ha. simpl. by rewrite Hh.
Qed.

(** X17: accepting from the client completes.  While the system serves
    outside accounts and is not paused, the [acceptSwap] action run by the
    recorded counterparty of a Pending swap, who still holds the wanted card
    (numbered within [2^53]), ends with the swap executed and the two cards
    exchanged, whether or not the coordinator had been approved before: the
    action sends the missing approval itself, and every transaction it sends
    succeeds.  No other transaction is taken to come in between. *)
Theorem client_acceptSwap_completes this signer swapId s w :
  in_service this w → paused w = false →
  swaps w !! swapId = Some s → executed s = false → tokenBOwner s = signer →
  currentHolder (tokenB s) w = Some signer → tokenB s ≤ 2 ^ 53 →
  ∃ outcomes w',
    UseSwaps.acceptSwap this signer swapId w = (outcomes, w') ∧
    Forall (λ o, o = Returned None) outcomes ∧
    swaps w' !! swapId = Some (executedSwap s) ∧
    currentHolder (tokenA s) w' = Some signer ∧
    currentHolder (tokenB s) w' = Some (tokenAOwner s).
Proof.
  intros Hin Hp Hl Hex Hbo HhB Hsafe.
  apply in_service_reachable in Hin as Hr.
  apply consistent_reachable in Hr as (He & _ & Hall).
  destruct (Hall _ _ Hl) as (_ & Hne & _).
  apply in_service_escrow_sound in Hin as Hsound.
  destruct Hsound as (_ & Hesc & _).
  destruct (Hesc _ _ Hl Hex) as (aA & HA & HhA & _).
  unfold currentHolder in HhB.
  destruct (asset (tokenB s) w) as [aB|] eqn:HB; [|done]. simpl in HhB.
  injection HhB as HhB.
  unfold UseSwaps.acceptSwap. rewrite (swapAt_Some _ _ _ Hl), Number_safe by done.
  assert (∀ aB0 w0, paused w0 = false → entered w0 = false →
            swaps w0 !! swapId = Some s →
            asset (tokenB s) w0 = Some aB0 → holder aB0 = signer → operator aB0 = Some this →
            asset (tokenA s) w0 = Some aA →
            let tx := transact this signer (AcceptSwap swapId) w0 in
            tx.1 = Returned None ∧
            swaps tx.2 !! swapId = Some (executedSwap s) ∧
            currentHolder (tokenA s) tx.2 = Some signer ∧
            currentHolder (tokenB s) tx.2 = Some (tokenAOwner s)) as Haccept.
  { intros aB0 w0 Hp0 He0 Hl0 HB0 HhB0 HoB0 HA0. unfold transact.
    assert (run this signer (AcceptSwap swapId) w0
            = Success (None, accepted this swapId s aB0 aA
                               (mkAsset this None (metadata aB0)) w0)) as ->.
    { simpl. unfold mbind, M_bind at 1. rewrite <- Hbo.
      by rewrite (acceptSwap_run this swapId s aB0 aA w0) by (try done; congruence). }
    simpl. split_and!; [done| | |].
    - by rewrite lookup_insert_eq.
    - unfold currentHolder. rewrite asset_accepted.
      rewrite decide_False by congruence. rewrite decide_True by done. simpl. by rewrite Hbo.
    - unfold currentHolder. rewrite asset_accepted. by rewrite decide_True. }
  destruct (isTokenApprovedForSwap this signer (tokenB s) w) eqn:Happ.
  - apply isTokenApprovedForSwap_true in Happ as (a & Ha & _ & Ho).
    rewrite HB in Ha. injection Ha as <-.
    destruct (Haccept aB w Hp He Hl HB HhB Ho HA) as (H1 & H2 & H3 & H4).
    eexists _, _. split; [reflexivity|]. split_and!; try done. by repeat constructor.
  - pose proof (approve_run signer this (tokenB s) aB w HB HhB) as Happrove.
    unfold approveTokenForSwap.
    assert (transact this signer (Approve this (tokenB s)) w
            = (Returned None,
               set_asset (tokenB s) (mkAsset signer (Some this) (metadata aB)) w)) as ->.
    { unfold transact. simpl. unfold mbind, M_bind at 1. by rewrite Happrove. }
    simpl.
    edestruct (Haccept (mkAsset signer (Some this) (metadata aB))
                 (set_asset (tokenB s) (mkAsset signer (Some this) (metadata aB)) w))
      as (H1 & H2 & H3 & H4); try done.
    + by rewrite asset_set_asset, decide_True.
    + rewrite asset_set_asset. by rewrite decide_False.
    + eexists _, _. split; [reflexivity|]. split_and!; try done. by repeat constructor.
Qed.

Lemma client_acceptSwap_completes_witness :
  ∃ outcomes w',
    UseSwaps.acceptSwap Scenario.coordinator Scenario.bob 1 Scenario.offered = (outcomes, w') ∧
    Forall (λ o, o = Returned None) outcomes ∧
    swaps w' !! 1 = Some (mkSwap Scenario.alice 1 Scenario.bob 2 true) ∧
    currentHolder 1 w' = Some Scenario.bob ∧
    currentHolder 2 w' = Some Scenario.alice.
Proof.
  apply (client_acceptSwap_completes Scenario.coordinator Scenario.bob 1
           (mkSwap Scenario.alice 1 Scenario.bob 2 false) Scenario.offered).
  - apply in_service_offered.
  - reflexivity.
  - vm_compute. reflexivity.
  - reflexivity.
  - reflexivity.
  - vm_compute. reflexivity.
  - vm_compute. discriminate.
Defined.



(** ** The cards of a user (useTokens) *)

(** *** The map of cards *)

Lemma keys_mapSet {V : Type} k (v : V) m k' : k' ∈ (mapSet k v m).*1 ↔ k' = k ∨ k' ∈ m.*1.
Proof.
  induction m as [|[k0 v0] m IH]; simpl.
  - rewrite list_elem_of_singleton. split; [by left|]. intros [?|H]; [done|].
    by apply elem_of_nil in H.
  - destruct (k0 =? k) eqn:Hk.
    + apply N.eqb_eq in Hk. subst k0. rewrite !fmap_cons, !elem_of_cons. simpl. tauto.
    + rewrite !fmap_cons, !elem_of_cons, IH. simpl. tauto.
Qed.

Lemma elem_of_mapSet {V : Type} k (v : V) m k' v' :
  (k', v') ∈ mapSet k v m → (k' = k ∧ v' = v) ∨ (k', v') ∈ m.
Proof.
  induction m as [|[k0 v0] m IH]; simpl.
  - rewrite list_elem_of_singleton. intros [= -> ->]. by left.
  - destruct (k0 =? k) eqn:Hk.
    + rewrite !elem_of_cons. intros [[= -> ->]|H]; [by left|right; by right].
    + rewrite !elem_of_cons. intros [Heq|H]; [right; by left|].
      destruct (IH H) as [?|?]; [by left|right; by right].
Qed.

Lemma keys_mapDelete {V : Type} k (m : list (N * V)) k' :
  k' ∈ (mapDelete k m).*1 ↔ k' ≠ k ∧ k' ∈ m.*1.
Proof.
  unfold mapDelete. rewrite !list_elem_of_fmap. split.
  - intros ([k0 v0] & -> & [Hne Hin]%list_elem_of_filter). split; [done|]. by exists (k0, v0).
  - intros (Hne & [k0 v0] & -> & Hin). exists (k0, v0). split; [done|].
    by apply list_elem_of_filter.
Qed.

Lemma elem_of_mapDelete {V : Type} k (m : list (N * V)) kv :
  kv ∈ mapDelete k m → kv ∈ m.
Proof. unfold mapDelete. by intros [_ ?]%list_elem_of_filter. Qed.

Lemma keys_receivedMap owner w es m k :
  k ∈ (receivedMap owner w es m).*1 ↔
  k ∈ m.*1 ∨ ∃ e, e ∈ es ∧ Number (Transfer.tokenId e) = k ∧
                  is_Some (asset (Transfer.tokenId e) w).
Proof.
  revert m. induction es as [|e es IH]; intros m; simpl.
  - split; [by left|]. intros [?|(e & He & _)]; [done|]. by apply elem_of_nil in He.
  - rewrite IH. unfold tokenURI. destruct (asset (Transfer.tokenId e) w) as [a|] eqn:Ha.
    + rewrite keys_mapSet. split.
      * intros [[->|?]|(e' & He' & ?)]; [right|by left|right].
        -- exists e. split_and!; [left|done|by rewrite Ha].
        -- exists e'. split; [by right|done].
      * intros [?|(e' & [->|He']%elem_of_cons & Hk & Hs)].
        -- left. by right.
        -- left. by left.
        -- right. by exists e'.
    + split.
      * intros [?|(e' & He' & ?)]; [by left|right]. exists e'. split; [by right|done].
      * intros [?|(e' & [->|He']%elem_of_cons & Hk & Hs)]; [by left| |right; by exists e'].
        rewrite Ha in Hs. by destruct Hs.
Qed.

Lemma values_receivedMap owner w es m k v :
  (k, v) ∈ receivedMap owner w es m →
  (k, v) ∈ m ∨ (UI.tokenId v = k ∧ UI.owner v = owner ∧
                ∃ e, e ∈ es ∧ Number (Transfer.tokenId e) = k ∧
                     tokenURI (Transfer.tokenId e) w = Success (UI.uri v, w)).
Proof.
  revert m. induction es as [|e es IH]; intros m; simpl; [by left|].
  intros [H|(? & ? & e' & He' & ?)]%IH.
  - unfold tokenURI in *. destruct (asset (Transfer.tokenId e) w) as [a|] eqn:Ha; [|by left].
    apply elem_of_mapSet in H as [[-> ->]|H]; [right|by left].
    split_and!; [done|done|]. exists e. split_and!; [left|done|]. by rewrite Ha.
  - right. split_and!; [done|done|]. exists e'. split; [by right|done].
Qed.

Lemma keys_sentMap es m k :
  k ∈ (sentMap es m).*1 ↔
  k ∈ m.*1 ∧ Forall (λ e, Number (Transfer.tokenId e) ≠ k) es.
Proof.
  revert m. induction es as [|e es IH]; intros m; simpl.
  - split; [by intros ?; split|by intros [? _]].
  - rewrite IH, keys_mapDelete, Forall_cons. split.
    + intros [[? ?] ?]. split_and!; [done|congruence|done].
    + intros [? [? ?]]. split_and!; [congruence|done|done].
Qed.

Lemma values_sentMap es m kv : kv ∈ sentMap es m → kv ∈ m.
Proof.
  revert m. induction es as [|e es IH]; intros m; simpl; [done|].
  intros H%IH. by eapply elem_of_mapDelete.
Qed.

(** Every entry of the fetched map is filed under the number of its card. *)
Lemma fetched_keys owner w log :
  let m := sentMap (filter (λ e, Transfer.from e = owner) (transferEvents log))
             (receivedMap owner w
                (filter (λ e, Transfer.to e = owner) (transferEvents log)) []) in
  UI.tokenId <$> mapValues m = m.*1.
Proof.
  intros m. unfold mapValues. rewrite <- list_fmap_compose. apply list_fmap_ext.
  intros i [k v] Hkv. simpl.
  apply list_elem_of_lookup_2 in Hkv. apply values_sentMap, values_receivedMap in Hkv.
  destruct Hkv as [H|(? & _)]; [by apply elem_of_nil in H|done].
Qed.

(** What [fetchTokens] lists: the cards that were received and never sent. *)
Lemma listed_by_fetchTokens owner log w k :
  k ∈ UI.tokenId <$> fetchTokens (Some owner) log w ↔
  (∃ e, e ∈ transferEvents log ∧ Transfer.to e = owner ∧ Number (Transfer.tokenId e) = k ∧
        is_Some (asset (Transfer.tokenId e) w)) ∧
  Forall (λ e, Transfer.from e = owner → Number (Transfer.tokenId e) ≠ k) (transferEvents log).
Proof.
  unfold fetchTokens.
  change (foldl _ (foldl _ [] ?r) ?s) with (sentMap s (receivedMap owner w r [])).
  rewrite fetched_keys, keys_sentMap, keys_receivedMap.
  rewrite Forall_forall. setoid_rewrite list_elem_of_filter. rewrite Forall_forall. split.
  - intros [[H|(e & [? ?] & ? & ?)] Hs]; [by apply elem_of_nil in H|].
    split; [by exists e|]. intros e' He' Hf. by apply Hs.
  - intros [(e & ? & ? & ? & ?) Hs]. split; [right; by exists e|].
    intros e' [Hf He']. by apply Hs.
Qed.

(** *** The log of transfers and the registry *)

Lemma accounted_empty : accounted ∅ [].
Proof.
  split; [intros t a H; by rewrite lookup_empty in H|]. intros e H. by apply elem_of_nil in H.
Qed.

Lemma accounted_transfer m T t a from to op :
  accounted m T → m !! t = Some a → holder a = from →
  accounted (<[t := mkAsset to op (metadata a)]> m) (T ++ [Transfer.mk from to t]).
Proof.
  intros [H1 H2] Ha Hh. split.
  - intros t' a'. destruct (decide (t = t')) as [<-|Hne].
    + rewrite lookup_insert_eq. intros [= <-]. exists (Transfer.mk from to t).
      split; [|done]. apply elem_of_app. right. constructor.
    + rewrite lookup_insert_ne by done. intros (e & He & ?)%H1.
      exists e. split; [|done]. apply elem_of_app. by left.
  - intros e [He|He]%elem_of_app; [|apply list_elem_of_singleton in He; subst e].
    + destruct (H2 e He) as (a' & Ha' & Hor).
      destruct (decide (t = Transfer.tokenId e)) as [Heq|Hne].
      * rewrite <- Heq, lookup_insert_eq. eexists. split; [done|]. right.
        rewrite <- Heq, Ha in Ha'. injection Ha' as <-.
        destruct Hor as [Hto|(e' & He' & ? & ?)].
        -- exists (Transfer.mk from to t).
           split; [apply elem_of_app; right; constructor|]. simpl.
           split; [congruence|done].
        -- exists e'. split; [apply elem_of_app; by left|]. split; [done|congruence].
      * rewrite lookup_insert_ne by done. exists a'. split; [done|].
        destruct Hor as [?|(e' & He' & ? & ?)]; [by left|right].
        exists e'. split; [apply elem_of_app; by left|done].
    + simpl. rewrite lookup_insert_eq. eexists. split; [done|]. by left.
Qed.

Lemma accounted_approve m T t a op :
  accounted m T → m !! t = Some a →
  accounted (<[t := mkAsset (holder a) op (metadata a)]> m) T.
Proof.
  intros [H1 H2] Ha. split.
  - intros t' a'. destruct (decide (t = t')) as [<-|Hne].
    + rewrite lookup_insert_eq. intros [= <-]. simpl. by apply H1.
    + rewrite lookup_insert_ne by done. apply H1.
  - intros e He. destruct (H2 e He) as (a' & Ha' & Hor).
    destruct (decide (t = Transfer.tokenId e)) as [Heq|Hne].
    + rewrite <- Heq, lookup_insert_eq. eexists. split; [done|].
      rewrite <- Heq, Ha in Ha'. injection Ha' as <-.
      destruct Hor as [?|(e' & ? & ? & ?)]; [by left|right].
      exists e'. split_and!; [done|done|congruence].
    + rewrite lookup_insert_ne by done. by exists a'.
Qed.

Lemma accounted_mint m T t to uri :
  accounted m T → m !! t = None →
  accounted (<[t := mkAsset to None uri]> m) (T ++ [Transfer.mk zeroAddress to t]).
Proof.
  intros [H1 H2] Hnone. split.
  - intros t' a'. destruct (decide (t = t')) as [<-|Hne].
    + rewrite lookup_insert_eq. intros [= <-]. exists (Transfer.mk zeroAddress to t).
      split; [|done]. apply elem_of_app. right. constructor.
    + rewrite lookup_insert_ne by done. intros (e & He & ?)%H1.
      exists e. split; [|done]. apply elem_of_app. by left.
  - intros e [He|He]%elem_of_app; [|apply list_elem_of_singleton in He; subst e].
    + destruct (H2 e He) as (a' & Ha' & Hor).
      assert (t ≠ Transfer.tokenId e) by congruence.
      rewrite lookup_insert_ne by done. exists a'. split; [done|].
      destruct Hor as [?|(e' & He' & ? & ?)]; [by left|right].
      exists e'. split; [apply elem_of_app; by left|done].
    + simpl. rewrite lookup_insert_eq. eexists. split; [done|]. by left.
Qed.

Lemma cards_logged_transferred from to t a w :
  cards_logged w → asset t w = Some a → holder a = from →
  cards_logged (transferred from to t a w).
Proof.
  intros H Ha Hh. unfold cards_logged, transferred. simpl.
  unfold transferEvents. rewrite omap_app. by apply accounted_transfer.
Qed.

Lemma cards_logged_next this sender c w :
  sequential w → cards_logged w → cards_logged (next this sender c w).
Proof.
  intros Hseq Hlog. unfold next, transact.
  destruct (run this sender c w) as [[v w']|e] eqn:E; [|done]. simpl.
  destruct c; simpl in E; inv_success.
  - match goal with H : createSwap _ _ _ _ _ _ = _ |- _ =>
      apply createSwap_Success in H
        as (_ & _ & _ & _ & -> & aA & aB & HA & HhA & _ & _ & _ & ->) end.
    unfold cards_logged, created. simpl. unfold transferEvents.
    rewrite !omap_app. simpl. rewrite app_nil_r.
    by apply accounted_transfer.
  - match goal with H : acceptSwap _ _ _ _ = _ |- _ =>
      apply acceptSwap_Success in H
        as (_ & _ & _ & Hs & aB & aA & aB' & HB & HhB & _ & HA & HhA & HB' & HhB' & ->) end.
    unfold cards_logged, accepted. simpl. unfold transferEvents.
    rewrite !omap_app. simpl. rewrite app_nil_r.
    apply accounted_transfer; [|exact HB'|done].
    apply accounted_transfer; [|exact HA|done].
    apply accounted_transfer; [done|exact HB|congruence].
  - match goal with H : cancelSwap _ _ _ _ = _ |- _ =>
      apply cancelSwap_Success in H as (_ & _ & _ & _ & aA & HA & HhA & ->) end.
    unfold cards_logged, cancelled. simpl. unfold transferEvents.
    rewrite !omap_app. simpl. rewrite app_nil_r.
    by apply accounted_transfer.
  - unfold pause, onlyOwner in *. by inv_success.
  - unfold unpause, onlyOwner in *. by inv_success.
  - match goal with H : mint _ _ _ _ = _ |- _ => pose proof H as Hmint;
      apply mint_Success in H as (Hn & Hass) end.
    unfold mint, cardWhenNotPaused, _safeMint, _setTokenURI, incrementNextTokenId in Hmint.
    inv_success. unfold cards_logged. simpl. unfold transferEvents.
    rewrite omap_app. simpl. rewrite asset_set_asset, decide_True by done. simpl.
    rewrite insert_insert_eq.
    apply accounted_mint; [done|].
    destruct (assets (pokemonCard w) !! _nextTokenId (pokemonCard w)) eqn:Ha; [|done].
    apply Hseq in Ha. lia.
  - unfold approve in *. inv_success. unfold cards_logged. simpl.
    match goal with Ha : asset tokenId w = Some ?a |- _ => rewrite Ha; simpl;
      by apply accounted_approve end.
  - match goal with H : transferFrom _ _ _ _ _ = _ |- _ =>
      apply transferFrom_Success in H as (a0 & Ha0 & Hh0 & Hauth & ->) end.
    by apply cards_logged_transferred.
  - unfold cardPause, cardOnlyOwner in *. by inv_success.
  - unfold cardUnpause, cardOnlyOwner in *. by inv_success.
Qed.

Lemma cards_logged_steps this w w' :
  steps this w w' → dense w → cards_logged w → cards_logged w'.
Proof.
  induction 1 as [|w sender c w' _ _ IH]; [done|]. intros Hd Hl.
  apply IH; [by apply dense_next|].
  apply cards_logged_next; [by apply dense_sequential|done].
Qed.

Lemma cards_logged_launched this w : launched this w → cards_logged w.
Proof.
  intros (admin & deployer & Hsteps).
  eapply cards_logged_steps; [done|apply dense_deployed|apply accounted_empty].
Qed.

Lemma NoDup_mapSet {V : Type} k (v : V) m : NoDup m.*1 → NoDup (mapSet k v m).*1.
Proof.
  induction m as [|[k0 v0] m IH]; simpl; [intros _; apply NoDup_singleton|].
  rewrite NoDup_cons. intros [Hk0 Hnd]. destruct (k0 =? k) eqn:Hk.
  - apply N.eqb_eq in Hk. subst k0. rewrite fmap_cons. by apply NoDup_cons.
  - apply N.eqb_neq in Hk. rewrite fmap_cons. apply NoDup_cons. split; [|by apply IH].
    simpl. rewrite keys_mapSet. intros [?|?]; [done|by apply Hk0].
Qed.

Lemma NoDup_mapDelete {V : Type} k (m : list (N * V)) : NoDup m.*1 → NoDup (mapDelete k m).*1.
Proof.
  intros H. eapply sublist_NoDup; [done|]. apply fmap_sublist, sublist_filter.
Qed.

Lemma NoDup_fetched owner w rs ss :
  NoDup (sentMap ss (receivedMap owner w rs [])).*1.
Proof.
  assert (NoDup (receivedMap owner w rs []).*1) as H.
  { assert (NoDup ([] : list (N * UI.Token)).*1) as H by constructor.
    revert H. generalize ([] : list (N * UI.Token)).
    induction rs as [|e rs IH]; intros m Hm; [done|]. simpl. apply IH.
    destruct (tokenURI _ w) as [[uri ?]|]; [by apply NoDup_mapSet|done]. }
  revert H. generalize (receivedMap owner w rs []).
  induction ss as [|e ss IH]; intros m Hm; [done|]. simpl. by apply IH, NoDup_mapDelete.
Qed.

(** X19: what [fetchTokens] lists.  From the construction of the registry
    on (the queried blocks holding its whole log, cards numbered within
    [2^53]), a card is listed for an account exactly when the account holds
    it and has never sent it away; each card is listed once, under the
    account, with the metadata reference the registry returns for it. *)
Theorem fetchTokens_lists_cards_never_sent this owner w :
  launched this w → _nextTokenId (pokemonCard w) ≤ 2 ^ 53 →
  let tokens := fetchTokens (Some owner) (facts w) w in
  (∀ k, k ∈ UI.tokenId <$> tokens ↔
        currentHolder k w = Some owner ∧
        Forall (λ e, Transfer.from e = owner → Transfer.tokenId e ≠ k)
               (transferEvents (facts w))) ∧
  NoDup (UI.tokenId <$> tokens) ∧
  Forall (λ tok, UI.owner tok = owner ∧
                 tokenURI (UI.tokenId tok) w = Success (UI.uri tok, w)) tokens.
Proof.
  intros Hl Hsafe tokens.
  pose proof (launched_dense _ _ Hl) as [_ Hd].
  pose proof (cards_logged_launched _ _ Hl) as [H1 H2].
  assert (∀ e, e ∈ transferEvents (facts w) →
               Number (Transfer.tokenId e) = Transfer.tokenId e) as Hnum.
  { intros e (a & Ha & _)%H2. apply Number_safe.
    assert (is_Some (asset (Transfer.tokenId e) w)) as Hs%Hd by by exists a. lia. }
  split_and!.
  - intros k. subst tokens. rewrite listed_by_fetchTokens. rewrite !Forall_forall. split.
    + intros [(e & He & Hto & Hk & Hsome) Hsent].
      rewrite Hnum in Hk by done. subst k.
      assert (∀ e', e' ∈ transferEvents (facts w) → Transfer.from e' = owner →
                    Transfer.tokenId e' ≠ Transfer.tokenId e) as Hsent'.
      { intros e' He' Hf. specialize (Hsent e' He' Hf). by rewrite Hnum in Hsent. }
      split; [|done].
      destruct (H2 e He) as (a & Ha & [Hh|(e' & He' & Hf & Ht)]).
      * unfold currentHolder, asset. rewrite Ha. simpl. congruence.
      * exfalso. apply (Hsent' e' He'); congruence.
    + intros [Hh Hsent]. unfold currentHolder in Hh.
      destruct (asset k w) as [a|] eqn:Ha; [|done]. injection Hh as Hh.
      destruct (H1 k a Ha) as (e & He & Hto & Ht). split.
      * exists e. split_and!; [done|congruence|by rewrite Hnum, Ht|].
        rewrite Ht, Ha. by eexists.
      * intros e' He' Hf. rewrite Hnum by done. by apply Hsent.
  - subst tokens. unfold fetchTokens.
    change (foldl _ (foldl _ [] ?r) ?s) with (sentMap s (receivedMap owner w r [])).
    rewrite fetched_keys. apply NoDup_fetched.
  - subst tokens. unfold fetchTokens.
    change (foldl _ (foldl _ [] ?r) ?s) with (sentMap s (receivedMap owner w r [])).
    apply Forall_forall. intros tok Htok. unfold mapValues in Htok.
    apply list_elem_of_fmap in Htok as ([k v] & -> & Hkv). simpl.
    apply values_sentMap, values_receivedMap in Hkv
      as [H|(Hid & Ho & e & [_ He]%list_elem_of_filter & Hk & Huri)];
      [by apply elem_of_nil in H|].
    split; [done|]. rewrite Hid, <- Hk, Hnum by done. done.
Qed.

Lemma fetchTokens_lists_cards_never_sent_witness :
  (2 ∈ UI.tokenId <$> fetchTokens (Some Scenario.bob) (facts Scenario.offered) Scenario.offered ↔
   currentHolder 2 Scenario.offered = Some Scenario.bob ∧
   Forall (λ e, Transfer.from e = Scenario.bob → Transfer.tokenId e ≠ 2)
          (transferEvents (facts Scenario.offered))) ∧
  NoDup (UI.tokenId <$>
         fetchTokens (Some Scenario.bob) (facts Scenario.offered) Scenario.offered).
Proof.
  destruct (fetchTokens_lists_cards_never_sent Scenario.coordinator Scenario.bob
              Scenario.offered) as (Hlisted & Hnodup & _).
  - apply launched_offered.
  - vm_compute. discriminate.
  - split; [apply Hlisted|exact Hnodup].
Defined.





